(** * qperf: the QUIC bulk-transfer benchmark, embedded in Rocq

    The repository holds several revisions of one Go program
    ([qperf.go]).  Each revision is embedded in a module of its own:

    - [Seconds]: the revision with the [-seconds] flag (read deadline,
      graceful stop with application error code 0);
    - [Limit]: the revision with the [-b] flag (download rate limit,
      [limiterFromString]) and the [totalData] cap on the sender;
    - [Initial]: the first revision, whose receiver is a plain [io.Copy].

    - [Copy]: the revision between [Initial] and [Limit] (byte cap on
      the sender, [io.Copy] and statistics on the receiver).

    After the revisions come the parts they share: the read deadline,
    the address of the server ([net.SplitHostPort]), the TLS
    settings, the name of the qlog file ([path/filepath]) and the
    qlog writer ([bufferedWriteCloser] over a [bufio.Writer]).

    What the program takes from Go's runtime and libraries (float64
    arithmetic, [strconv], [fmt], [x/time/rate], the QUIC stream) is
    modelled first, each part after the documented behaviour of the
    library. *)

From Stdlib Require Import ZArith List String Ascii Bool Lia.
From Stdlib Require Import SpecFloat.
From Stdlib Require Import DecimalString.
From Stdlib.Strings Require Import Byte.
Import ListNotations.

Local Open Scope string_scope.
Local Open Scope Z_scope.

(* ================================================================= *)
(** ** float64: IEEE 754 binary64 *)

Definition float64 : Type := spec_float.

Module Float64.

Definition prec : Z := 53.
Definition emax : Z := 1024.

Definition NaN : float64 := S754_nan.
Definition PInf : float64 := S754_infinity false.
Definition NInf : float64 := S754_infinity true.
Definition zero (neg : bool) : float64 := S754_zero neg.

Definition mul : float64 -> float64 -> float64 := SFmul prec emax.
Definition div : float64 -> float64 -> float64 := SFdiv prec emax.
Definition ldexp : float64 -> Z -> float64 := SFldexp prec emax.

(** math.MaxFloat64 *)
Definition MaxFloat64 : float64 := SFmax_float prec emax.

(** The conversion [float64(n)] of an integer: the nearest float64,
    ties to even. *)
Definition of_Z (n : Z) : float64 := binary_normalize prec emax n 0 false.

(** The float64 nearest to [m * 10^e10] (ties to even); [neg] is
    the sign of a zero mantissa.  Decimal constants of the source
    and decimal numerals read by [strconv] are converted this way. *)
Definition of_decimal (neg : bool) (m : Z) (e10 : Z) : float64 :=
  match m with
  | Z0 => S754_zero neg
  | Zpos p =>
      if 0 <=? e10 then binary_normalize prec emax (m * 10 ^ e10) 0 false
      else SFdiv prec emax (S754_finite false p 0)
                           (S754_finite false (Z.to_pos (10 ^ (- e10))) 0)
  | Zneg p =>
      if 0 <=? e10 then binary_normalize prec emax (m * 10 ^ e10) 0 false
      else SFdiv prec emax (S754_finite true p 0)
                           (S754_finite false (Z.to_pos (10 ^ (- e10))) 0)
  end.

(** The float64 nearest to [m * 2^e2]. *)
Definition of_binary (neg : bool) (m : Z) (e2 : Z) : float64 :=
  match m with
  | Z0 => S754_zero neg
  | _ => binary_normalize prec emax m e2 false
  end.

Definition is_inf (x : float64) : bool :=
  match x with S754_infinity _ => true | _ => false end.

(** [x] is NaN or carries a clear sign bit. *)
Definition sign_clear (x : float64) : Prop :=
  match x with
  | S754_nan => True
  | S754_zero s | S754_infinity s | S754_finite s _ _ => s = false
  end.

End Float64.

Declare Scope f64_scope.
Delimit Scope f64_scope with f64.
Infix "*" := Float64.mul : f64_scope.
Infix "/" := Float64.div : f64_scope.

(** Untyped Go constants.  Go evaluates a constant expression such as
    [1.25*1e3] exactly and only then converts the result to float64;
    a decimal constant is kept as [cm * 10^ce]. *)
Record untyped : Type := Const { cm : Z; ce : Z }.

Definition cmul (a b : untyped) : untyped :=
  {| cm := cm a * cm b; ce := ce a + ce b |}.

Definition f64 (c : untyped) : float64 :=
  Float64.of_decimal false (cm c) (ce c).

(* ================================================================= *)
(** ** Strings *)

Definition len (s : string) : Z := Z.of_nat (String.length s).

(** [indexRune(set, c) >= 0] for a one-byte rune. *)
Fixpoint mem (c : ascii) (set : string) : bool :=
  match set with
  | EmptyString => false
  | String d r => Ascii.eqb c d || mem c r
  end.

(** The longest prefix whose bytes all satisfy [p], and what follows. *)
Fixpoint span (p : ascii -> bool) (s : string) : string * string :=
  match s with
  | String c r =>
      if p c then let (a, b) := span p r in (String c a, b)
      else (EmptyString, s)
  | EmptyString => (EmptyString, EmptyString)
  end.

Fixpoint forallb_str (p : ascii -> bool) (s : string) : bool :=
  match s with
  | String c r => p c && forallb_str p r
  | EmptyString => true
  end.

Fixpoint existsb_str (p : ascii -> bool) (s : string) : bool :=
  match s with
  | String c r => p c || existsb_str p r
  | EmptyString => false
  end.

Fixpoint count_str (p : ascii -> bool) (s : string) : Z :=
  match s with
  | String c r => (if p c then 1 else 0) + count_str p r
  | EmptyString => 0
  end.

(** The next byte of [s] does not satisfy [p] (or [s] is empty). *)
Definition stops (p : ascii -> bool) (s : string) : bool :=
  match s with
  | String c _ => negb (p c)
  | EmptyString => true
  end.

Definition decimalDigits : string := "0123456789".
Definition hexadecimalDigits : string := "0123456789aAbBcCdDeEfF".

Definition is_dec (c : ascii) : bool := mem c decimalDigits.
Definition is_hex (c : ascii) : bool := mem c hexadecimalDigits.

Definition digit_val (c : ascii) : Z :=
  let n := Z.of_N (N_of_ascii c) in
  if (48 <=? n) && (n <=? 57) then n - 48
  else if (97 <=? n) && (n <=? 102) then n - 97 + 10
  else if (65 <=? n) && (n <=? 70) then n - 65 + 10
  else 0.

Fixpoint take (n : nat) (s : string) : string :=
  match n, s with
  | S k, String c r => String c (take k r)
  | _, _ => EmptyString
  end.

Fixpoint drop (n : nat) (s : string) : string :=
  match n, s with
  | S k, String _ r => drop k r
  | _, _ => s
  end.

(** [m*base + d] over the digits of [s], underscores skipped. *)
Fixpoint digits_acc (base : Z) (s : string) (m : Z) : Z :=
  match s with
  | EmptyString => m
  | String c r =>
      if Ascii.eqb c "_" then digits_acc base r m
      else digits_acc base r (m * base + digit_val c)
  end.

(** An optional leading ['+'] or ['-']: whether it was ['-'], and the
    rest. *)
Definition opt_sign (s : string) : bool * string :=
  match s with
  | String c r =>
      if Ascii.eqb c "+" then (false, r)
      else if Ascii.eqb c "-" then (true, r)
      else (false, s)
  | EmptyString => (false, s)
  end.

(* ================================================================= *)
(** ** strconv: [ParseFloat] and [Atoi]

    Go's standard library, not part of the repository.  [ParseFloat]
    accepts the decimal and hexadecimal floating-point syntax of Go
    (underscores only where [underscoreOK] allows them), an optional
    sign, and the words inf, infinity and nan in any case; it returns
    the nearest float64, a syntax error when the whole string is not
    of that form, and a range error when the value overflows. *)

Module strconv.

Inductive NumError : Type := ErrSyntax | ErrRange.

Definition to_lower (c : ascii) : ascii :=
  let n := N_of_ascii c in
  if (65 <=? n)%N && (n <=? 90)%N then ascii_of_N (n + 32) else c.

Fixpoint commonPrefixLenIgnoreCase (s prefix : string) : nat :=
  match s, prefix with
  | String c r, String d q =>
      if Ascii.eqb (to_lower c) d then S (commonPrefixLenIgnoreCase r q)
      else O
  | _, _ => O
  end.

(** [special]: the value of a leading inf, infinity or nan, and the
    input that follows it. *)
Definition special (s : string) : option (float64 * string) :=
  match s with
  | EmptyString => None
  | String c r =>
      if mem c "+-" || mem c "iI" then
        let body := if mem c "+-" then r else s in
        let n := commonPrefixLenIgnoreCase body "infinity" in
        let n := if Nat.ltb 3 n && Nat.ltb n 8 then 3%nat else n in
        if Nat.eqb n 3 || Nat.eqb n 8
        then Some (S754_infinity (Ascii.eqb c "-"), drop n body)
        else None
      else if mem c "nN" then
        if Nat.eqb (commonPrefixLenIgnoreCase s "nan") 3
        then Some (Float64.NaN, drop 3 s)
        else None
      else None
  end.

Fixpoint underscoreOK_loop (hex : bool) (s : string) (i : ascii) : bool :=
  match s with
  | EmptyString => negb (Ascii.eqb i "_")
  | String c r =>
      if is_dec c || (hex && is_hex c) then underscoreOK_loop hex r "0"
      else if Ascii.eqb c "_" then
        if Ascii.eqb i "0" then underscoreOK_loop hex r "_" else false
      else if Ascii.eqb i "_" then false
      else underscoreOK_loop hex r "!"
  end.

(** Underscores must separate digits, or a base prefix and a digit. *)
Definition underscoreOK (s : string) : bool :=
  let s := snd (opt_sign s) in
  match s with
  | String z (String x r) =>
      if Ascii.eqb z "0" && mem x "bBoOxX"
      then underscoreOK_loop (mem x "xX") r "0"
      else underscoreOK_loop false s "^"
  | _ => underscoreOK_loop false s "^"
  end.

(** The exponent digits; the running value stops growing at 10000. *)
Fixpoint exp_acc (s : string) (e : Z) : Z :=
  match s with
  | EmptyString => e
  | String c r =>
      if Ascii.eqb c "_" then exp_acc r e
      else if e <? 10000 then exp_acc r (e * 10 + digit_val c)
      else exp_acc r e
  end.

(** What [readFloat] has read: sign, base, the digits before and
    after the point, and the signed exponent. *)
Record number : Type := Num {
  neg : bool;
  hex : bool;
  intPart : string;
  fracPart : string;
  expo : Z
}.

Definition is_digit (hex : bool) (c : ascii) : bool :=
  if hex then is_hex c else is_dec c.

Definition is_mant (hex : bool) (c : ascii) : bool :=
  is_digit hex c || Ascii.eqb c "_".

Definition is_expd (c : ascii) : bool := is_dec c || Ascii.eqb c "_".

Definition hex_prefix (s : string) : bool * string :=
  match s with
  | String z (String x (String c r)) =>
      if Ascii.eqb z "0" && mem x "xX" then (true, String c r)
      else (false, s)
  | _ => (false, s)
  end.

(** The optional exponent: [None] when it is malformed (or missing
    from a hexadecimal number), else its value and the rest. *)
Definition read_exp (hex : bool) (s : string) : option (Z * string) :=
  match s with
  | String c r =>
      if mem c (if hex then "pP" else "eE") then
        let '(eneg, r1) := opt_sign r in
        match r1 with
        | String d _ =>
            if is_dec d then
              let '(ed, rest) := span is_expd r1 in
              let e := exp_acc ed 0 in
              Some (if eneg then - e else e, rest)
            else None
        | EmptyString => None
        end
      else if hex then None else Some (0, s)
  | EmptyString => if hex then None else Some (0, s)
  end.

Definition readFloat (s : string) : option (number * string) :=
  match s with
  | EmptyString => None
  | _ =>
    let '(neg, s1) := opt_sign s in
    let '(hex, s2) := hex_prefix s1 in
    let '(ip, s3) := span (is_mant hex) s2 in
    let '(fp, s4) := match s3 with
                     | String c r =>
                         if Ascii.eqb c "." then span (is_mant hex) r
                         else (EmptyString, s3)
                     | EmptyString => (EmptyString, s3)
                     end in
    if negb (existsb_str (is_digit hex) (ip ++ fp)) then None
    else
      match read_exp hex s4 with
      | None => None
      | Some (e, rest) =>
          let consumed := take (String.length s - String.length rest) s in
          if existsb_str (Ascii.eqb "_") consumed && negb (underscoreOK consumed)
          then None
          else Some (Num neg hex ip fp e, rest)
      end
  end.

Definition value (x : number) : float64 :=
  let base := if hex x then 16 else 10 in
  let m := digits_acc base (intPart x ++ fracPart x) 0 in
  let m := if neg x then - m else m in
  let nfrac := count_str (is_digit (hex x)) (fracPart x) in
  if hex x then Float64.of_binary (neg x) m (expo x - 4 * nfrac)
  else Float64.of_decimal (neg x) m (expo x - nfrac).

(** [atof64]: value, unread input, error. *)
Definition atof64 (s : string) : float64 * string * option NumError :=
  match special s with
  | Some (v, rest) => (v, rest, None)
  | None =>
      match readFloat s with
      | None => (Float64.zero false, s, Some ErrSyntax)
      | Some (x, rest) =>
          let f := value x in
          (f, rest, if Float64.is_inf f then Some ErrRange else None)
      end
  end.

Definition ParseFloat (s : string) : float64 * option NumError :=
  let '(f, rest, err) := atof64 s in
  match rest, err with
  | String _ _, None | String _ _, Some ErrRange =>
      (Float64.zero false, Some ErrSyntax)
  | _, _ => (f, err)
  end.

Definition Atoi (s : string) : Z * option NumError :=
  let '(neg, d) := opt_sign s in
  match d with
  | EmptyString => (0, Some ErrSyntax)
  | _ =>
      if forallb_str is_dec d then
        let n := digits_acc 10 d 0 in
        let v := if neg then - n else n in
        if v <? - 2 ^ 63 then (- 2 ^ 63, Some ErrRange)
        else if 2 ^ 63 <=? v then (2 ^ 63 - 1, Some ErrRange)
        else (v, None)
      else (0, Some ErrSyntax)
  end.

End strconv.

(* ================================================================= *)
(** ** fmt: [Sscanf] with a format ["%f"] followed by literal bytes

    Go's standard library, not part of the repository.  The scanner
    state [ss] is the token buffer and the unread input; [accept],
    [floatToken], [convertFloat], [SkipSpace] and [advance] follow the
    functions of the same names in [fmt/scan.go]. *)

Module fmt.

Inductive scanError : Type :=
| ErrUnexpectedNewline      (* "unexpected newline" *)
| EOF                       (* io.EOF *)
| ErrUnexpectedEOF          (* io.ErrUnexpectedEOF *)
| ErrNoMatch                (* "input does not match format" *)
| ErrNum (e : strconv.NumError).

Record ss : Type := SS { buf : string; rd : string }.

(** Token scanning never fails: a state monad over [ss]. *)
Definition tok (A : Type) : Type := ss -> A * ss.

Definition ret {A} (a : A) : tok A := fun s => (a, s).
Definition bind {A B} (m : tok A) (k : A -> tok B) : tok B :=
  fun s => let (a, s') := m s in k a s'.

Notation "x <- m ;; k" := (bind m (fun x => k))
  (at level 61, m at next level, right associativity).
Notation "m ;;; k" := (bind m (fun _ => k))
  (at level 61, right associativity).

(** [a && b] of Go: [b] runs only when [a] returned true. *)
Definition andthen (a b : tok bool) : tok bool :=
  x <- a ;; if x then b else ret false.

(** [s.accept(ok)]: take the next byte into the buffer when it is
    one of [ok]. *)
Definition accept (ok : string) : tok bool := fun s =>
  match rd s with
  | String c r =>
      if mem c ok then (true, SS (buf s ++ String c EmptyString) r)
      else (false, s)
  | EmptyString => (false, s)
  end.

(** [for s.accept(ok) {}] *)
Fixpoint accept_loop (ok : string) (b inp : string) : ss :=
  match inp with
  | String c r =>
      if mem c ok then accept_loop ok (b ++ String c EmptyString) r
      else SS b inp
  | EmptyString => SS b inp
  end.

Definition acceptMany (ok : string) : tok unit := fun s =>
  (tt, accept_loop ok (buf s) (rd s)).

Definition sign : string := "+-".
Definition period : string := ".".
Definition exponent : string := "eEpP".

(** The three parts of [floatToken] after the words nan and inf: the
    exponent, the fraction, and the number as a whole.
[[
    digits := decimalDigits + "_"
    exp := exponent
    if s.accept("0") && s.accept("xX") {
        digits = hexadecimalDigits + "_"
        exp = "pP"
    }
    for s.accept(digits) { }
    if s.accept(period) {
        for s.accept(digits) { }
    }
    if s.accept(exp) {
        s.accept(sign)
        for s.accept(decimalDigits + "_") { }
    }
    return string(s.buf)
]]
*)
Definition expToken (exp : string) : tok unit :=
  e <- accept exp ;;
  if e then accept sign ;;; acceptMany (decimalDigits ++ "_") else ret tt.

Definition fracToken (digits : string) : tok unit :=
  dot <- accept period ;;
  if dot then acceptMany digits else ret tt.

Definition numToken : tok unit :=
  hx <- andthen (accept "0") (accept "xX") ;;
  let digits := (if hx then hexadecimalDigits else decimalDigits) ++ "_" in
  let exp := if hx then "pP" else exponent in
  acceptMany digits ;;; fracToken digits ;;; expToken exp.

(** [floatToken]: the buffer is emptied, then
[[
    if s.accept("nN") && s.accept("aA") && s.accept("nN") { return ... }
    s.accept(sign)
    if s.accept("iI") && s.accept("nN") && s.accept("fF") { return ... }
]]
    and the number. *)
Definition floatToken : tok unit := fun s0 =>
  (nan <- andthen (accept "nN") (andthen (accept "aA") (accept "nN")) ;;
   if nan then ret tt else
   accept sign ;;;
   inf <- andthen (accept "iI") (andthen (accept "nN") (accept "fF")) ;;
   if inf then ret tt else numToken)
  (SS EmptyString (rd s0)).

Fixpoint indexByte (c : ascii) (s : string) : option nat :=
  match s with
  | EmptyString => None
  | String d r =>
      if Ascii.eqb c d then Some O else option_map S (indexByte c r)
  end.

Definition hasX (s : string) : bool := existsb_str (fun c => mem c "xX") s.

(** [convertFloat(str, 64)]: a decimal mantissa with a binary
    exponent (1.5p4) is evaluated here, everything else by
    [strconv.ParseFloat]. *)
Definition convertFloat (str : string) : scanError + float64 :=
  match indexByte "p" str with
  | Some p =>
      if negb (hasX str) then
        match strconv.ParseFloat (take p str) with
        | (_, Some e) => inl (ErrNum e)
        | (f, None) =>
            match strconv.Atoi (drop (S p) str) with
            | (_, Some e) => inl (ErrNum e)
            | (m, None) => inr (Float64.ldexp f m)
            end
        end
      else
        match strconv.ParseFloat str with
        | (_, Some e) => inl (ErrNum e)
        | (f, None) => inr f
        end
  | None =>
      match strconv.ParseFloat str with
      | (_, Some e) => inl (ErrNum e)
      | (f, None) => inr f
      end
  end.

(** The number of bytes of the space rune that starts [s], zero when
    [s] starts with none: U+0009..U+000D, U+0020, U+0085, U+00A0,
    U+1680, U+2000..U+200A, U+2028, U+2029, U+202F, U+205F, U+3000 in
    UTF-8. *)
Definition spaceLen (s : string) : nat :=
  let b := fun (c : ascii) => Z.of_N (N_of_ascii c) in
  match s with
  | String c0 r0 =>
      if ((9 <=? b c0) && (b c0 <=? 13)) || (b c0 =? 32) then 1%nat
      else
        match r0 with
        | String c1 r1 =>
            if (b c0 =? 194) && ((b c1 =? 133) || (b c1 =? 160)) then 2%nat
            else
              match r1 with
              | String c2 _ =>
                  if (b c0 =? 225) && (b c1 =? 154) && (b c2 =? 128) then 3%nat
                  else if (b c0 =? 226) && (b c1 =? 128)
                          && (((128 <=? b c2) && (b c2 <=? 138))
                              || (b c2 =? 168) || (b c2 =? 169) || (b c2 =? 175))
                  then 3%nat
                  else if (b c0 =? 226) && (b c1 =? 129) && (b c2 =? 159) then 3%nat
                  else if (b c0 =? 227) && (b c1 =? 128) && (b c2 =? 128) then 3%nat
                  else O
              | EmptyString => O
              end
        | EmptyString => O
        end
  | EmptyString => O
  end.

(** [s.SkipSpace()] when a newline is not a space ([Sscanf]): a
    newline is an error, other space runes are dropped. *)
Fixpoint SkipSpace_loop (fuel : nat) (inp : string) : scanError + string :=
  match fuel with
  | O => inr inp
  | S k =>
      match inp with
      | String c _ =>
          if Ascii.eqb c (ascii_of_nat 10) then inl ErrUnexpectedNewline
          else
            match spaceLen inp with
            | O => inr inp
            | n => SkipSpace_loop k (drop n inp)
            end
      | EmptyString => inr inp
      end
  end.

Definition SkipSpace (inp : string) : scanError + string :=
  SkipSpace_loop (String.length inp) inp.

(** [s.advance(format)] for a format of literal bytes (no ['%'], no
    space): each must be the next byte of the input. *)
Fixpoint advance (format inp : string) : scanError + string :=
  match format with
  | EmptyString => inr inp
  | String f fr =>
      match inp with
      | EmptyString => inl ErrUnexpectedEOF
      | String c r => if Ascii.eqb f c then advance fr r else inl ErrNoMatch
      end
  end.

(** [fmt.Sscanf(str, "%f" + lit, &arg)]: the new value of [arg] and
    the error.  [arg] is assigned as soon as the number is read,
    also when the literal then fails to match.  Input left after
    the format is not looked at. *)
Definition Sscanf (str : string) (lit : string) (arg : float64)
  : float64 * option scanError :=
  match SkipSpace str with
  | inl e => (arg, Some e)
  | inr inp =>
      match inp with
      | EmptyString => (arg, Some EOF)
      | _ =>
          let '(_, s) := floatToken (SS EmptyString inp) in
          match convertFloat (buf s) with
          | inl e => (arg, Some e)
          | inr v =>
              match advance lit (rd s) with
              | inl e => (v, Some e)
              | inr _ => (v, None)
              end
          end
      end
  end.

End fmt.

(* ================================================================= *)
(** ** golang.org/x/time/rate *)

Module rate.

(** [rate.Limit] is a float64; [rate.Inf] is [math.MaxFloat64]. *)
Definition Limit : Type := float64.
Definition Inf : Limit := Float64.MaxFloat64.

Record Limiter : Type := mkLimiter { limit : Limit; burst : Z }.

Definition NewLimiter (r : Limit) (b : Z) : Limiter := mkLimiter r b.

End rate.

(* ================================================================= *)
(** ** Formatting: the verbs [%d] and [%.3f] of [fmt.Printf] *)

Definition fmt_d (n : Z) : string :=
  (if n <? 0 then "-" else "") ++ NilZero.string_of_uint (N.to_uint (Z.abs_N n)).

(** [q] rounded to the nearest integer, ties to even, for [q = a / b]
    with [0 < b]. *)
Definition round_half_even (a b : Z) : Z :=
  let q := a / b in
  let r := a mod b in
  match 2 * r ?= b with
  | Lt => q
  | Gt => q + 1
  | Eq => if Z.even q then q else q + 1
  end.

Definition pad3 (n : Z) : string :=
  let d := fmt_d n in
  if n <? 10 then "00" ++ d else if n <? 100 then "0" ++ d else d.

Definition fmt_f3 (x : float64) : string :=
  match x with
  | S754_nan => "NaN"
  | S754_infinity false => "+Inf"
  | S754_infinity true => "-Inf"
  | S754_zero s => (if s then "-" else "") ++ "0.000"
  | S754_finite s m e =>
      let r := if 0 <=? e then Zpos m * 2 ^ e * 1000
               else round_half_even (Zpos m * 1000) (2 ^ (- e)) in
      (if s then "-" else "") ++ fmt_d (r / 1000) ++ "." ++ pad3 (r mod 1000)
  end.

(* ================================================================= *)
(** ** Errors, log records and the effects of a run *)

(** An [error] value, as far as the program tells errors apart: it
    compares with [io.EOF], asserts [*quic.ApplicationError] and reads
    its code, asserts [net.Error] and calls [Timeout()]. *)
Inductive error : Type :=
| io_EOF
| ApplicationError (ErrorCode : Z)
| net_Error (Timeout : bool)
| other_error (text : string).

(** What a [Read] or [Write] on the stream returns. *)
Record io_result : Type := IO { io_n : Z; io_err : option error }.

Inductive severity : Type := INFO | ERROR | FATAL.

(** The format strings of the program's log calls, with their
    arguments (the peer address is left out). *)
Inductive message : Type :=
| Listening
| ErrorAccepting (e : error)
| Accepted
| OpeningStream
| ErrorOpeningStream (e : error)
| ErrorWriting (e : error)
| Wrote (nBytes : Z)
| FatalRandomOpen (e : error)
| FatalRandomRead (e : error)
| FatalKeyPair (e : error)
| FatalListen (e : error)
| FatalServerAddress (e : error)
| QlogEnabled
| QlogCreateFailed
| FatalConnection (e : error)
| FatalAcceptStream (e : error)
| FatalDeadline (e : error)
| FatalOption_b
| LimiterIs (limit : float64) (burst : Z)
| FatalWaitN (e : error)
| ErrorReading (e : error)
| FatalReading (e : error).

Inductive event : Type :=
| Glog (sev : severity) (m : message)
| Stdout (line : string)
| Write (r : io_result)
| Read (r : io_result)
| WaitN (lim : rate.Limiter) (n : Z) (r : option error)
| SetReadDeadline (seconds : Z)
| Close
| CancelRead (code : Z)
| CloseWithError (code : Z) (reason : string).

(** How a piece of code stops: it falls through to the code after it,
    the function returns, the process exits ([os.Exit]), it panics, or
    it is still running when the scripted inputs are used up. *)
Inductive ending : Type :=
| Fell
| Returned
| Exited (code : Z)
| Panicked
| Blocked.

(** What one pass through a loop body decides. *)
Inductive control : Type :=
| Next
| Break
| Stop (e : ending).

(** [for cond { body }]: [inputs] holds, per iteration, what the
    environment answers to the calls of the body. *)
Section ForLoop.
Context {St I : Type}.
Variable cond : St -> bool.
Variable body : St -> I -> St * list event * control.

Fixpoint for_loop (inputs : list I) (st : St) : St * list event * ending :=
  if cond st then
    match inputs with
    | [] => (st, [], Blocked)
    | i :: rest =>
        let '(st1, ev, c) := body st i in
        match c with
        | Next =>
            let '(st2, ev2, e) := for_loop rest st1 in (st2, (ev ++ ev2)%list, e)
        | Break => (st1, ev, Fell)
        | Stop e => (st1, ev, e)
        end
    end
  else (st, [], Fell).
End ForLoop.

(** uint64 arithmetic wraps around. *)
Definition uint64 (n : Z) : Z := n mod 2 ^ 64.

(** [var data [1 << 16]byte], [readChunkSize], [totalData]. *)
Definition data_len : Z := Z.shiftl 1 16.
Definition readChunkSize : Z := Z.shiftl 8 10.
Definition totalData : Z := Z.shiftl 10 30.

(** [fmt.Printf("Received: %d bytes in %.3f seconds (%.3f Kbits/s)\n", ...)] *)
Definition received_line (n : Z) (durS rate : float64) : string :=
  "Received: " ++ fmt_d n ++ " bytes in " ++ fmt_f3 durS ++ " seconds ("
    ++ fmt_f3 rate ++ " Kbits/s)" ++ String (ascii_of_nat 10) EmptyString.

(** The last lines of every [clientMain] that prints statistics:
[[
    dur := time.Since(start)
    durS := float64(dur) / 1e9
    fmt.Printf(..., n, durS, ((float64(n)/1e3)*8)/float64(durS))
]]
    [dur] is the elapsed time in nanoseconds. *)
Definition durS (dur : Z) : float64 :=
  (Float64.of_Z dur / f64 (Const 1 9))%f64.

Definition kbits_per_sec (n : Z) (dur : Z) : float64 :=
  (((Float64.of_Z n / f64 (Const 1 3)) * f64 (Const 8 0)) / durS dur)%f64.

Definition report (n : Z) (dur : Z) : event :=
  Stdout (received_line n (durS dur) (kbits_per_sec n dur)).

(** The type assertions and comparisons the program makes on errors. *)
Definition is_EOF (e : error) : bool :=
  match e with io_EOF => true | _ => false end.

Definition as_ApplicationError (e : error) : option Z :=
  match e with ApplicationError c => Some c | _ => None end.

Definition as_net_Error (e : error) : option bool :=
  match e with net_Error t => Some t | _ => None end.

(* ================================================================= *)
(** ** The environment of a run

    Every call that leaves the program (files, TLS, QUIC, the clock,
    the rate limiter) is answered by the environment.  A run is
    determined by the flags and these answers. *)

Record flags : Type := Flags {
  serve : bool;             (* -s *)
  qlogDir : string;         (* -qlog-dest-dir *)
  durationInSecs : Z;       (* -seconds *)
  dLimit : string           (* -b *)
}.

(** One accepted connection: what [OpenUniStreamSync] returns, and
    what the successive [Write] calls on the stream return. *)
Record conn_env : Type := Conn {
  open_stream : option error;
  writes : list io_result
}.

Record server_env : Type := ServerEnv {
  random_open : option error;       (* os.Open("/dev/urandom") *)
  random_read : option error;       (* io.ReadFull(rf, data[:]) *)
  key_pair : option error;          (* tls.LoadX509KeyPair *)
  listen : option error;            (* quic.ListenAddr *)
  accepts : list (error + conn_env) (* the successive l.Accept(ctx) *)
}.

(** One iteration of the receiver's loop: whether [ctx.Done()] is
    closed when polled, what [limiter.WaitN] returns, what [s.Read]
    returns.  A revision only looks at the calls it makes. *)
Record iteration : Type := Iter {
  done_closed : bool;
  wait : option error;
  read : io_result
}.

Record client_env : Type := ClientEnv {
  split_host_port : option error;   (* net.SplitHostPort *)
  dial : option error;              (* quic.DialAddr[Context] *)
  accept_uni_stream : option error; (* conn.AcceptUniStream(ctx) *)
  set_read_deadline : option error; (* s.SetReadDeadline *)
  iterations : list iteration;
  since_start : Z                   (* time.Since(start), nanoseconds *)
}.

(** [ctx.Done()] is nil for [context.Background()]. *)
Record context : Type := Context { Done_not_nil : bool }.
Definition Background : context := Context false.

(** The main goroutine of a server, the goroutines it started (one
    per accepted connection, each with its own events), and how
    [serverMain] stopped. *)
Record server_run : Type := ServerRun {
  server_events : list event;
  sessions : list (list event * ending);
  server_end : ending
}.

Definition client_run : Type := (list event * ending)%type.

Record process : Type := Process {
  as_server : option server_run;
  as_client : option client_run
}.

(* ================================================================= *)
(** ** What the revisions share: [serverMain] around its write loop,
       and [main] *)

Section Server.

(** The [for] loop of the goroutine, from [nBytes]. *)
Variable write_loop : list io_result -> Z -> Z * list event * ending.

(** The goroutine started for an accepted connection:
[[
  nBytes := uint64(0)
  defer func() { glog.Infof("Wrote %d bytes to client: %s", nBytes, ...) }()
  glog.Infof("Opening Unidirectional stream connection to client: %s", ...)
  s, err := conn.OpenUniStreamSync(ctx)
  if err != nil { glog.Errorf(...); return }
  defer s.Close()
  for ... { ... }
]]
*)
Definition session (c : conn_env) : list event * ending :=
  match open_stream c with
  | Some e =>
      ([Glog INFO OpeningStream; Glog ERROR (ErrorOpeningStream e);
        Glog INFO (Wrote 0)], Returned)
  | None =>
      let '(nBytes, ev, e) := write_loop (writes c) 0 in
      match e with
      | Fell | Returned =>
          ((Glog INFO OpeningStream :: ev) ++ [Close; Glog INFO (Wrote nBytes)],
           Returned)%list
      | Panicked =>
          ((Glog INFO OpeningStream :: ev) ++ [Close; Glog INFO (Wrote nBytes)],
           Panicked)%list
      | Exited _ | Blocked => (Glog INFO OpeningStream :: ev, e)
      end
  end.

(** The body of the accept loop:
[[
  conn, err := l.Accept(ctx)
  if err != nil { glog.Errorf(...); continue }
  glog.Infof("Accepted connection from %s", conn.RemoteAddr())
  go func(conn quic.Connection) { ... }(conn)
]]
    The state is the list of goroutines started so far. *)
Definition accept_body (started : list (list event * ending))
  (a : error + conn_env)
  : list (list event * ending) * list event * control :=
  match a with
  | inl e => (started, [Glog ERROR (ErrorAccepting e)], Next)
  | inr c => ((started ++ [session c])%list, [Glog INFO Accepted], Next)
  end.

Definition serverMain (env : server_env) : server_run :=
  match random_open env with
  | Some e => ServerRun [Glog FATAL (FatalRandomOpen e)] [] (Exited 1)
  | None =>
  match random_read env with
  | Some e => ServerRun [Glog FATAL (FatalRandomRead e)] [] (Exited 1)
  | None =>
  match key_pair env with
  | Some e => ServerRun [Glog FATAL (FatalKeyPair e)] [] (Exited 1)
  | None =>
  match listen env with
  | Some e => ServerRun [Glog FATAL (FatalListen e)] [] (Exited 1)
  | None =>
      (* defer l.Close() *)
      let '(started, ev, e) :=
        for_loop (fun _ => true) accept_body (accepts env) [] in
      match e with
      | Fell | Returned =>
          ServerRun ((Glog INFO Listening :: ev) ++ [Close])%list started Returned
      | Panicked =>
          ServerRun ((Glog INFO Listening :: ev) ++ [Close])%list started Panicked
      | Exited _ | Blocked => ServerRun (Glog INFO Listening :: ev) started e
      end
  end end end end.

End Server.

Section Main.

Variable serverMain : server_env -> server_run.
Variable clientMain : context -> flags -> client_env -> client_run.

(**
[[
  flag.Parse()
  if *serve {
      serverMain(context.Background())
  }
  clientMain(context.Background())
]]
    The call of [clientMain] is reached when [serverMain] was not
    called or has returned. *)
Definition main (fl : flags) (senv : server_env) (cenv : client_env)
  : process :=
  let s := if serve fl then Some (serverMain senv) else None in
  match s with
  | Some r =>
      match server_end r with
      | Returned | Fell => Process s (Some (clientMain Background fl cenv))
      | Exited _ | Panicked | Blocked => Process s None
      end
  | None => Process None (Some (clientMain Background fl cenv))
  end.

End Main.

(* ================================================================= *)
(** ** The revision with the download limit ([-b]) and the byte cap *)

Module Limit.

(** A Go [error] built by [errors.New] or handed over from [fmt]. *)
Inductive parse_error : Type :=
| FailedToParse.            (* errors.New("faild to parse download limit") *)

(**
[[
  func limiterFromString(l string) ( *rate.Limiter, error) {
      if l == "" { return nil, nil }
      var limit float64
      limit, err := strconv.ParseFloat(l, 64)
      if err == nil {
          return rate.NewLimiter(rate.Limit(1.25*limit/8), readChunkSize), nil
      }
      _, err = fmt.Sscanf(l, "%fK", &limit)
      if err == nil {
          return rate.NewLimiter(rate.Limit(1.25*1e3*limit/8), readChunkSize), nil
      }
      ... "%fM" with 1e6, "%fG" with 1e9, "%fT" with 1e12 ...
      return nil, errors.New("faild to parse download limit")
  }
]]
*)
Definition limiterFromString (l : string)
  : option rate.Limiter * option parse_error :=
  if String.eqb l "" then (None, None)
  else
    let '(limit, err) := strconv.ParseFloat l in
    match err with
    | None =>
        (Some (rate.NewLimiter
                 (f64 (Const 125 (-2)) * limit / f64 (Const 8 0))%f64
                 readChunkSize), None)
    | Some _ =>
    let '(limit, err) := fmt.Sscanf l "K" limit in
    match err with
    | None =>
        (Some (rate.NewLimiter
                 (f64 (cmul (Const 125 (-2)) (Const 1 3)) * limit
                  / f64 (Const 8 0))%f64
                 readChunkSize), None)
    | Some _ =>
    let '(limit, err) := fmt.Sscanf l "M" limit in
    match err with
    | None =>
        (Some (rate.NewLimiter
                 (f64 (cmul (Const 125 (-2)) (Const 1 6)) * limit
                  / f64 (Const 8 0))%f64
                 readChunkSize), None)
    | Some _ =>
    let '(limit, err) := fmt.Sscanf l "G" limit in
    match err with
    | None =>
        (Some (rate.NewLimiter
                 (f64 (cmul (Const 125 (-2)) (Const 1 9)) * limit
                  / f64 (Const 8 0))%f64
                 readChunkSize), None)
    | Some _ =>
    let '(limit, err) := fmt.Sscanf l "T" limit in
    match err with
    | None =>
        (Some (rate.NewLimiter
                 (f64 (cmul (Const 125 (-2)) (Const 1 12)) * limit
                  / f64 (Const 8 0))%f64
                 readChunkSize), None)
    | Some _ => (None, Some FailedToParse)
    end end end end end.

(** The sender's loop:
[[
  for nBytes <= totalData {
      n, err := s.Write(data[:])
      if err != nil {
          glog.Errorf("Error writing to client: %s: %v", ...)
          return
      }
      nBytes += uint64(n)
  }
]]
*)
Definition write_cond (nBytes : Z) : bool := nBytes <=? totalData.

Definition write_body (nBytes : Z) (r : io_result)
  : Z * list event * control :=
  match io_err r with
  | Some err =>
      (nBytes, [Write r; Glog ERROR (ErrorWriting err)], Stop Returned)
  | None => (uint64 (nBytes + uint64 (io_n r)), [Write r], Next)
  end.

Definition write_loop : list io_result -> Z -> Z * list event * ending :=
  for_loop write_cond write_body.

Definition session : conn_env -> list event * ending := session write_loop.
Definition serverMain : server_env -> server_run := serverMain write_loop.

(** The receiver's loop.  [s] is nil when [AcceptUniStream] failed
    (the program logs that error and goes on).
[[
  for {
      err = limiter.WaitN(ctx, len(discard))
      if err != nil { glog.Exitf("Fatal error waiting for tokens ...") }
      i, err := s.Read(discard[:])
      n += uint64(i)
      if err != nil {
          if err == io.EOF { break }
          glog.Exitf("Fatal error reading from stream: %v", err)
      }
  }
]]
*)
Definition read_body (limiter : rate.Limiter) (s_nil : bool) (n : Z)
  (it : iteration) : Z * list event * control :=
  let w := WaitN limiter readChunkSize (wait it) in
  match wait it with
  | Some err => (n, [w; Glog FATAL (FatalWaitN err)], Stop (Exited 1))
  | None =>
      if s_nil then (n, [w], Stop Panicked)
      else
        let r := read it in
        let n := uint64 (n + uint64 (io_n r)) in
        match io_err r with
        | Some err =>
            if is_EOF err then (n, [w; Read r], Break)
            else (n, [w; Read r; Glog FATAL (FatalReading err)],
                  Stop (Exited 1))
        | None => (n, [w; Read r], Next)
        end
  end.

Definition clientMain (ctx : context) (fl : flags) (env : client_env)
  : client_run :=
  match split_host_port env with
  | Some e => ([Glog FATAL (FatalServerAddress e)], Exited 1)
  | None =>
  let ev0 := if String.eqb (qlogDir fl) "" then []
             else [Glog INFO QlogEnabled] in
  match dial env with
  | Some e => (ev0 ++ [Glog FATAL (FatalConnection e)], Exited 1)%list
  | None =>
  let '(s_nil, ev1) :=
    match accept_uni_stream env with
    | Some e => (true, [Glog ERROR (FatalAcceptStream e)])
    | None => (false, [])
    end in
  let limiter := rate.NewLimiter rate.Inf 0 in
  let '(userLimiter, err) := limiterFromString (dLimit fl) in
  match err with
  | Some _ => (ev0 ++ ev1 ++ [Glog FATAL FatalOption_b], Exited 1)%list
  | None =>
  let '(limiter, ev2) :=
    match userLimiter with
    | Some u =>
        (u, [Glog INFO (LimiterIs (rate.limit u) (rate.burst u))])
    | None => (limiter, [])
    end in
  let ev3 := [Glog INFO (LimiterIs (rate.limit limiter) (rate.burst limiter))] in
  let '(n, ev, e) :=
    for_loop (fun _ => true) (read_body limiter s_nil) (iterations env) 0 in
  match e with
  | Fell =>
      (ev0 ++ ev1 ++ ev2 ++ ev3 ++ ev ++ [report n (since_start env)],
       Returned)%list
  | _ => (ev0 ++ ev1 ++ ev2 ++ ev3 ++ ev, e)%list
  end
  end end end.

Definition main : flags -> server_env -> client_env -> process :=
  main serverMain clientMain.

End Limit.

(* ================================================================= *)
(** ** The revision with the test duration ([-seconds]) *)

Module Seconds.

(** The sender's loop:
[[
  for {
      n, err := s.Write(data[:])
      if err != nil {
          if e, ok := err.( *quic.ApplicationError); ok {
              if e.ErrorCode == quic.ApplicationErrorCode(0) {
                  return
              }
          }
          glog.Errorf("Error writing to client: %s: %v", ...)
          return
      }
      nBytes += uint64(n)
  }
]]
*)
Definition write_body (nBytes : Z) (r : io_result)
  : Z * list event * control :=
  match io_err r with
  | Some err =>
      match as_ApplicationError err with
      | Some code =>
          if code =? 0 then (nBytes, [Write r], Stop Returned)
          else (nBytes, [Write r; Glog ERROR (ErrorWriting err)],
                Stop Returned)
      | None =>
          (nBytes, [Write r; Glog ERROR (ErrorWriting err)], Stop Returned)
      end
  | None => (uint64 (nBytes + uint64 (io_n r)), [Write r], Next)
  end.

Definition write_loop : list io_result -> Z -> Z * list event * ending :=
  for_loop (fun _ => true) write_body.

Definition session : conn_env -> list event * ending := session write_loop.
Definition serverMain : server_env -> server_run := serverMain write_loop.

(** The receiver's loop:
[[
  for {
      if doneCh != nil {
          select {
          case <-doneCh:
              return
          default:
          }
      }
      i, err := s.Read(discard[:])
      n += uint64(i)
      if err != nil {
          if err == io.EOF { break }
          if e, ok := err.(net.Error); ok {
              if e.Timeout() { break }
          }
          glog.Errorf("Error reading from stream: %v", err)
          break
      }
  }
]]
*)
Definition read_body (doneCh_not_nil : bool) (n : Z) (it : iteration)
  : Z * list event * control :=
  if doneCh_not_nil && done_closed it then (n, [], Stop Returned)
  else
    let r := read it in
    let n := uint64 (n + uint64 (io_n r)) in
    match io_err r with
    | Some err =>
        if is_EOF err then (n, [Read r], Break)
        else
          match as_net_Error err with
          | Some true => (n, [Read r], Break)
          | _ => (n, [Read r; Glog ERROR (ErrorReading err)], Break)
          end
    | None => (n, [Read r], Next)
    end.

Definition read_loop (ctx : context)
  : list iteration -> Z -> Z * list event * ending :=
  for_loop (fun _ => true) (read_body (Done_not_nil ctx)).

(** [clientMain]; the two deferred calls run when it returns:
    [s.CancelRead(0)], then [conn.CloseWithError(0, "done")]. *)
Definition clientMain (ctx : context) (fl : flags) (env : client_env)
  : client_run :=
  match split_host_port env with
  | Some e => ([Glog FATAL (FatalServerAddress e)], Exited 1)
  | None =>
  let ev0 := if String.eqb (qlogDir fl) "" then []
             else [Glog INFO QlogEnabled] in
  match dial env with
  | Some e => (ev0 ++ [Glog FATAL (FatalConnection e)], Exited 1)%list
  | None =>
  match accept_uni_stream env with
  | Some e => (ev0 ++ [Glog FATAL (FatalAcceptStream e)], Exited 1)%list
  | None =>
  let ev1 := [SetReadDeadline (durationInSecs fl)] in
  match set_read_deadline env with
  | Some e => (ev0 ++ ev1 ++ [Glog FATAL (FatalDeadline e)], Exited 1)%list
  | None =>
  let '(n, ev, e) := read_loop ctx (iterations env) 0 in
  let deferred := [CancelRead 0; CloseWithError 0 "done"] in
  match e with
  | Fell =>
      (ev0 ++ ev1 ++ ev ++ [report n (since_start env)] ++ deferred,
       Returned)%list
  | Returned | Panicked => (ev0 ++ ev1 ++ ev ++ deferred, e)%list
  | Exited _ | Blocked => (ev0 ++ ev1 ++ ev, e)%list
  end
  end end end end.

Definition main : flags -> server_env -> client_env -> process :=
  main serverMain clientMain.

End Seconds.

(* ================================================================= *)
(** ** The first revision: byte cap on the sender, [io.Copy] on the
       receiver, no statistics *)

Module Initial.

Definition write_loop : list io_result -> Z -> Z * list event * ending :=
  Limit.write_loop.

Definition session : conn_env -> list event * ending := session write_loop.
Definition serverMain : server_env -> server_run := serverMain write_loop.

(** [io.Copy(io.Discard, s)]: read until an error; [io.EOF] is not
    reported as an error.  The state is the error to return. *)
Definition copy_body (st : option error) (it : iteration)
  : option error * list event * control :=
  let r := read it in
  match io_err r with
  | Some err =>
      if is_EOF err then (None, [Read r], Break)
      else (Some err, [Read r], Break)
  | None => (st, [Read r], Next)
  end.

Definition io_Copy (its : list iteration)
  : option error * list event * ending :=
  for_loop (fun _ => true) copy_body its None.

Definition clientMain (ctx : context) (fl : flags) (env : client_env)
  : client_run :=
  match split_host_port env with
  | Some e => ([Glog FATAL (FatalServerAddress e)], Exited 1)
  | None =>
  match dial env with
  | Some e => ([Glog FATAL (FatalConnection e)], Exited 1)
  | None =>
  match accept_uni_stream env with
  | Some e => ([Glog ERROR (FatalAcceptStream e)], Panicked)
  | None =>
      let '(err, ev, e) := io_Copy (iterations env) in
      match e with
      | Fell =>
          match err with
          | Some x => (ev ++ [Glog FATAL (FatalReading x)], Exited 1)%list
          | None => (ev, Returned)
          end
      | _ => (ev, e)
      end
  end end end.

Definition main : flags -> server_env -> client_env -> process :=
  main serverMain clientMain.

End Initial.

(* ================================================================= *)
(** ** The revision with [io.Copy] and statistics

    [qperf.go] between the first revision and the one with [-b]: the
    sender with the byte cap, a receiver that copies the stream to
    [io.Discard] and prints the statistics of the bytes copied. *)

(** int64 arithmetic wraps around. *)
Definition int64 (n : Z) : Z := (n + 2 ^ 63) mod 2 ^ 64 - 2 ^ 63.

Module Copy.

Definition write_loop : list io_result -> Z -> Z * list event * ending :=
  Limit.write_loop.

Definition session : conn_env -> list event * ending := session write_loop.
Definition serverMain : server_env -> server_run := serverMain write_loop.

(** [io.Copy(io.Discard, s)] is [io.Discard]'s [ReadFrom]:
[[
  for {
      readSize, err = r.Read( *bufp)
      n += int64(readSize)
      if err != nil {
          if err == EOF { return n, nil }
          return
      }
  }
]]
    The state is the pair of results [n], [err]. *)
Definition copy_body (st : Z * option error) (it : iteration)
  : (Z * option error) * list event * control :=
  let r := read it in
  let n := int64 (fst st + io_n r) in
  match io_err r with
  | Some err =>
      if is_EOF err then ((n, None), [Read r], Break)
      else ((n, Some err), [Read r], Break)
  | None => ((n, None), [Read r], Next)
  end.

Definition io_Copy (its : list iteration)
  : (Z * option error) * list event * ending :=
  for_loop (fun _ => true) copy_body its (0, None).

(** [clientMain]: a failed [AcceptUniStream] is logged with [Errorf]
    and the stream is nil; [io.Copy] then calls [Read] on it.
[[
  start := time.Now()
  n, err := io.Copy(io.Discard, s)
  if err != nil { glog.Exitf("Fatal error reading from stream: %v", err) }
  dur := time.Since(start)
  ...
  fmt.Printf("Received: %d bytes in %.3f seconds (%.3f Kbits/s)\n", ...)
]]
*)
Definition clientMain (ctx : context) (fl : flags) (env : client_env)
  : client_run :=
  match split_host_port env with
  | Some e => ([Glog FATAL (FatalServerAddress e)], Exited 1)
  | None =>
  let ev0 := if String.eqb (qlogDir fl) "" then []
             else [Glog INFO QlogEnabled] in
  match dial env with
  | Some e => (ev0 ++ [Glog FATAL (FatalConnection e)], Exited 1)%list
  | None =>
  match accept_uni_stream env with
  | Some e => (ev0 ++ [Glog ERROR (FatalAcceptStream e)], Panicked)%list
  | None =>
      let '(st, ev, e) := io_Copy (iterations env) in
      match e with
      | Fell =>
          match snd st with
          | Some x => (ev0 ++ ev ++ [Glog FATAL (FatalReading x)], Exited 1)%list
          | None =>
              (ev0 ++ ev ++ [report (fst st) (since_start env)], Returned)%list
          end
      | _ => (ev0 ++ ev, e)%list
      end
  end end end.

Definition main : flags -> server_env -> client_env -> process :=
  main serverMain clientMain.

End Copy.

(* ================================================================= *)
(** ** The read deadline

    [time.Now().Add(time.Duration( *durationInSecs) * time.Second)]: a
    [time.Duration] is an int64 count of nanoseconds, and the product
    wraps around. *)

Definition time_Second : Z := 1000000000.

Definition read_timeout (durationInSecs : Z) : Z :=
  int64 (durationInSecs * time_Second).

(* ================================================================= *)
(** ** net: [SplitHostPort]

    Go's standard library, not part of the repository.  [clientMain]
    splits the value of [-c] with it, puts the host in the TLS
    [ServerName] and stops when it returns an error. *)

Module net.

Record AddrError : Type := mkAddrError { Err : string; Addr : string }.

Definition missingPort : string := "missing port in address".
Definition tooManyColons : string := "too many colons in address".

(** [bytealg.IndexByteString] and [bytealg.LastIndexByteString];
    [None] stands for -1. *)
Definition IndexByteString (s : string) (c : ascii) : option nat :=
  fmt.indexByte c s.

Fixpoint LastIndexByteString (s : string) (c : ascii) : option nat :=
  match s with
  | EmptyString => None
  | String d r =>
      match LastIndexByteString r c with
      | Some i => Some (S i)
      | None => if Ascii.eqb c d then Some O else None
      end
  end.

(** [s[i] == c] *)
Definition byte_is (s : string) (i : nat) (c : ascii) : bool :=
  match String.get i s with
  | Some d => Ascii.eqb d c
  | None => false
  end.

(**
[[
  func SplitHostPort(hostport string) (host, port string, err error) {
      j, k := 0, 0
      i := bytealg.LastIndexByteString(hostport, ':')
      if i < 0 { return addrErr(hostport, missingPort) }
      if hostport[0] == '[' {
          end := bytealg.IndexByteString(hostport, ']')
          if end < 0 { return addrErr(hostport, "missing ']' in address") }
          switch end + 1 {
          case len(hostport): return addrErr(hostport, missingPort)
          case i:
          default:
              if hostport[end+1] == ':' { return addrErr(hostport, tooManyColons) }
              return addrErr(hostport, missingPort)
          }
          host = hostport[1:end]
          j, k = 1, end+1
      } else {
          host = hostport[:i]
          if bytealg.IndexByteString(host, ':') >= 0 {
              return addrErr(hostport, tooManyColons)
          }
      }
      if bytealg.IndexByteString(hostport[j:], '[') >= 0 {
          return addrErr(hostport, "unexpected '[' in address")
      }
      if bytealg.IndexByteString(hostport[k:], ']') >= 0 {
          return addrErr(hostport, "unexpected ']' in address")
      }
      port = hostport[i+1:]
      return host, port, nil
  }
]]
*)
Definition SplitHostPort (hostport : string)
  : string * string * option AddrError :=
  let addrErr := fun (addr why : string) =>
    ("", "", Some (mkAddrError why addr)) in
  match LastIndexByteString hostport ":" with
  | None => addrErr hostport missingPort
  | Some i =>
      let rest := fun (host : string) (j k : nat) =>
        match IndexByteString (drop j hostport) "[" with
        | Some _ => addrErr hostport "unexpected '[' in address"
        | None =>
            match IndexByteString (drop k hostport) "]" with
            | Some _ => addrErr hostport "unexpected ']' in address"
            | None => (host, drop (S i) hostport, None)
            end
        end in
      if byte_is hostport 0 "[" then
        match IndexByteString hostport "]" with
        | None => addrErr hostport "missing ']' in address"
        | Some end_ =>
            if Nat.eqb (S end_) (String.length hostport)
            then addrErr hostport missingPort
            else if Nat.eqb (S end_) i
            then rest (take (end_ - 1) (drop 1 hostport)) 1%nat (S end_)
            else if byte_is hostport (S end_) ":"
            then addrErr hostport tooManyColons
            else addrErr hostport missingPort
        end
      else
        let host := take i hostport in
        match IndexByteString host ":" with
        | Some _ => addrErr hostport tooManyColons
        | None => rest host O O
        end
  end.

(** [JoinHostPort], the inverse the library documents: brackets
    around a host that holds a colon. *)
Definition JoinHostPort (host port : string) : string :=
  match IndexByteString host ":" with
  | Some _ => "[" ++ host ++ "]:" ++ port
  | None => host ++ ":" ++ port
  end.

End net.

(* ================================================================= *)
(** ** The qlog files

    The function [clientMain] hands to [qlog.NewTracer] names a file
    after the connection ID and opens it:
[[
  baseName := fmt.Sprintf("client_%x.qlog", connID)
  fname := filepath.Join( *qlogDir, baseName)
  f, err := os.Create(fname)
  if err != nil { glog.Fatalf("Qlog: Failed to create file: %s: %v", fname, err) }
  glog.Infof("Created new qlog file: %s", fname)
  return newBufferedWriteCloser(bufio.NewWriter(f), f)
]]
*)

(** The verb [%x] of [fmt] on a byte slice: two lower-case
    hexadecimal digits per byte. *)
Definition ldigits : string := "0123456789abcdefx".

Definition ldigit (i : N) : ascii :=
  match String.get (N.to_nat i) ldigits with
  | Some c => c
  | None => "0"%char
  end.

Fixpoint fmt_x (b : list byte) : string :=
  match b with
  | [] => EmptyString
  | c :: r =>
      String (ldigit (N.shiftr (Byte.to_N c) 4))
        (String (ldigit (N.land (Byte.to_N c) 15)) (fmt_x r))
  end.

(** path/filepath on Unix, where the separator is the slash and a
    path has no volume name. *)
Module filepath.

Definition isSep (c : ascii) : bool := Ascii.eqb c "/".

(** [path[r] == '.' && (r+1 == n || os.IsPathSeparator(path[r+1]))] *)
Definition at_dot (rest : string) : bool :=
  match rest with
  | String c r =>
      Ascii.eqb c "."
      && match r with
         | EmptyString => true
         | String d _ => isSep d
         end
  | EmptyString => false
  end.

(** [path[r] == '.' && path[r+1] == '.' && (r+2 == n ||
    os.IsPathSeparator(path[r+2]))] *)
Definition at_dotdot (rest : string) : bool :=
  match rest with
  | String c (String d r) =>
      Ascii.eqb c "." && Ascii.eqb d "."
      && match r with
         | EmptyString => true
         | String e _ => isSep e
         end
  | _ => false
  end.

(** [out.index(i)] *)
Definition index (out : string) (i : nat) : ascii :=
  match String.get i out with
  | Some c => c
  | None => "000"%char
  end.

(** [for out.w > dotdot && !os.IsPathSeparator(out.index(out.w)) { out.w-- }] *)
Fixpoint backtrack (fuel : nat) (out : string) (w dotdot : nat) : nat :=
  match fuel with
  | O => w
  | S k =>
      if Nat.ltb dotdot w && negb (isSep (index out w))
      then backtrack k out (w - 1) dotdot
      else w
  end.

(** The loop of [Clean] over the unread part [rest] of the path.
    [out] holds the bytes written so far ([out.w] is its length; the
    lazy buffer of the library only saves the copy while the output
    is a prefix of the input), [dotdot] is the index where [..] must
    stop.
[[
  for r < n {
      switch {
      case os.IsPathSeparator(path[r]):
          r++
      case path[r] == '.' && (r+1 == n || os.IsPathSeparator(path[r+1])):
          r++
      case path[r] == '.' && path[r+1] == '.' && (r+2 == n || os.IsPathSeparator(path[r+2])):
          r += 2
          switch {
          case out.w > dotdot:
              out.w--
              for out.w > dotdot && !os.IsPathSeparator(out.index(out.w)) { out.w-- }
          case !rooted:
              if out.w > 0 { out.append(Separator) }
              out.append('.')
              out.append('.')
              dotdot = out.w
          }
      default:
          if rooted && out.w != 1 || !rooted && out.w != 0 { out.append(Separator) }
          for ; r < n && !os.IsPathSeparator(path[r]); r++ { out.append(path[r]) }
      }
  }
]]
*)
Fixpoint clean_loop (fuel : nat) (rooted : bool) (rest out : string)
  (dotdot : nat) : string :=
  match fuel with
  | O => out
  | S k =>
      match rest with
      | EmptyString => out
      | String c r =>
          if isSep c then clean_loop k rooted r out dotdot
          else if at_dot rest then clean_loop k rooted r out dotdot
          else if at_dotdot rest then
            let w := String.length out in
            if Nat.ltb dotdot w then
              let w' := backtrack w out (w - 1) dotdot in
              clean_loop k rooted (drop 2 rest) (take w' out) dotdot
            else if negb rooted then
              let out1 := if Nat.ltb 0 w then out ++ "/" else out in
              let out2 := out1 ++ ".." in
              clean_loop k rooted (drop 2 rest) out2 (String.length out2)
            else clean_loop k rooted (drop 2 rest) out dotdot
          else
            let w := String.length out in
            let out1 :=
              if (rooted && negb (Nat.eqb w 1)) || (negb rooted && negb (Nat.eqb w 0))
              then out ++ "/" else out in
            let '(elem, r') := span (fun c => negb (isSep c)) rest in
            clean_loop k rooted r' (out1 ++ elem) dotdot
      end
  end.

(**
[[
  func Clean(path string) string {
      if path == "" { return "." }
      rooted := os.IsPathSeparator(path[0])
      n := len(path)
      out := lazybuf{path: path}
      r, dotdot := 0, 0
      if rooted { out.append(Separator); r, dotdot = 1, 1 }
      for r < n { ... }
      if out.w == 0 { out.append('.') }
      return out.string()
  }
]]
*)
Definition Clean (path : string) : string :=
  match path with
  | EmptyString => "."
  | String c r =>
      let rooted := isSep c in
      let out :=
        if rooted then clean_loop (String.length path) true r "/" 1
        else clean_loop (String.length path) false path "" 0 in
      if Nat.eqb (String.length out) 0 then "." else out
  end.

(** [strings.Join(elems, sep)] *)
Fixpoint strings_Join (elems : list string) (sep : string) : string :=
  match elems with
  | [] => EmptyString
  | [e] => e
  | e :: rest => e ++ sep ++ strings_Join rest sep
  end.

(**
[[
  func join(elem []string) string {
      for i, e := range elem {
          if e != "" { return Clean(strings.Join(elem[i:], string(Separator))) }
      }
      return ""
  }
]]
*)
Fixpoint Join (elem : list string) : string :=
  match elem with
  | [] => EmptyString
  | e :: rest =>
      if String.eqb e "" then Join rest else Clean (strings_Join elem "/")
  end.

End filepath.

Definition qlog_baseName (connID : list byte) : string :=
  "client_" ++ fmt_x connID ++ ".qlog".

Definition qlog_fname (qlogDir : string) (connID : list byte) : string :=
  filepath.Join [qlogDir; qlog_baseName connID].

(* ================================================================= *)
(** ** bufio.Writer and [bufferedWriteCloser]

    [bufio] is Go's standard library.  The writer keeps [n] bytes in
    [buf] and hands them to the [io.Writer] under it when the buffer
    is full or flushed; its first error sticks.  The objects behind
    the [io.Writer] and the [io.Closer] live in a store [H]; the
    program passes the same file as both. *)

Definition io_ErrShortWrite : error := other_error "short write".

Module bufio.

Definition defaultBufSize : nat := 4096.

Record Writer : Type := mkWriter {
  err : option error;
  buf : list byte;
  n : Z
}.

(** How a call ends: it returns, it panics (a slice index out of
    range), or it is still in its loop when the fuel is used up. *)
Inductive outcome (A : Type) : Type :=
| Returns (a : A)
| Panics
| Spins.

Arguments Returns {A} a.
Arguments Panics {A}.
Arguments Spins {A}.

(** [bufio.NewWriter(w)] for a [w] that is not itself a
    [bufio.Writer]. *)
Definition NewWriter : Writer :=
  mkWriter None (repeat "000"%byte defaultBufSize) 0.

Definition Available (b : Writer) : Z := Z.of_nat (List.length (buf b)) - n b.
Definition Buffered (b : Writer) : Z := n b.

(** [copy(dst[off:], p)]: the new [dst] and the number of bytes
    copied. *)
Definition copy_at (dst : list byte) (off : nat) (p : list byte)
  : list byte * nat :=
  let k := Nat.min (List.length dst - off) (List.length p) in
  ((firstn off dst ++ firstn k p ++ skipn (off + k) dst)%list, k).

Section Writer.

Context {H : Type}.

(** [Write] of the [io.Writer] under the buffer. *)
Variable wr_Write : H -> list byte -> H * io_result.

(**
[[
  func (b *Writer) Flush() error {
      if b.err != nil { return b.err }
      if b.n == 0 { return nil }
      n, err := b.wr.Write(b.buf[0:b.n])
      if n < b.n && err == nil { err = io.ErrShortWrite }
      if err != nil {
          if n > 0 && n < b.n { copy(b.buf[0:b.n-n], b.buf[n:b.n]) }
          b.n -= n
          b.err = err
          return err
      }
      b.n = 0
      return nil
  }
]]
*)
Definition Flush (b : Writer) (h : H) : Writer * H * option error :=
  match err b with
  | Some e => (b, h, Some e)
  | None =>
      if n b =? 0 then (b, h, None)
      else
        let '(h1, r) := wr_Write h (firstn (Z.to_nat (n b)) (buf b)) in
        let m := io_n r in
        let e := match io_err r with
                 | Some e => Some e
                 | None => if m <? n b then Some io_ErrShortWrite else None
                 end in
        match e with
        | Some e =>
            let buf1 :=
              if (0 <? m) && (m <? n b)
              then fst (copy_at (firstn (Z.to_nat (n b - m)) (buf b)) 0
                          (firstn (Z.to_nat (n b - m))
                             (skipn (Z.to_nat m) (buf b))))
                   ++ skipn (Z.to_nat (n b - m)) (buf b)
              else buf b in
            (mkWriter (Some e) buf1 (n b - m), h1, Some e)
        | None => (mkWriter None (buf b) 0, h1, None)
        end
  end%list.

(**
[[
  func (b *Writer) Write(p []byte) (nn int, err error) {
      for len(p) > b.Available() && b.err == nil {
          var n int
          if b.Buffered() == 0 {
              n, b.err = b.wr.Write(p)
          } else {
              n = copy(b.buf[b.n:], p)
              b.n += n
              b.Flush()
          }
          nn += n
          p = p[n:]
      }
      if b.err != nil { return nn, b.err }
      n := copy(b.buf[b.n:], p)
      b.n += n
      nn += n
      return nn, nil
  }
]]
*)
Fixpoint Write_loop (fuel : nat) (b : Writer) (h : H) (p : list byte) (nn : Z)
  : Writer * H * outcome io_result :=
  if (Available b <? Z.of_nat (List.length p))
     && match err b with None => true | Some _ => false end
  then
    match fuel with
    | O => (b, h, Spins)
    | S k =>
        if Buffered b =? 0 then
          let '(h1, r) := wr_Write h p in
          let b1 := mkWriter (io_err r) (buf b) (n b) in
          if (io_n r <? 0) || (Z.of_nat (List.length p) <? io_n r)
          then (b1, h1, Panics)
          else Write_loop k b1 h1 (skipn (Z.to_nat (io_n r)) p) (nn + io_n r)
        else
          let '(buf1, c) := copy_at (buf b) (Z.to_nat (n b)) p in
          let b1 := mkWriter (err b) buf1 (n b + Z.of_nat c) in
          let '(b2, h2, _) := Flush b1 h in
          Write_loop k b2 h2 (skipn c p) (nn + Z.of_nat c)
    end
  else
    match err b with
    | Some e => (b, h, Returns (IO nn (Some e)))
    | None =>
        let '(buf1, c) := copy_at (buf b) (Z.to_nat (n b)) p in
        (mkWriter None buf1 (n b + Z.of_nat c), h,
         Returns (IO (nn + Z.of_nat c) None))
    end.

(** A pass through the loop takes a byte of [p], or empties a full
    buffer, or is a write of the [io.Writer] that took nothing and
    reported no error; the last can go on for ever. *)
Definition Write (b : Writer) (h : H) (p : list byte)
  : Writer * H * outcome io_result :=
  Write_loop (S (S (List.length p))) b h p 0.

End Writer.

End bufio.

Section BufferedWriteCloser.

Context {H : Type}.
Variable wr_Write : H -> list byte -> H * io_result.

(** [Close] of the [io.Closer]. *)
Variable cl_Close : H -> H * option error.

(**
[[
  type bufferedWriteCloser struct {
      *bufio.Writer
      io.Closer
  }

  func (h bufferedWriteCloser) Close() error {
      if err := h.Writer.Flush(); err != nil {
          return err
      }
      return h.Closer.Close()
  }
]]
*)
Definition bufferedWriteCloser_Close (w : bufio.Writer) (h : H)
  : bufio.Writer * H * option error :=
  let '(w1, h1, err) := bufio.Flush wr_Write w h in
  match err with
  | Some e => (w1, h1, Some e)
  | None => let '(h2, e) := cl_Close h1 in (w1, h2, e)
  end.

End BufferedWriteCloser.

(* ================================================================= *)
(** ** The TLS settings

    [const alpnNextProto = "quic-perf-test"], and the [tls.Config]
    literals of [serverMain] and [clientMain]; a field a literal
    leaves out has its zero value.
[[
  c := &tls.Config{
      Certificates:       []tls.Certificate{cert},
      NextProtos:         []string{alpnNextProto},
      InsecureSkipVerify: *insecure,
  }

  host, _, err := net.SplitHostPort( *client)
  ...
  tlsConfig := &tls.Config{
      NextProtos: []string{alpnNextProto},
      ServerName: host,
  }
]]
*)

Definition alpnNextProto : string := "quic-perf-test".

Section TLS.

(** [tls.Certificate] *)
Variable Certificate : Type.

Record tls_Config : Type := mkConfig {
  Certificates : list Certificate;
  NextProtos : list string;
  ServerName : string;
  InsecureSkipVerify : bool
}.

Definition server_tls_config (cert : Certificate) (insecure : bool)
  : tls_Config :=
  {| Certificates := [cert];
     NextProtos := [alpnNextProto];
     ServerName := "";
     InsecureSkipVerify := insecure |}.

(** The configuration [clientMain] dials with, from the value of
    [-c]; none when [SplitHostPort] fails. *)
Definition client_tls_config (client : string) : option tls_Config :=
  match net.SplitHostPort client with
  | (host, _, None) =>
      Some {| Certificates := [];
              NextProtos := [alpnNextProto];
              ServerName := host;
              InsecureSkipVerify := false |}
  | (_, _, Some _) => None
  end.

End TLS.

(* ================================================================= *)
(** * The vocabulary of the properties *)

(** The server got as far as listening. *)
Definition setup_ok (env : server_env) : Prop :=
  random_open env = None /\ random_read env = None
  /\ key_pair env = None /\ listen env = None.

(** The throughput as the specification words it: (bytes / 1000) x 8 /
    seconds, in float64 arithmetic. *)
Definition spec_throughput (bytes seconds : float64) : float64 :=
  (bytes / Float64.of_Z 1000 * Float64.of_Z 8 / seconds)%f64.

Definition accepted (l : list (error + conn_env)) : list conn_env :=
  flat_map (fun a => match a with inl _ => [] | inr c => [c] end) l.

(** [n += uint64(i)] over the results [rs], from [n]. *)
Definition add_bytes (n : Z) (rs : list io_result) : Z :=
  fold_left (fun acc r => uint64 (acc + uint64 (io_n r))) rs n.

Definition sum_n (rs : list io_result) : Z :=
  fold_right (fun r acc => io_n r + acc) 0 rs.

Definition no_error (r : io_result) : Prop := io_err r = None.

(** Case analysis on a membership [H : In x l] in a list built from
    [++] and [::]; the cases closed by [discriminate] or by a
    hypothesis go away. *)
Ltac split_in H :=
  repeat match type of H with
  | In _ (_ ++ _) => apply in_app_or in H; destruct H as [H|H]
  | _ \/ _ => destruct H as [H|H]
  | False => contradiction
  | _ = _ => discriminate H
  | In _ _ => progress simpl in H
  end; try contradiction.


Definition not_stdout (e : event) : Prop :=
  match e with Stdout _ => False | _ => True end.






Definition one_second_run : client_env :=
  ClientEnv None None None None
    (repeat (Iter false None (IO 8192 None)) 15
       ++ [Iter false None (IO 2120 (Some io_EOF))])
    1000000000.

Definition full_or_short (w : io_result) : Prop :=
  io_err w = None /\ 0 <= io_n w <= data_len.

Definition full_writes : list io_result :=
  repeat (IO 65536 None) (Z.to_nat 163841).











(** The bytes the scanners of a number take: none of K, M, G, T. *)
Definition scan_byte (c : ascii) : bool :=
  mem c "+-.0123456789_aAbBcCdDeEfFiInNpPxX".

(** An input that starts with a byte no scanner takes. *)
Definition stopper (t : string) : Prop :=
  match t with
  | String c _ => scan_byte c = false
  | EmptyString => False
  end.

(** Facts about single bytes are settled by going through the 256
    bytes. *)
Ltac by_bytes :=
  let c := fresh "c" in
  intros c; destruct c as [[|] [|] [|] [|] [|] [|] [|] [|]];
  vm_compute; intuition congruence.

Definition sign_piece (sgn : string) : Prop :=
  sgn = "" \/ sgn = "+" \/ sgn = "-".

Definition prefix_piece (hex : bool) (pre : string) : Prop :=
  if hex
  then exists x, mem x "xX" = true /\ pre = String "0" (String x "")
  else pre = "".

Definition frac_piece (hex : bool) (dfp : string) : Prop :=
  dfp = ""
  \/ exists fp, dfp = String "." fp
                /\ forallb_str (strconv.is_mant hex) fp = true.

Definition exp_piece (hex : bool) (ex : string) : Prop :=
  (ex = "" /\ hex = false)
  \/ exists e es d ed,
       ex = String e (es ++ String d ed)
       /\ mem e (if hex then "pP" else "eE") = true
       /\ sign_piece es
       /\ is_dec d = true
       /\ forallb_str strconv.is_expd ed = true.

(** [num] is a sign, a base prefix, digits, a fraction and an
    exponent, with a digit or a point after the prefix. *)
Definition shaped (hex : bool) (num : string) : Prop :=
  exists sgn pre ip dfp ex,
    num = sgn ++ pre ++ ip ++ dfp ++ ex
    /\ sign_piece sgn
    /\ prefix_piece hex pre
    /\ forallb_str (strconv.is_mant hex) ip = true
    /\ frac_piece hex dfp
    /\ exp_piece hex ex
    /\ ip ++ dfp <> "".

(** What may follow the digits of a shaped number: the exponent or
    the stopper.  Neither is a digit, a point or an [x]. *)
Definition halts (hex : bool) (next : string) : Prop :=
  stops (strconv.is_mant hex) next = true
  /\ stops (fun c => mem c "xX") next = true
  /\ stops (fun c => mem c "0") next = true.

Definition pointless (next : string) : Prop :=
  stops (fun c => mem c fmt.period) next = true.

Ltac tok := unfold fmt.andthen; unfold fmt.bind, fmt.ret, fmt.acceptMany.

(** The first byte of the number after its sign: a digit, an
    underscore or a point. *)
Definition lead_byte (c : ascii) : bool := mem c "0123456789_.".

Definition led (s : string) : Prop :=
  match s with
  | String c _ => lead_byte c = true
  | EmptyString => False
  end.

(** A number in base ten holds no [p]; a hexadecimal one holds an
    [x]. *)
Definition dec_byte (c : ascii) : bool := mem c "+-.0123456789_eE".

(** [s] starts, after its sign, with the eight letters of infinity in
    any case. *)
Definition spelled_infinity (s : string) : bool :=
  Nat.eqb (strconv.commonPrefixLenIgnoreCase (snd (opt_sign s)) "infinity") 8.

Definition nan_word (num : string) : Prop :=
  exists c1 c2 c3,
    num = String c1 (String c2 (String c3 ""))
    /\ mem c1 "nN" = true /\ mem c2 "aA" = true /\ mem c3 "nN" = true.

Definition inf_word (num : string) : Prop :=
  exists sgn c1 c2 c3,
    num = sgn ++ String c1 (String c2 (String c3 ""))
    /\ sign_piece sgn
    /\ mem c1 "iI" = true /\ mem c2 "nN" = true /\ mem c3 "fF" = true.

Inductive suffix : Type := K | M | G | T.

Definition letter (s : suffix) : string :=
  match s with K => "K" | M => "M" | G => "G" | T => "T" end.

(** multiplier(K) = 1e3, M = 1e6, G = 1e9, T = 1e12 *)
Definition power (s : suffix) : untyped :=
  match s with
  | K => Const 1 3 | M => Const 1 6 | G => Const 1 9 | T => Const 1 12
  end.

Definition multiplier (s : suffix) : float64 := f64 (power s).

(** The rate as the specification words it, in float64 arithmetic:
    1.25 x v / 8 for a plain number and 1.25 x multiplier x v / 8 for
    a suffixed one. *)
Definition spec_rate (s : option suffix) (v : float64) : float64 :=
  match s with
  | None => (f64 (Const 125 (-2)) * v / f64 (Const 8 0))%f64
  | Some s =>
      (f64 (Const 125 (-2)) * multiplier s * v / f64 (Const 8 0))%f64
  end.

(** The forms in the order of the specification, each giving the rate
    when it matches, and the first that matches. *)
Definition plain_form (l : string) : option float64 :=
  match strconv.ParseFloat l with
  | (v, None) => Some (spec_rate None v)
  | _ => None
  end.

Definition suffixed_form (s : suffix) (l : string) : option float64 :=
  match fmt.Sscanf l (letter s) (Float64.zero false) with
  | (v, None) => Some (spec_rate (Some s) v)
  | _ => None
  end.

Definition forms : list (string -> option float64) :=
  [plain_form; suffixed_form K; suffixed_form M; suffixed_form G;
   suffixed_form T].

Fixpoint first_success (fs : list (string -> option float64)) (l : string)
  : option float64 :=
  match fs with
  | [] => None
  | f :: rest =>
      match f l with
      | Some r => Some r
      | None => first_success rest l
      end
  end.

Definition spec_parse (l : string)
  : option rate.Limiter * option Limit.parse_error :=
  if String.eqb l "" then (None, None)
  else
    match first_success forms l with
    | Some r => (Some (rate.NewLimiter r 8192), None)
    | None => (None, Some Limit.FailedToParse)
    end.

Definition two_and_a_half : float64 := S754_finite false 5629499534213120 (-51).

Definition one : float64 := S754_finite false 4503599627370496 (-52).

(* ================================================================= *)
(** ** The vocabulary of the further properties *)

(** What the accept loop logs for one answer of [l.Accept]. *)
Definition accept_record (a : error + conn_env) : event :=
  match a with
  | inl e => Glog ERROR (ErrorAccepting e)
  | inr _ => Glog INFO Accepted
  end.

(** The setup step that failed first, as the fatal record names it:
    the steps before it succeeded.  The steps are, in the order of
    [serverMain]: opening the source of random data, reading it,
    loading the key pair, listening. *)
Definition failed_step (env : server_env) (m : message) : Prop :=
  (exists e, random_open env = Some e /\ m = FatalRandomOpen e)
  \/ (random_open env = None
      /\ exists e, random_read env = Some e /\ m = FatalRandomRead e)
  \/ (random_open env = None /\ random_read env = None
      /\ exists e, key_pair env = Some e /\ m = FatalKeyPair e)
  \/ (random_open env = None /\ random_read env = None
      /\ key_pair env = None
      /\ exists e, listen env = Some e /\ m = FatalListen e).

(** The events of a goroutine between opening the stream and closing
    it: writes, and error records. *)
Definition sending (e : event) : Prop :=
  match e with
  | Write _ | Glog ERROR _ => True
  | _ => False
  end.

(** A goroutine that ran to its end: the stream is closed when it was
    opened, and the byte count is logged last. *)
Definition wound_up (c : conn_env) (run : list event * ending) : Prop :=
  snd run = Returned
  /\ exists body n,
       Forall sending body
       /\ fst run
          = (Glog INFO OpeningStream :: body
             ++ (match open_stream c with None => [Close] | Some _ => [] end)
             ++ [Glog INFO (Wrote n)])%list.

(** A goroutine that is still in its write loop. *)
Definition still_writing (run : list event * ending) : Prop :=
  snd run = Blocked
  /\ exists body,
       Forall sending body /\ fst run = Glog INFO OpeningStream :: body.

(** The lines a run printed on standard output. *)
Definition stdout_lines (ev : list event) : list string :=
  flat_map (fun e => match e with Stdout l => [l] | _ => [] end) ev.




(** The first check of [Limiter.WaitN] in [x/time/rate]:
[[
  if n > burst && limit != Inf {
      return fmt.Errorf("rate: Wait(n=%d) exceeds limiter's burst %d", n, burst)
  }
]]
*)
Definition exceeds_burst (lim : rate.Limiter) (n : Z) : bool :=
  (rate.burst lim <? n)
  && negb (SFeqb (rate.limit lim) rate.Inf).

Definition within_burst (e : event) : Prop :=
  match e with
  | WaitN lim n _ => exceeds_burst lim n = false
  | _ => True
  end.

Definition flaky_listener : server_env :=
  ServerEnv None None None None
    [inl (other_error "handshake failed");
     inr (Conn None [IO 65536 None; IO 0 (Some (ApplicationError 0))]);
     inl (net_Error true);
     inr (Conn (Some (other_error "no stream")) [])].

(** No key pair, and the port is taken as well. *)
Definition no_key : server_env :=
  ServerEnv None None (Some (other_error "open : no such file or directory"))
    (Some (other_error "bind: address already in use")) [inr (Conn None [])].

(** A run of the kind [clientMain] has: at most one line printed, and
    only by a run that returned. *)
Definition reports_once (run : client_run) : Prop :=
  (List.length (stdout_lines (fst run)) <= 1)%nat
  /\ (stdout_lines (fst run) <> [] -> snd run = Returned).








(** An input that starts with a byte that occurs in no number (it is
    not among [+-.0123456789_aAbBcCdDeEfFiInNpPxX]) and is none of the
    letters K, M, G, T. *)
Definition foreign (t : string) : Prop :=
  match t with
  | String c _ => scan_byte c = false /\ mem c "KMGT" = false
  | EmptyString => False
  end.

(** The one-byte space runes other than the newline: tab, vertical
    tab, form feed, carriage return, space. *)
Definition blank (c : ascii) : bool :=
  let b := Z.of_N (N_of_ascii c) in
  (b =? 9) || (b =? 11) || (b =? 12) || (b =? 13) || (b =? 32).

(** A scanner reads the same token whether its input ends or goes on
    with [tail]. *)
Definition stable (tail : string) {A} (m : fmt.tok A) : Prop :=
  forall b x,
    m (fmt.SS b (x ++ tail))
    = let (a, s) := m (fmt.SS b x) in (a, fmt.SS (fmt.buf s) (fmt.rd s ++ tail)).

(** The byte [c] does not occur in [s]. *)
Definition lacks (c : ascii) (s : string) : Prop := fmt.indexByte c s = None.

(** The error of [SplitHostPort] as the program holds it: a
    [*net.AddrError] is a [net.Error] whose [Timeout()] is false. *)
Definition address_error (hostport : string) : option error :=
  match snd (net.SplitHostPort hostport) with
  | Some _ => Some (net_Error false)
  | None => None
  end.

Definition no_port : client_env :=
  ClientEnv (address_error "example.com") None None None [] 0.

(** A file name: not empty, without a separator, and neither [.] nor
    [..]. *)
Definition plain_name (base : string) : Prop :=
  base <> ""
  /\ forallb_str (fun c => negb (filepath.isSep c)) base = true
  /\ base <> "." /\ base <> "..".

(** The separator [Clean] writes before a path element. *)
Definition with_sep (rooted : bool) (out : string) : string :=
  if (rooted && negb (Nat.eqb (String.length out) 1))
     || (negb rooted && negb (Nat.eqb (String.length out) 0))
  then out ++ "/" else out.

(** A directory prefix: empty, or ending in the separator. *)
Definition dir_prefix (p : string) : Prop :=
  p = "" \/ exists q, p = q ++ "/".

(** The value of a hexadecimal digit, and the bytes a string of
    digits spells, two digits per byte. *)
Definition hex_val (c : ascii) : N :=
  match fmt.indexByte c ldigits with
  | Some i => N.of_nat i
  | None => 16
  end.

Fixpoint unhex (s : string) : option (list byte) :=
  match s with
  | EmptyString => Some []
  | String hi (String lo r) =>
      if (hex_val hi <? 16)%N && (hex_val lo <? 16)%N then
        match Byte.of_N (16 * hex_val hi + hex_val lo), unhex r with
        | Some b, Some bs => Some (b :: bs)
        | _, _ => None
        end
      else None
  | String _ EmptyString => None
  end.

(** The bytes a [bufio.Writer] holds back: [b.buf[0:b.n]]. *)
Definition held (b : bufio.Writer) : list byte :=
  firstn (Z.to_nat (bufio.n b)) (bufio.buf b).

(** While a writer has no error, [n] is an index into its buffer. *)
Definition in_bounds (b : bufio.Writer) : Prop :=
  bufio.err b = None ->
  0 <= bufio.n b <= Z.of_nat (List.length (bufio.buf b)).

Section WriteAll.
Context {H : Type}.
Variable wr_Write : H -> list byte -> H * io_result.

(** One [Write] after the other; the results in order. *)
Fixpoint write_all (b : bufio.Writer) (h : H) (ps : list (list byte))
  : bufio.Writer * H * list (bufio.outcome io_result) :=
  match ps with
  | [] => (b, h, [])
  | p :: rest =>
      let '(b1, h1, r) := bufio.Write wr_Write b h p in
      let '(b2, h2, rs) := write_all b1 h1 rest in
      (b2, h2, r :: rs)
  end.

End WriteAll.

(** A file kept in memory that takes every write, and a device that
    is full. *)
Definition mem_Write (f : list byte) (p : list byte) : list byte * io_result :=
  ((f ++ p)%list, IO (Z.of_nat (List.length p)) None).

Definition mem_Close (f : list byte) : list byte * option error := (f, None).

Definition full_Write (f : list byte) (p : list byte) : list byte * io_result :=
  (f, IO 0 (Some (other_error "no space left on device"))).

Definition hello : list byte := [x68; x65; x6c; x6c; x6f].

Definition a_writer : bufio.Writer :=
  bufio.mkWriter None (repeat "000"%byte 8) 5.

(** A writer without an error whose count is an index into its
    buffer. *)
Definition ready (b : bufio.Writer) : Prop :=
  bufio.err b = None
  /\ 0 <= bufio.n b <= Z.of_nat (List.length (bufio.buf b)).

Definition no_space : error := other_error "no space left on device".

(** The word infinity in any mix of cases. *)
Definition infinity_word (w : string) : Prop :=
  exists c1 c2 c3 c4 c5 c6 c7 c8,
    w = String c1 (String c2 (String c3 (String c4
          (String c5 (String c6 (String c7 (String c8 "")))))))
    /\ mem c1 "iI" = true /\ mem c2 "nN" = true /\ mem c3 "fF" = true
    /\ mem c4 "iI" = true /\ mem c5 "nN" = true /\ mem c6 "iI" = true
    /\ mem c7 "tT" = true /\ mem c8 "yY" = true.

(* ================================================================= *)
(** * Properties *)

(** ** The library models on a few inputs *)

Example ParseFloat_examples :
  strconv.ParseFloat "0.1" = (S754_finite false 7205759403792794 (-56), None)
  /\ strconv.ParseFloat "-1.5e3" = (Float64.of_Z (-1500), None)
  /\ strconv.ParseFloat "0x1p-2" = (Float64.of_decimal false 25 (-2), None)
  /\ strconv.ParseFloat "1_000" = (Float64.of_Z 1000, None)
  /\ strconv.ParseFloat "Inf" = (Float64.PInf, None)
  /\ strconv.ParseFloat "1e400" = (Float64.PInf, Some strconv.ErrRange)
  /\ snd (strconv.ParseFloat "1K") = Some strconv.ErrSyntax
  /\ snd (strconv.ParseFloat " 1") = Some strconv.ErrSyntax
  /\ snd (strconv.ParseFloat "1p4") = Some strconv.ErrSyntax.
Proof. repeat split; vm_compute; reflexivity. Qed.

Example Sscanf_examples :
  fmt.Sscanf "1K" "K" Float64.NaN = (Float64.of_Z 1, None)
  /\ fmt.Sscanf "1M" "K" Float64.NaN = (Float64.of_Z 1, Some fmt.ErrNoMatch)
  /\ fmt.Sscanf "1" "K" Float64.NaN = (Float64.of_Z 1, Some fmt.ErrUnexpectedEOF)
  /\ fmt.Sscanf " 1K" "K" Float64.NaN = (Float64.of_Z 1, None)
  /\ fmt.Sscanf "1p4K" "K" Float64.NaN = (Float64.of_Z 16, None)
  /\ fmt.Sscanf "K" "K" Float64.NaN
     = (Float64.NaN, Some (fmt.ErrNum strconv.ErrSyntax))
  /\ fmt.Sscanf "" "K" Float64.NaN = (Float64.NaN, Some fmt.EOF).
Proof. repeat split; vm_compute; reflexivity. Qed.

Example limiterFromString_examples :
  Limit.limiterFromString "1K"
  = (Some (rate.NewLimiter (Float64.of_decimal false 15625 (-2)) 8192), None)
  /\ Limit.limiterFromString "8"
     = (Some (rate.NewLimiter (Float64.of_decimal false 125 (-2)) 8192), None)
  /\ Limit.limiterFromString "1G"
     = (Some (rate.NewLimiter (Float64.of_Z 156250000) 8192), None)
  /\ Limit.limiterFromString "1T"
     = (Some (rate.NewLimiter (Float64.of_Z 156250000000) 8192), None)
  /\ Limit.limiterFromString "1 K" = (None, Some Limit.FailedToParse)
  /\ Limit.limiterFromString "K" = (None, Some Limit.FailedToParse).
Proof. repeat split; vm_compute; reflexivity. Qed.

(** ** Statistics *)

Lemma kbits_per_sec_spec (n dur : Z) :
  kbits_per_sec n dur = spec_throughput (Float64.of_Z n) (durS dur).
Proof. reflexivity. Qed.

Section SignClear.
Import Float64.

Lemma binary_round_aux_sign_clear mx ex lx :
  sign_clear (binary_round_aux prec emax false mx ex lx).
Proof.
  unfold binary_round_aux.
  destruct (shr_fexp prec emax mx ex lx) as [mrs e'].
  destruct (shr_fexp prec emax _ e' loc_Exact) as [mrs' e''].
  destruct (shr_m mrs'); simpl; auto.
  destruct (e'' <=? _); simpl; auto.
Qed.

Lemma of_Z_sign_clear n : 0 <= n -> sign_clear (of_Z n).
Proof.
  intros Hn. unfold of_Z, binary_normalize.
  destruct n as [|p|p]; simpl; auto; try lia.
  unfold binary_round.
  destruct (shl_align p 0 _) as [mz ez].
  apply binary_round_aux_sign_clear.
Qed.

Lemma div_sign_clear x y :
  sign_clear x -> sign_clear y -> sign_clear (div x y).
Proof.
  unfold div, SFdiv.
  destruct x as [sx|sx| |sx mx ex], y as [sy|sy| |sy my ey];
    simpl; intros; subst; simpl; auto.
  destruct (SFdiv_core_binary prec emax (Z.pos mx) ex (Z.pos my) ey)
    as [[mz ez] lz].
  apply binary_round_aux_sign_clear.
Qed.

Lemma mul_sign_clear x y :
  sign_clear x -> sign_clear y -> sign_clear (mul x y).
Proof.
  unfold mul, SFmul.
  destruct x as [sx|sx| |sx mx ex], y as [sy|sy| |sy my ey];
    simpl; intros; subst; simpl; auto.
  apply binary_round_aux_sign_clear.
Qed.

(** Dividing by +0: the quotient is +Inf, or NaN for 0/0 and
    NaN/0. *)
Lemma div_by_zero x :
  sign_clear x -> div x (zero false) = PInf \/ div x (zero false) = NaN.
Proof.
  destruct x as [sx|sx| |sx mx ex]; simpl; intros; subst; auto.
Qed.

End SignClear.

Lemma durS_zero : durS 0 = Float64.zero false.
Proof. reflexivity. Qed.

Lemma numerator_sign_clear n :
  0 <= n ->
  Float64.sign_clear
    (Float64.of_Z n / f64 (Const 1 3) * f64 (Const 8 0))%f64.
Proof.
  intros Hn.
  apply mul_sign_clear; [apply div_sign_clear|].
  - now apply of_Z_sign_clear.
  - vm_compute. reflexivity.
  - vm_compute. reflexivity.
Qed.

(** How [Printf] shows the two values: "+Inf" and "NaN". *)
Lemma fmt_f3_special :
  fmt_f3 Float64.PInf = "+Inf" /\ fmt_f3 Float64.NaN = "NaN".
Proof. split; reflexivity. Qed.

(** C6: the throughput of [n] bytes over an elapsed time of zero is
    computed without a fault: the float64 division by zero yields
    +Inf, or NaN when the numerator is zero as well, and the line
    printed shows it as "+Inf" or "NaN". *)
Theorem zero_duration_rate (n : Z) :
  0 <= n ->
  (kbits_per_sec n 0 = Float64.PInf /\ fmt_f3 (kbits_per_sec n 0) = "+Inf")
  \/ (kbits_per_sec n 0 = Float64.NaN /\ fmt_f3 (kbits_per_sec n 0) = "NaN").
Proof.
  intros Hn. unfold kbits_per_sec. rewrite durS_zero.
  destruct (div_by_zero _ (numerator_sign_clear n Hn)) as [H|H];
    rewrite H; [left|right]; split; reflexivity.
Qed.

Lemma zero_duration_rate_witness :
  0 <= 125000 /\
  ((kbits_per_sec 125000 0 = Float64.PInf
    /\ fmt_f3 (kbits_per_sec 125000 0) = "+Inf")
   \/ (kbits_per_sec 125000 0 = Float64.NaN
       /\ fmt_f3 (kbits_per_sec 125000 0) = "NaN")).
Proof. split; [lia | apply (zero_duration_rate 125000); lia]. Defined.

Example zero_bytes_zero_duration :
  received_line 0 (durS 0) (kbits_per_sec 0 0)
  = "Received: 0 bytes in 0.000 seconds (NaN Kbits/s)"
      ++ String (ascii_of_nat 10) EmptyString.
Proof. reflexivity. Qed.

Example some_bytes_zero_duration :
  received_line 125000 (durS 0) (kbits_per_sec 125000 0)
  = "Received: 125000 bytes in 0.000 seconds (+Inf Kbits/s)"
      ++ String (ascii_of_nat 10) EmptyString.
Proof. reflexivity. Qed.

(* ================================================================= *)
(** ** Loops *)

Section ForLoopFacts.
Context {St I : Type}.
Variable cond : St -> bool.
Variable body : St -> I -> St * list event * control.

(** A loop whose condition always holds and whose body never leaves
    it is still running when the inputs are used up. *)
Lemma for_loop_forever (inputs : list I) (st : St) :
  (forall s, cond s = true) ->
  (forall s i, snd (body s i) = Next) ->
  snd (for_loop cond body inputs st) = Blocked.
Proof.
  intros Hc Hb. revert st.
  induction inputs as [|i rest IH]; intros st; simpl; rewrite Hc.
  - reflexivity.
  - specialize (Hb st i). destruct (body st i) as [[st1 ev] c].
    simpl in Hb. subst c.
    specialize (IH st1). destruct (for_loop cond body rest st1) as [[st2 ev2] e].
    exact IH.
Qed.

(** Every event of a loop is an event of one pass through its
    body. *)
Lemma for_loop_events (P : event -> Prop) (inputs : list I) (st : St) :
  (forall s i, Forall P (snd (fst (body s i)))) ->
  Forall P (snd (fst (for_loop cond body inputs st))).
Proof.
  intros Hb. revert st.
  induction inputs as [|i rest IH]; intros st; simpl;
    destruct (cond st); simpl; auto.
  specialize (Hb st i). destruct (body st i) as [[st1 ev] c].
  simpl in Hb. destruct c; simpl; auto.
  specialize (IH st1). destruct (for_loop cond body rest st1) as [[st2 ev2] e].
  simpl in *. apply Forall_app. split; assumption.
Qed.

(** A loop never ends with [Fell] inside a [Stop]: it ends the way
    its body says. *)
Lemma for_loop_ending (Q : ending -> Prop) (inputs : list I) (st : St) :
  Q Blocked -> Q Fell ->
  (forall s i e, snd (body s i) = Stop e -> Q e) ->
  Q (snd (for_loop cond body inputs st)).
Proof.
  intros Hb Hf Hs. revert st.
  induction inputs as [|i rest IH]; intros st; simpl;
    destruct (cond st); simpl; auto.
  specialize (Hs st i). destruct (body st i) as [[st1 ev] c].
  simpl in Hs. destruct c; simpl; auto.
  specialize (IH st1). destruct (for_loop cond body rest st1) as [[st2 ev2] e].
  exact IH.
Qed.

End ForLoopFacts.

(** ** The server never leaves its accept loop *)

Section ServerFacts.
Variable write_loop : list io_result -> Z -> Z * list event * ending.

Lemma accept_loop_sessions (l : list (error + conn_env)) started :
  fst (fst (for_loop (fun _ => true) (accept_body write_loop) l started))
  = (started ++ map (session write_loop) (accepted l))%list.
Proof.
  revert started. induction l as [|a rest IH]; intros started; simpl.
  - now rewrite app_nil_r.
  - destruct a as [e|c]; simpl.
    + specialize (IH started).
      destruct (for_loop _ _ rest started) as [[s2 ev2] e2]. exact IH.
    + specialize (IH (started ++ [session write_loop c])%list).
      destruct (for_loop _ _ rest _) as [[s2 ev2] e2]. simpl in *.
      rewrite IH, <- app_assoc. reflexivity.
Qed.

Lemma accept_loop_blocked (l : list (error + conn_env)) started :
  snd (for_loop (fun _ => true) (accept_body write_loop) l started) = Blocked.
Proof.
  apply for_loop_forever; [reflexivity|].
  intros s [e|c]; reflexivity.
Qed.

(** [serverMain] exits on a setup error and otherwise stays in the
    accept loop: it never returns. *)
Lemma serverMain_never_returns (env : server_env) :
  server_end (serverMain write_loop env) = Exited 1
  \/ server_end (serverMain write_loop env) = Blocked.
Proof.
  unfold serverMain.
  destruct (random_open env); [now left|].
  destruct (random_read env); [now left|].
  destruct (key_pair env); [now left|].
  destruct (listen env); [now left|].
  pose proof (accept_loop_blocked (accepts env) []) as H.
  destruct (for_loop _ _ (accepts env) []) as [[st ev] e].
  simpl in H. subst e. now right.
Qed.

(** Once listening, every accepted connection gets its goroutine,
    whatever happened to the connections before it. *)
Lemma serverMain_serves_all (env : server_env) :
  setup_ok env ->
  sessions (serverMain write_loop env)
    = map (session write_loop) (accepted (accepts env))
  /\ server_end (serverMain write_loop env) = Blocked.
Proof.
  intros (H1 & H2 & H3 & H4). unfold serverMain.
  rewrite H1, H2, H3, H4.
  pose proof (accept_loop_blocked (accepts env) []) as Hb.
  pose proof (accept_loop_sessions (accepts env) []) as Hs.
  destruct (for_loop _ _ (accepts env) []) as [[st ev] e].
  simpl in *. subst. split; reflexivity.
Qed.

End ServerFacts.

(** ** Roles *)

Section MainFacts.
Variable write_loop : list io_result -> Z -> Z * list event * ending.
Variable clientMain : context -> flags -> client_env -> client_run.

Lemma main_one_role (fl : flags) (senv : server_env) (cenv : client_env) :
  main (serverMain write_loop) clientMain fl senv cenv
  = if serve fl
    then Process (Some (serverMain write_loop senv)) None
    else Process None (Some (clientMain Background fl cenv)).
Proof.
  unfold main. destruct (serve fl); [|reflexivity].
  destruct (serverMain_never_returns write_loop senv) as [H|H];
    rewrite H; reflexivity.
Qed.

End MainFacts.

(** C9: one invocation plays one role.  With [-s] the process is a
    server and never reaches [clientMain], because [serverMain] does
    not return; without [-s] it is a client only.  This holds for
    [main] of the revision with [-seconds] and for [main] of the first
    revision. *)
Theorem exactly_one_role (fl : flags) (senv : server_env) (cenv : client_env) :
  Seconds.main fl senv cenv
  = (if serve fl
     then Process (Some (Seconds.serverMain senv)) None
     else Process None (Some (Seconds.clientMain Background fl cenv)))
  /\ Initial.main fl senv cenv
     = (if serve fl
        then Process (Some (Initial.serverMain senv)) None
        else Process None (Some (Initial.clientMain Background fl cenv))).
Proof.
  split; apply main_one_role.
Qed.

(* ================================================================= *)
(** ** Byte counters *)

Lemma uint64_small n : 0 <= n < 2 ^ 64 -> uint64 n = n.
Proof. intros H. unfold uint64. now apply Z.mod_small. Qed.

Lemma uint64_range n : 0 <= uint64 n < 2 ^ 64.
Proof. unfold uint64. apply Z.mod_pos_bound. lia. Qed.

(** Without wrap-around the counter is the sum of the byte counts. *)
Lemma add_bytes_sum (rs : list io_result) (n : Z) :
  0 <= n ->
  Forall (fun r => 0 <= io_n r) rs ->
  n + sum_n rs < 2 ^ 64 ->
  add_bytes n rs = n + sum_n rs.
Proof.
  revert n. induction rs as [|r rs IH]; intros n Hn Hall Hlt; simpl in *.
  - lia.
  - inversion Hall as [|? ? Hr Hrs]; subst.
    assert (Hs : 0 <= sum_n rs).
    { clear -Hrs. induction Hrs; simpl; lia. }
    rewrite (uint64_small (io_n r)) by lia.
    rewrite (uint64_small (n + io_n r)) by lia.
    rewrite IH by (auto; lia). lia.
Qed.

(** One pass through a loop body never lowers the counter, as long as
    the uint64 does not wrap around. *)
Lemma write_body_monotone (nBytes : Z) (r : io_result) :
  0 <= nBytes -> 0 <= io_n r -> nBytes + io_n r < 2 ^ 64 ->
  nBytes <= fst (fst (Seconds.write_body nBytes r))
  /\ nBytes <= fst (fst (Limit.write_body nBytes r)).
Proof.
  intros H1 H2 H3. unfold Seconds.write_body, Limit.write_body.
  destruct (io_err r) as [e|]; simpl.
  - destruct (as_ApplicationError e) as [c|]; [destruct (c =? 0)|]; simpl; lia.
  - rewrite (uint64_small (io_n r)), uint64_small by lia. lia.
Qed.

Lemma read_body_monotone (d : bool) (n : Z) (it : iteration) :
  0 <= n -> 0 <= io_n (read it) -> n + io_n (read it) < 2 ^ 64 ->
  n <= fst (fst (Seconds.read_body d n it)).
Proof.
  intros H1 H2 H3. unfold Seconds.read_body.
  destruct (d && done_closed it); simpl; [lia|].
  assert (uint64 (n + uint64 (io_n (read it))) = n + io_n (read it)) as E.
  { rewrite (uint64_small (io_n (read it))), uint64_small by lia. lia. }
  destruct (io_err (read it)) as [e|]; simpl.
  - destruct (is_EOF e); simpl; [lia|].
    destruct (as_net_Error e) as [[|]|]; simpl; lia.
  - lia.
Qed.

(** ** The sender of the revision with [-seconds] *)

(** While the writes succeed the loop goes on and counts them. *)
Lemma seconds_write_loop_prefix (oks tail : list io_result) (nBytes : Z) :
  Forall no_error oks ->
  Seconds.write_loop (oks ++ tail) nBytes
  = let '(n, ev, e) := Seconds.write_loop tail (add_bytes nBytes oks) in
    (n, (map Write oks ++ ev)%list, e).
Proof.
  intros H. revert nBytes.
  induction H as [|w oks Hw _ IH]; intros nBytes; simpl.
  - destruct (Seconds.write_loop tail nBytes) as [[n ev] e]. reflexivity.
  - unfold Seconds.write_loop in *. simpl.
    unfold Seconds.write_body at 1. rewrite Hw.
    rewrite IH.
    destruct (for_loop _ _ tail _) as [[n ev] e]. reflexivity.
Qed.

(** C3: a write that fails with application error code 0 ends the
    sender's loop silently: the goroutine closes the stream, logs the
    byte count and returns, and nothing is logged as an error.  A
    write that fails with any other error is logged with [Errorf], and
    the goroutine returns the same way.  In both cases only this
    goroutine ends: [serverMain] is still in its accept loop and every
    accepted connection has its goroutine. *)
Theorem graceful_stop (oks rest : list io_result) (r : io_result) (e : error) :
  Forall no_error oks ->
  io_err r = Some e ->
  let c := Conn None (oks ++ r :: rest) in
  let nBytes := add_bytes 0 oks in
  (e = ApplicationError 0 ->
     Seconds.session c
     = ((Glog INFO OpeningStream :: map Write oks)
          ++ [Write r; Close; Glog INFO (Wrote nBytes)], Returned)%list)
  /\ (e <> ApplicationError 0 ->
     Seconds.session c
     = ((Glog INFO OpeningStream :: map Write oks)
          ++ [Write r; Glog ERROR (ErrorWriting e); Close;
              Glog INFO (Wrote nBytes)], Returned)%list)
  /\ (forall env, setup_ok env -> In (inr c) (accepts env) ->
        server_end (Seconds.serverMain env) = Blocked
        /\ sessions (Seconds.serverMain env)
           = map Seconds.session (accepted (accepts env))).
Proof.
  intros Hoks Hr c nBytes.
  assert (Hloop : Seconds.write_loop (oks ++ r :: rest) 0
                  = let '(st, ev, c) := Seconds.write_body nBytes r in
                    (st, (map Write oks ++ ev)%list, Returned)).
  { rewrite seconds_write_loop_prefix by assumption.
    fold nBytes. unfold Seconds.write_loop. simpl.
    unfold Seconds.write_body. rewrite Hr.
    destruct (as_ApplicationError e) as [code|]; [destruct (code =? 0)|];
      reflexivity. }
  repeat split.
  - intros ->. unfold Seconds.session, session, c. simpl open_stream.
    simpl writes. rewrite Hloop. unfold Seconds.write_body. rewrite Hr.
    simpl. rewrite <- app_assoc. reflexivity.
  - intros Hne. unfold Seconds.session, session, c. simpl open_stream.
    simpl writes. rewrite Hloop. unfold Seconds.write_body. rewrite Hr.
    destruct e as [|code| |]; simpl; try (rewrite <- app_assoc; reflexivity).
    destruct (Z.eqb_spec code 0) as [->|Hc]; [congruence|].
    simpl. rewrite <- app_assoc. reflexivity.
  - apply (serverMain_serves_all Seconds.write_loop env H).
  - apply (serverMain_serves_all Seconds.write_loop env H).
Qed.

Lemma graceful_stop_witness :
  let oks := [IO 65536 None; IO 65536 None] in
  let r := IO 1200 (Some (ApplicationError 0)) in
  let c := Conn None (oks ++ r :: []) in
  Seconds.session c
  = ([Glog INFO OpeningStream; Write (IO 65536 None); Write (IO 65536 None);
      Write r; Close; Glog INFO (Wrote 131072)], Returned).
Proof.
  intros oks r c.
  assert (Hoks : Forall no_error oks) by (repeat constructor).
  exact (proj1 (graceful_stop oks [] r (ApplicationError 0) Hoks eq_refl)
               eq_refl).
Defined.

Example error_code_1_is_logged :
  Seconds.session (Conn None [IO 65536 None; IO 0 (Some (ApplicationError 1))])
  = ([Glog INFO OpeningStream; Write (IO 65536 None);
      Write (IO 0 (Some (ApplicationError 1)));
      Glog ERROR (ErrorWriting (ApplicationError 1)); Close;
      Glog INFO (Wrote 65536)], Returned).
Proof. reflexivity. Qed.

(** The sender counts a write only when it reported no error: the
    bytes of a write that moved some bytes and then failed are not in
    [nBytes]. *)
Lemma sender_counts_successful_writes (oks rest : list io_result)
  (r : io_result) (e : error) :
  Forall no_error oks ->
  io_err r = Some e ->
  fst (fst (Seconds.write_loop (oks ++ r :: rest) 0)) = add_bytes 0 oks.
Proof.
  intros Hoks Hr. rewrite seconds_write_loop_prefix by assumption.
  unfold Seconds.write_loop. simpl. unfold Seconds.write_body. rewrite Hr.
  destruct (as_ApplicationError e) as [code|]; [destruct (code =? 0)|];
    reflexivity.
Qed.

(** C5, on the sender: a write that moved 1200 bytes before it
    reported an error leaves the counter where it was; the goroutine
    logs "Wrote 65536 bytes" although 66736 bytes went out. *)
Theorem sender_drops_partial_write :
  Seconds.session
    (Conn None [IO 65536 None; IO 1200 (Some (other_error "stream reset"))])
  = ([Glog INFO OpeningStream; Write (IO 65536 None);
      Write (IO 1200 (Some (other_error "stream reset")));
      Glog ERROR (ErrorWriting (other_error "stream reset")); Close;
      Glog INFO (Wrote 65536)], Returned).
Proof. reflexivity. Qed.

(** ** The receivers *)

Lemma Forall_not_stdout (ev : list event) (line : string) :
  Forall not_stdout ev -> ~ In (Stdout line) ev.
Proof.
  intros H Hin. rewrite Forall_forall in H. exact (H _ Hin).
Qed.

Lemma seconds_read_body_not_stdout d n it :
  Forall not_stdout (snd (fst (Seconds.read_body d n it))).
Proof.
  unfold Seconds.read_body.
  destruct (d && done_closed it); simpl; [constructor|].
  destruct (io_err (read it)) as [e|]; simpl.
  - destruct (is_EOF e); [|destruct (as_net_Error e) as [[|]|]];
      repeat constructor.
  - repeat constructor.
Qed.

Lemma seconds_read_loop_not_stdout ctx its n :
  Forall not_stdout (snd (fst (Seconds.read_loop ctx its n))).
Proof.
  apply for_loop_events. intros. apply seconds_read_body_not_stdout.
Qed.






(** ** The byte cap of the sender *)

Lemma totalData_value : totalData = 10 * 2 ^ 30.
Proof. reflexivity. Qed.

Lemma data_len_value : data_len = 65536.
Proof. reflexivity. Qed.

Lemma sum_n_nonneg (ws : list io_result) :
  Forall full_or_short ws -> 0 <= sum_n ws.
Proof.
  induction 1 as [|w ws [_ Hw] _ IH]; simpl; lia.
Qed.

(** From a counter that has not passed the cap by more than one
    buffer, the loop stops as soon as the counter passes the cap. *)
Lemma limit_write_loop_cap (ws : list io_result) (nBytes : Z) :
  Forall full_or_short ws ->
  0 <= nBytes <= totalData + data_len ->
  totalData < nBytes + sum_n ws ->
  exists k : nat,
    Limit.write_loop ws nBytes
    = (nBytes + sum_n (firstn k ws), map Write (firstn k ws), Fell)
    /\ totalData < nBytes + sum_n (firstn k ws) <= totalData + data_len.
Proof.
  intros Hall. revert nBytes.
  induction Hall as [|w ws [Herr Hn] Hws IH]; intros nBytes Hb Hlt.
  - exists O. cbn [firstn map sum_n fold_right] in *.
    unfold Limit.write_loop, for_loop, Limit.write_cond.
    destruct (Z.leb_spec nBytes totalData); [lia|].
    split; [now rewrite Z.add_0_r | lia].
  - unfold Limit.write_loop. simpl for_loop. unfold Limit.write_cond at 1.
    destruct (Z.leb_spec nBytes totalData) as [Hle|Hgt].
    + unfold Limit.write_body at 1. rewrite Herr.
      assert (E : uint64 (nBytes + uint64 (io_n w)) = nBytes + io_n w).
      { rewrite data_len_value in Hn. rewrite totalData_value in Hle.
        assert (2 ^ 64 = 18446744073709551616) as P by reflexivity.
        rewrite (uint64_small (io_n w)) by lia.
        apply uint64_small. lia. }
      rewrite E.
      destruct (IH (nBytes + io_n w)) as (k & Hk & Hbound).
      { lia. }
      { simpl in Hlt. lia. }
      exists (S k). unfold Limit.write_loop in Hk. rewrite Hk.
      cbn [firstn map sum_n fold_right app]. rewrite Z.add_assoc.
      split; [reflexivity | exact Hbound].
    + exists O. cbn [firstn map sum_n fold_right].
      split; [now rewrite Z.add_0_r | lia].
Qed.

(** C4: when no write fails and the writes add up to more than the
    cap, the sender's loop ends with a byte count above the cap of
    10 x 2^30 bytes and at most one buffer of 65536 bytes above it;
    the goroutine then closes the stream, logs the count and
    returns. *)
Theorem byte_cap (ws : list io_result) :
  Forall full_or_short ws ->
  totalData < sum_n ws ->
  exists k : nat,
    let written := firstn k ws in
    let nBytes := sum_n written in
    Limit.session (Conn None ws)
    = ((Glog INFO OpeningStream :: map Write written)
         ++ [Close; Glog INFO (Wrote nBytes)], Returned)%list
    /\ totalData < nBytes <= totalData + data_len
    /\ totalData = 10 * 2 ^ 30 /\ data_len = 65536.
Proof.
  intros Hall Hlt.
  destruct (limit_write_loop_cap ws 0 Hall) as (k & Hk & Hbound).
  { rewrite totalData_value, data_len_value. lia. }
  { lia. }
  exists k. simpl in *.
  unfold Limit.session, session. simpl. rewrite Hk.
  repeat split; try lia.
Qed.

Lemma sum_n_repeat (w : io_result) (k : nat) :
  sum_n (repeat w k) = Z.of_nat k * io_n w.
Proof.
  induction k as [|k IH]; [reflexivity|].
  cbn [repeat sum_n fold_right]. fold (sum_n (repeat w k)). rewrite IH. lia.
Qed.

Lemma byte_cap_witness :
  exists k : nat,
    let written := firstn k full_writes in
    let nBytes := sum_n written in
    Limit.session (Conn None full_writes)
    = ((Glog INFO OpeningStream :: map Write written)
         ++ [Close; Glog INFO (Wrote nBytes)], Returned)%list
    /\ totalData < nBytes <= totalData + data_len
    /\ totalData = 10 * 2 ^ 30 /\ data_len = 65536.
Proof.
  apply (byte_cap full_writes).
  - apply Forall_forall. intros w Hw. apply repeat_spec in Hw. subst w.
    split; [reflexivity | rewrite data_len_value; simpl; lia].
  - unfold full_writes. rewrite sum_n_repeat, totalData_value.
    rewrite Z2Nat.id by lia. simpl. lia.
Defined.

(** The cap is a multiple of the buffer length: while the writes are
    whole buffers the counter reaches the cap exactly, the loop
    condition still holds there, and one more buffer is written. *)
Lemma full_buffers_overshoot (k : nat) (n : Z) :
  0 <= n ->
  n + 65536 * Z.of_nat k <= totalData + data_len ->
  totalData < n + 65536 * Z.of_nat k ->
  fst (fst (Limit.write_loop (repeat (IO 65536 None) k) n))
  = n + 65536 * Z.of_nat k.
Proof.
  revert n. induction k as [|k IH]; intros n Hn Hle Hlt.
  - unfold Limit.write_loop. cbn [repeat for_loop].
    destruct (Limit.write_cond n); simpl; lia.
  - unfold Limit.write_loop. cbn [repeat for_loop].
    unfold Limit.write_cond at 1.
    pose proof data_len_value as D.
    destruct (n <=? totalData) eqn:H;
      [apply Z.leb_le in H | apply Z.leb_gt in H; lia].
    rewrite totalData_value, data_len_value in *.
    unfold Limit.write_body at 1. cbn [io_err io_n].
    assert (E : uint64 (n + uint64 65536) = n + 65536).
    { assert (2 ^ 64 = 18446744073709551616) as P by reflexivity.
      rewrite (uint64_small 65536) by lia. apply uint64_small. lia. }
    rewrite E. specialize (IH (n + 65536)).
    unfold Limit.write_loop in IH.
    destruct (for_loop _ _ (repeat _ k) (n + 65536)) as [[n' ev] e].
    cbn [fst] in *. rewrite IH; lia.
Qed.

Example full_writes_count :
  fst (fst (Limit.write_loop full_writes 0)) = totalData + data_len.
Proof.
  unfold full_writes. rewrite full_buffers_overshoot;
    rewrite ?totalData_value, ?data_len_value, ?Z2Nat.id; simpl; lia.
Qed.

(** ** The receiver of the revision with [-b] *)







(** ** The download limit: empty and malformed strings *)







(* ================================================================= *)
(** ** Scanning a number: [strconv.readFloat] against [fmt.floatToken] *)

Lemma append_nil_r (s : string) : s ++ "" = s.
Proof. induction s as [|c s IH]; simpl; [|rewrite IH]; reflexivity. Qed.

Lemma append_assoc (a b c : string) : (a ++ b) ++ c = a ++ (b ++ c).
Proof. induction a as [|x a IH]; simpl; [|rewrite IH]; reflexivity. Qed.

Lemma length_append (a b : string) :
  String.length (a ++ b) = (String.length a + String.length b)%nat.
Proof. induction a as [|x a IH]; simpl; [|rewrite IH]; reflexivity. Qed.

Lemma mem_append (c : ascii) (a b : string) :
  mem c (a ++ b) = mem c a || mem c b.
Proof.
  induction a as [|x a IH]; simpl; [reflexivity|].
  rewrite IH. apply orb_assoc.
Qed.

Lemma take_append (a b : string) : take (String.length a) (a ++ b) = a.
Proof. induction a as [|x a IH]; simpl; [now destruct b | now rewrite IH]. Qed.

Lemma drop_append (a b : string) : drop (String.length a) (a ++ b) = b.
Proof. induction a as [|x a IH]; simpl; [now destruct b | exact IH]. Qed.

Lemma forallb_str_append (p : ascii -> bool) (a b : string) :
  forallb_str p (a ++ b) = forallb_str p a && forallb_str p b.
Proof.
  induction a as [|x a IH]; simpl; [reflexivity|].
  rewrite IH. apply andb_assoc.
Qed.

Lemma existsb_str_append (p : ascii -> bool) (a b : string) :
  existsb_str p (a ++ b) = existsb_str p a || existsb_str p b.
Proof.
  induction a as [|x a IH]; simpl; [reflexivity|].
  rewrite IH. apply orb_assoc.
Qed.

(** [span] splits its input, takes only bytes that satisfy [p], and
    stops at the first that does not. *)
Lemma span_spec (p : ascii -> bool) (s a b : string) :
  span p s = (a, b) ->
  s = a ++ b /\ forallb_str p a = true /\ stops p b = true.
Proof.
  revert a b. induction s as [|c s IH]; simpl; intros a b H.
  - inversion H; subst. auto.
  - destruct (p c) eqn:Hp.
    + destruct (span p s) as [a' b'] eqn:Hs. inversion H; subst.
      destruct (IH a' b eq_refl) as (-> & Ha & Hb).
      simpl. rewrite Hp. auto.
    + inversion H; subst. simpl. rewrite Hp. auto.
Qed.

Lemma span_append (p : ascii -> bool) (a b : string) :
  forallb_str p a = true -> stops p b = true -> span p (a ++ b) = (a, b).
Proof.
  induction a as [|c a IH]; simpl; intros Ha Hb.
  - destruct b as [|c b]; [reflexivity|]. simpl in Hb.
    simpl. now destruct (p c).
  - apply andb_prop in Ha. destruct Ha as [Hc Ha].
    rewrite Hc, IH by assumption. reflexivity.
Qed.

(** The scanner's loop takes the bytes [span] takes. *)
Lemma accept_loop_append (ok b a rest : string) :
  forallb_str (fun c => mem c ok) a = true ->
  stops (fun c => mem c ok) rest = true ->
  fmt.accept_loop ok b (a ++ rest) = fmt.SS (b ++ a) rest.
Proof.
  revert b. induction a as [|c a IH]; simpl; intros b Ha Hr.
  - rewrite append_nil_r. destruct rest as [|c rest]; [reflexivity|].
    simpl in *. now destruct (mem c ok).
  - apply andb_prop in Ha. destruct Ha as [Hc Ha].
    rewrite Hc, IH by assumption.
    rewrite append_assoc. reflexivity.
Qed.

Lemma accept_yes (ok b : string) (c : ascii) (r : string) :
  mem c ok = true ->
  fmt.accept ok (fmt.SS b (String c r)) = (true, fmt.SS (b ++ String c "") r).
Proof. intros H. unfold fmt.accept. simpl. now rewrite H. Qed.

Lemma accept_no (ok b inp : string) :
  stops (fun c => mem c ok) inp = true ->
  fmt.accept ok (fmt.SS b inp) = (false, fmt.SS b inp).
Proof.
  intros H. unfold fmt.accept. simpl.
  destruct inp as [|c r]; [reflexivity|]. simpl in H.
  now destruct (mem c ok).
Qed.

Lemma mem_subset (set big : string) (c : ascii) :
  forallb_str (fun d => mem d big) set = true ->
  mem c big = false -> mem c set = false.
Proof.
  induction set as [|d set IH]; simpl; intros Hs Hc; [reflexivity|].
  apply andb_prop in Hs. destruct Hs as [Hd Hs].
  rewrite IH by assumption. rewrite orb_false_r.
  destruct (Ascii.eqb_spec c d) as [->|]; [congruence | reflexivity].
Qed.

(** A stopper stops every set of bytes drawn from [scan_byte]. *)
Lemma stopper_stops (set t : string) :
  stopper t ->
  forallb_str scan_byte set = true ->
  stops (fun c => mem c set) t = true.
Proof.
  destruct t as [|c r]; simpl; [tauto|]. intros Hc Hs.
  unfold scan_byte in *. now rewrite (mem_subset set _ c Hs Hc).
Qed.

Lemma mem_dec_us : forall c, mem c (decimalDigits ++ "_") = strconv.is_mant false c.
Proof. by_bytes. Qed.

Lemma mem_hex_us : forall c, mem c (hexadecimalDigits ++ "_") = strconv.is_mant true c.
Proof. by_bytes. Qed.

Lemma is_expd_mant : forall c, strconv.is_expd c = strconv.is_mant false c.
Proof. by_bytes. Qed.

Lemma mant_scan : forall c, strconv.is_mant true c = true -> scan_byte c = true.
Proof. by_bytes. Qed.

Lemma mant_dec_hex :
  forall c, strconv.is_mant false c = true -> strconv.is_mant true c = true.
Proof. by_bytes. Qed.

Lemma dec_not_sign : forall c, is_dec c = true -> mem c fmt.sign = false.
Proof. by_bytes. Qed.

Lemma scan_not_space :
  forall c, scan_byte c = true ->
    Ascii.eqb c (ascii_of_nat 10) = false
    /\ (let b := Z.of_N (N_of_ascii c) in
        ((9 <=? b) && (b <=? 13) || (b =? 32)) = false
        /\ (b =? 194) = false /\ (b =? 225) = false
        /\ (b =? 226) = false /\ (b =? 227) = false).
Proof. by_bytes. Qed.

Lemma lower_i : forall c, Ascii.eqb (strconv.to_lower c) "i" = mem c "iI".
Proof. by_bytes. Qed.
Lemma lower_n : forall c, Ascii.eqb (strconv.to_lower c) "n" = mem c "nN".
Proof. by_bytes. Qed.
Lemma lower_f : forall c, Ascii.eqb (strconv.to_lower c) "f" = mem c "fF".
Proof. by_bytes. Qed.
Lemma lower_a : forall c, Ascii.eqb (strconv.to_lower c) "a" = mem c "aA".
Proof. by_bytes. Qed.

Lemma forallb_str_ext (p q : ascii -> bool) (s : string) :
  (forall c, p c = q c) -> forallb_str p s = forallb_str q s.
Proof.
  intros H. induction s as [|c s IH]; simpl; [|rewrite H, IH]; reflexivity.
Qed.

Lemma forallb_str_impl (p q : ascii -> bool) (s : string) :
  (forall c, p c = true -> q c = true) ->
  forallb_str p s = true -> forallb_str q s = true.
Proof.
  intros H. induction s as [|c s IH]; simpl; [reflexivity|].
  intros Hs. apply andb_prop in Hs. destruct Hs as [Hc Hs].
  now rewrite (H c Hc), IH.
Qed.

Lemma stops_ext (p q : ascii -> bool) (s : string) :
  (forall c, p c = q c) -> stops p s = stops q s.
Proof. intros H. destruct s; simpl; [|rewrite H]; reflexivity. Qed.

(** *** The shape of a number [readFloat] accepts *)

Lemma opt_sign_spec (s s1 : string) (neg : bool) :
  opt_sign s = (neg, s1) -> exists sgn, s = sgn ++ s1 /\ sign_piece sgn.
Proof.
  unfold opt_sign, sign_piece. intros H.
  destruct s as [|c r]; [inversion H; exists ""; auto|].
  destruct (Ascii.eqb_spec c "+") as [->|Hp].
  { inversion H; subst. exists "+"; auto. }
  destruct (Ascii.eqb_spec c "-") as [->|Hm].
  { inversion H; subst. exists "-"; auto. }
  inversion H; subst. exists "". auto.
Qed.

Lemma hex_prefix_spec (s1 s2 : string) (hex : bool) :
  strconv.hex_prefix s1 = (hex, s2) ->
  exists pre, s1 = pre ++ s2 /\ prefix_piece hex pre.
Proof.
  unfold strconv.hex_prefix, prefix_piece. intros H.
  destruct s1 as [|z [|x [|c r]]];
    try (inversion H; subst; exists ""; split; reflexivity).
  destruct (Ascii.eqb z "0") eqn:Hz; destruct (mem x "xX") eqn:Hx;
    cbn [andb] in H; inversion H; subst;
    try (exists ""; split; reflexivity).
  apply Ascii.eqb_eq in Hz. subst z.
  exists (String "0" (String x "")). split; [reflexivity|].
  exists x. auto.
Qed.

Lemma read_exp_spec (hex : bool) (s4 rest : string) (e : Z) :
  strconv.read_exp hex s4 = Some (e, rest) ->
  (rest = s4 /\ hex = false /\ e = 0)
  \/ exists ex, s4 = ex ++ rest /\ exp_piece hex ex /\ ex <> "".
Proof.
  unfold strconv.read_exp. intros H.
  destruct s4 as [|c r].
  { destruct hex; [discriminate|]. inversion H. auto. }
  destruct (mem c (if hex then "pP" else "eE")) eqn:Hc.
  - right.
    destruct (opt_sign r) as [eneg r1] eqn:Hs.
    destruct (opt_sign_spec _ _ _ Hs) as (es & -> & Hes).
    destruct r1 as [|d r1]; [discriminate|].
    destruct (is_dec d) eqn:Hd; [|discriminate].
    destruct (span strconv.is_expd (String d r1)) as [ed rest'] eqn:Hsp.
    inversion H; subst.
    destruct (span_spec _ _ _ _ Hsp) as (Heq & Hall & _).
    destruct ed as [|d' ed].
    { simpl in Hsp. unfold strconv.is_expd in Hsp at 1. rewrite Hd in Hsp.
      simpl in Hsp. destruct (span strconv.is_expd r1); discriminate. }
    simpl in Heq. inversion Heq; subst.
    simpl in Hall. apply andb_prop in Hall. destruct Hall as [_ Hall].
    exists (String c (es ++ String d' ed)). split.
    { simpl. rewrite append_assoc. reflexivity. }
    split; [|discriminate].
    right. exists c, es, d', ed. auto.
  - destruct hex; [discriminate|]. inversion H. auto.
Qed.

(** What [readFloat] accepts to the end of its input is shaped. *)
Lemma readFloat_shaped (num : string) (x : strconv.number) :
  strconv.readFloat num = Some (x, "") -> shaped (strconv.hex x) num.
Proof.
  unfold strconv.readFloat. intros H.
  destruct num as [|c0 r0]; [discriminate|].
  remember (String c0 r0) as num eqn:Hnum. clear Hnum c0 r0.
  destruct (opt_sign num) as [neg s1] eqn:Hsign.
  destruct (strconv.hex_prefix s1) as [hex s2] eqn:Hhex.
  destruct (span (strconv.is_mant hex) s2) as [ip s3] eqn:Hip.
  destruct (opt_sign_spec _ _ _ Hsign) as (sgn & -> & Hsgn).
  destruct (hex_prefix_spec _ _ _ Hhex) as (pre & -> & Hpre).
  destruct (span_spec _ _ _ _ Hip) as (-> & Hipall & _).
  assert (Hfrac : exists dfp fp s4,
             s3 = dfp ++ s4 /\ frac_piece hex dfp
             /\ (dfp = "" -> fp = "")
             /\ match s3 with
                | String c r =>
                    if Ascii.eqb c "." then span (strconv.is_mant hex) r
                    else ("", s3)
                | EmptyString => ("", s3)
                end = (fp, s4)).
  { destruct s3 as [|c r].
    - exists "", "", "". repeat split; unfold frac_piece; auto.
    - destruct (Ascii.eqb_spec c ".") as [->|Hne].
      + destruct (span (strconv.is_mant hex) r) as [fp s4] eqn:Hfp.
        destruct (span_spec _ _ _ _ Hfp) as (-> & Hfpall & _).
        exists (String "." fp), fp, s4. repeat split.
        * right. exists fp. auto.
        * discriminate.
      + exists "", "", (String c r). repeat split; unfold frac_piece; auto. }
  destruct Hfrac as (dfp & fp & s4 & -> & Hdfp & Hfp0 & Hm).
  rewrite Hm in H.
  destruct (existsb_str (strconv.is_digit hex) (ip ++ fp)) eqn:Hdig;
    [|discriminate]. simpl in H.
  destruct (strconv.read_exp hex s4) as [[e rest]|] eqn:Hexp; [|discriminate].
  destruct (_ && _) in H; [discriminate|].
  inversion H; subst. simpl.
  assert (Hne : ip ++ dfp <> "").
  { intros Heq. destruct ip; [|discriminate]. simpl in Heq. subst dfp.
    rewrite (Hfp0 eq_refl) in Hdig. discriminate. }
  destruct (read_exp_spec _ _ _ _ Hexp) as [(<- & -> & _)|(ex & -> & Hex & _)].
  - exists sgn, pre, ip, dfp, "". rewrite !append_nil_r.
    repeat split; auto. left. auto.
  - exists sgn, pre, ip, dfp, ex. rewrite !append_nil_r.
    repeat split; auto.
Qed.

(** *** [floatToken] takes a shaped number whole *)

Lemma exp_byte_halts :
  forall c, mem c "eEpP" = true ->
    mem c fmt.period = false /\ mem c "xX" = false /\ mem c "0" = false
    /\ strconv.is_mant false c = false.
Proof. by_bytes. Qed.

Lemma p_byte_halts :
  forall c, mem c "pP" = true ->
    mem c "eEpP" = true /\ strconv.is_mant true c = false.
Proof. by_bytes. Qed.

Lemma e_byte_halts : forall c, mem c "eE" = true -> mem c "eEpP" = true.
Proof. by_bytes. Qed.

Lemma stopper_byte :
  forall c, scan_byte c = false ->
    mem c fmt.period = false /\ mem c "xX" = false /\ mem c "0" = false
    /\ mem c "eEpP" = false /\ mem c "pP" = false
    /\ mem c fmt.sign = false /\ mem c "nN" = false /\ mem c "iI" = false
    /\ strconv.is_mant false c = false /\ strconv.is_mant true c = false.
Proof. by_bytes. Qed.

Lemma period_byte :
  forall c, mem c fmt.period = true ->
    c = "."%char /\ mem c "xX" = false /\ mem c "0" = false
    /\ mem c fmt.sign = false /\ mem c "nN" = false /\ mem c "iI" = false
    /\ strconv.is_mant false c = false /\ strconv.is_mant true c = false.
Proof. by_bytes. Qed.

Lemma mant_dec_byte :
  forall c, strconv.is_mant false c = true ->
    mem c "xX" = false /\ mem c fmt.sign = false /\ mem c "nN" = false
    /\ mem c "iI" = false /\ mem c fmt.period = false.
Proof. by_bytes. Qed.

Lemma zero_byte :
  forall c, mem c "0" = true ->
    c = "0"%char /\ mem c fmt.sign = false /\ mem c "nN" = false
    /\ mem c "iI" = false.
Proof. by_bytes. Qed.

Lemma exp_piece_halts (hex : bool) (ex tail : string) :
  exp_piece hex ex -> stopper tail ->
  halts hex (ex ++ tail) /\ pointless (ex ++ tail).
Proof.
  intros [[-> ->]|(e & es & d & ed & -> & He & _)] Ht;
    unfold halts, pointless; cbn [String.append stops].
  - destruct tail as [|c r]; [contradiction|]. cbn [stopper stops] in *.
    destruct (stopper_byte c Ht) as (-> & -> & -> & _ & _ & _ & _ & _ & -> & _).
    auto.
  - destruct hex.
    + destruct (p_byte_halts e He) as (He' & ->).
      destruct (exp_byte_halts e He') as (-> & -> & -> & _). auto.
    + apply e_byte_halts in He.
      destruct (exp_byte_halts e He) as (-> & -> & -> & ->). auto.
Qed.

Lemma expToken_piece (hex : bool) (ex tail b : string) :
  exp_piece hex ex -> stopper tail ->
  fmt.expToken (if hex then "pP" else fmt.exponent) (fmt.SS b (ex ++ tail))
  = (tt, fmt.SS (b ++ ex) tail).
Proof.
  intros [[-> ->]|(e & es & d & ed & -> & He & Hes & Hd & Hed)] Ht;
    unfold fmt.expToken; tok.
  - rewrite accept_no by (apply stopper_stops; auto).
    now rewrite append_nil_r.
  - assert (He' : mem e (if hex then "pP" else fmt.exponent) = true).
    { destruct hex; [exact He | now apply e_byte_halts]. }
    cbn [String.append]. rewrite (accept_yes _ _ _ _ He').
    assert (Hdig : forallb_str (fun c => mem c (decimalDigits ++ "_"))
                     (String d ed) = true).
    { rewrite (forallb_str_ext _ _ _ mem_dec_us). cbn [forallb_str].
      rewrite (forallb_str_ext _ _ _ is_expd_mant) in Hed. rewrite Hed.
      unfold strconv.is_mant, strconv.is_digit. now rewrite Hd. }
    assert (Hstop : stops (fun c => mem c (decimalDigits ++ "_")) tail = true).
    { apply stopper_stops; auto. }
    destruct Hes as [->|[->| ->]]; cbn [String.append fmt.buf fmt.rd].
    + rewrite accept_no by (cbn [stops]; now rewrite (dec_not_sign d Hd)).
      cbn [fmt.buf fmt.rd].
      rewrite (accept_loop_append _ _ (String d ed) tail Hdig Hstop).
      now rewrite append_assoc.
    + rewrite accept_yes by reflexivity. cbn [fmt.buf fmt.rd].
      rewrite (accept_loop_append _ _ (String d ed) tail Hdig Hstop).
      now rewrite !append_assoc.
    + rewrite accept_yes by reflexivity. cbn [fmt.buf fmt.rd].
      rewrite (accept_loop_append _ _ (String d ed) tail Hdig Hstop).
      now rewrite !append_assoc.
Qed.

Lemma fracToken_piece (hex : bool) (dfp next b : string) :
  frac_piece hex dfp -> halts hex next /\ pointless next ->
  fmt.fracToken ((if hex then hexadecimalDigits else decimalDigits) ++ "_")
                (fmt.SS b (dfp ++ next))
  = (tt, fmt.SS (b ++ dfp) next).
Proof.
  intros [->|(fp & -> & Hfp)] ((Hm & _) & Hp); unfold fmt.fracToken; tok.
  - cbn [String.append]. rewrite accept_no by exact Hp.
    now rewrite append_nil_r.
  - cbn [String.append]. rewrite accept_yes by reflexivity.
    cbn [fmt.buf fmt.rd].
    rewrite accept_loop_append.
    + now rewrite append_assoc.
    + destruct hex; [rewrite (forallb_str_ext _ _ _ mem_hex_us)
                    | rewrite (forallb_str_ext _ _ _ mem_dec_us)]; exact Hfp.
    + destruct hex; [rewrite (stops_ext _ _ _ mem_hex_us)
                    | rewrite (stops_ext _ _ _ mem_dec_us)]; exact Hm.
Qed.

(** The digits before the point, in base ten: the check for a [0x]
    prefix takes a leading zero and no more. *)
Lemma digits_after_zero_check {A} (K : bool -> fmt.tok A) (ip rest b : string) :
  forallb_str (strconv.is_mant false) ip = true ->
  halts false rest ->
  fmt.bind (fmt.andthen (fmt.accept "0") (fmt.accept "xX"))
    (fun hx =>
       fmt.bind (fmt.acceptMany
                   ((if hx then hexadecimalDigits else decimalDigits) ++ "_"))
                (fun _ => K hx))
    (fmt.SS b (ip ++ rest))
  = K false (fmt.SS (b ++ ip) rest).
Proof.
  intros Hip (Hm & Hx & Hz).
  assert (Hloop : forall b' a, forallb_str (strconv.is_mant false) a = true ->
            fmt.accept_loop (decimalDigits ++ "_") b' (a ++ rest)
            = fmt.SS (b' ++ a) rest).
  { intros b' a Ha. apply accept_loop_append.
    - now rewrite (forallb_str_ext _ _ _ mem_dec_us).
    - now rewrite (stops_ext _ _ _ mem_dec_us). }
  tok. destruct ip as [|c ip]; cbn [String.append].
  - rewrite accept_no by exact Hz. cbn [fmt.buf fmt.rd].
    pose proof (Hloop b "" eq_refl) as H0. cbn [String.append] in H0.
    rewrite H0. reflexivity.
  - cbn [forallb_str] in Hip. apply andb_prop in Hip. destruct Hip as [Hc Hip].
    destruct (mem c "0") eqn:Hc0.
    + rewrite (accept_yes _ _ _ _ Hc0).
      rewrite accept_no.
      * cbn [fmt.buf fmt.rd]. rewrite (Hloop _ ip Hip).
        rewrite append_assoc. reflexivity.
      * destruct ip as [|c' ip]; [exact Hx|].
        cbn [forallb_str] in Hip. apply andb_prop in Hip.
        destruct Hip as [Hc' _]. cbn [String.append stops].
        destruct (mant_dec_byte c' Hc') as (-> & _). reflexivity.
    + rewrite accept_no by (cbn [stops]; now rewrite Hc0).
      cbn [fmt.buf fmt.rd].
      assert (Hall : forallb_str (strconv.is_mant false) (String c ip) = true).
      { cbn [forallb_str]. now rewrite Hc, Hip. }
      pose proof (Hloop b (String c ip) Hall) as H0.
      cbn [String.append] in H0. rewrite H0. reflexivity.
Qed.

Lemma lead_byte_facts :
  forall c, lead_byte c = true ->
    mem c fmt.sign = false /\ mem c "nN" = false /\ mem c "iI" = false
    /\ scan_byte c = true.
Proof. by_bytes. Qed.

Lemma mant_dec_lead :
  forall c, strconv.is_mant false c = true -> lead_byte c = true.
Proof. by_bytes. Qed.

Lemma body_led (hex : bool) (pre ip dfp more : string) :
  prefix_piece hex pre ->
  forallb_str (strconv.is_mant false) ip = true \/ hex = true ->
  frac_piece hex dfp ->
  ip ++ dfp <> "" ->
  led (pre ++ ip ++ dfp ++ more).
Proof.
  intros Hpre Hip Hdfp Hne. destruct hex.
  - destruct Hpre as (x & _ & ->). reflexivity.
  - cbn in Hpre. subst pre. cbn [String.append].
    destruct Hip as [Hip|]; [|discriminate].
    destruct ip as [|c ip].
    + destruct Hdfp as [->|(fp & -> & _)]; [contradiction|]. reflexivity.
    + cbn [forallb_str] in Hip. apply andb_prop in Hip.
      destruct Hip as [Hc _]. cbn [String.append led].
      now apply mant_dec_lead.
Qed.

Lemma numToken_pieces (hex : bool) (pre ip dfp ex tail b : string) :
  prefix_piece hex pre ->
  forallb_str (strconv.is_mant hex) ip = true ->
  frac_piece hex dfp ->
  exp_piece hex ex ->
  stopper tail ->
  fmt.numToken (fmt.SS b (pre ++ ip ++ dfp ++ ex ++ tail))
  = (tt, fmt.SS (b ++ pre ++ ip ++ dfp ++ ex) tail).
Proof.
  intros Hpre Hip Hdfp Hex Ht.
  pose proof (exp_piece_halts hex ex tail Hex Ht) as Hh.
  assert (Hh' : halts hex (dfp ++ ex ++ tail)).
  { destruct Hdfp as [->|(fp & -> & _)]; [exact (proj1 Hh)|].
    unfold halts. cbn [String.append stops].
    destruct (period_byte "." eq_refl) as (_ & -> & -> & _ & _ & _ & Hd & Hx).
    destruct hex; [rewrite Hx | rewrite Hd]; auto. }
  unfold fmt.numToken. destruct hex.
  - destruct Hpre as (x & Hx & ->). cbn [String.append]. tok.
    rewrite accept_yes by reflexivity. rewrite (accept_yes _ _ _ _ Hx).
    cbn [fmt.buf fmt.rd].
    rewrite accept_loop_append.
    + pose proof (fracToken_piece true dfp (ex ++ tail)) as Hf.
      cbv beta iota in Hf. rewrite Hf by assumption.
      pose proof (expToken_piece true ex tail) as He.
      cbv beta iota in He. rewrite He by assumption.
      rewrite !append_assoc. reflexivity.
    + now rewrite (forallb_str_ext _ _ _ mem_hex_us).
    + rewrite (stops_ext _ _ _ mem_hex_us). apply Hh'.
  - cbn in Hpre. subst pre. cbn [String.append].
    rewrite (digits_after_zero_check _ ip (dfp ++ ex ++ tail) b Hip Hh').
    tok.
    pose proof (fracToken_piece false dfp (ex ++ tail)) as Hf.
    cbv beta iota in Hf. rewrite Hf by assumption.
    pose proof (expToken_piece false ex tail) as He.
    cbv beta iota in He. rewrite He by assumption.
    rewrite !append_assoc. reflexivity.
Qed.

(** A shaped number followed by a stopper: [floatToken] puts the
    number in the buffer and leaves the rest unread. *)
Lemma floatToken_shaped (hex : bool) (num tail b : string) :
  shaped hex num -> stopper tail ->
  fmt.floatToken (fmt.SS b (num ++ tail)) = (tt, fmt.SS num tail).
Proof.
  intros (sgn & pre & ip & dfp & ex & -> & Hsgn & Hpre & Hip & Hdfp & Hex & Hne)
         Ht.
  assert (Hled : led (pre ++ ip ++ dfp ++ ex ++ tail)).
  { apply (body_led hex); auto.
    destruct hex; [now right | now left]. }
  pose proof (numToken_pieces hex pre ip dfp ex tail) as Hnum.
  rewrite !append_assoc.
  remember (pre ++ ip ++ dfp ++ ex ++ tail) as body eqn:Hbody.
  remember (pre ++ ip ++ dfp ++ ex) as text eqn:Htext.
  destruct body as [|c body]; [contradiction|]. cbn [led] in Hled.
  destruct (lead_byte_facts c Hled) as (Hs & Hn & Hi & _).
  unfold fmt.floatToken. cbn [fmt.rd]. tok.
  destruct Hsgn as [->|[->| ->]]; cbn [String.append].
  - rewrite accept_no by (cbn [stops]; now rewrite Hn).
    rewrite accept_no by (cbn [stops]; now rewrite Hs). cbn [fmt.buf fmt.rd].
    rewrite accept_no by (cbn [stops]; now rewrite Hi).
    now rewrite Hnum.
  - rewrite accept_no by reflexivity.
    rewrite accept_yes by reflexivity. cbn [fmt.buf fmt.rd].
    rewrite accept_no by (cbn [stops]; now rewrite Hi).
    now rewrite Hnum.
  - rewrite accept_no by reflexivity.
    rewrite accept_yes by reflexivity. cbn [fmt.buf fmt.rd].
    rewrite accept_no by (cbn [stops]; now rewrite Hi).
    now rewrite Hnum.
Qed.

(** *** The bytes of a shaped number *)

Lemma sign_piece_scan (sgn : string) :
  sign_piece sgn -> forallb_str scan_byte sgn = true.
Proof. intros [->|[->| ->]]; reflexivity. Qed.

Lemma x_byte_scan : forall c, mem c "xX" = true -> scan_byte c = true.
Proof. by_bytes. Qed.

Lemma exp_byte_scan :
  forall c, mem c "eEpP" = true -> scan_byte c = true.
Proof. by_bytes. Qed.

Lemma dec_byte_scan : forall c, is_dec c = true -> scan_byte c = true.
Proof. by_bytes. Qed.

Lemma mant_scan_any (hex : bool) (s : string) :
  forallb_str (strconv.is_mant hex) s = true -> forallb_str scan_byte s = true.
Proof.
  apply forallb_str_impl. intros c Hc. apply mant_scan.
  destruct hex; [exact Hc | now apply mant_dec_hex].
Qed.

Lemma shaped_scan_bytes (hex : bool) (num : string) :
  shaped hex num -> forallb_str scan_byte num = true /\ num <> "".
Proof.
  intros (sgn & pre & ip & dfp & ex & -> & Hsgn & Hpre & Hip & Hdfp & Hex & Hne).
  split.
  - rewrite !forallb_str_append.
    rewrite (sign_piece_scan sgn Hsgn), (mant_scan_any hex ip Hip).
    assert (Hp : forallb_str scan_byte pre = true).
    { destruct hex; cbn in Hpre; [|now subst].
      destruct Hpre as (x & Hx & ->). cbn [forallb_str].
      now rewrite (x_byte_scan x Hx). }
    assert (Hf : forallb_str scan_byte dfp = true).
    { destruct Hdfp as [->|(fp & -> & Hfp)]; [reflexivity|].
      cbn [forallb_str]. now rewrite (mant_scan_any hex fp Hfp). }
    assert (He : forallb_str scan_byte ex = true).
    { destruct Hex as [[-> _]|(e & es & d & ed & -> & He & Hes & Hd & Hed)];
        [reflexivity|].
      cbn [forallb_str]. rewrite forallb_str_append. cbn [forallb_str].
      rewrite (sign_piece_scan es Hes), (dec_byte_scan d Hd).
      rewrite (forallb_str_ext _ _ _ is_expd_mant) in Hed.
      rewrite (mant_scan_any false ed Hed).
      rewrite exp_byte_scan; [reflexivity|].
      destruct hex; [now apply p_byte_halts | now apply e_byte_halts]. }
    now rewrite Hp, Hf, He.
  - intros Heq. apply Hne.
    destruct sgn; [|discriminate]. destruct pre; [|discriminate].
    destruct ip; [|discriminate]. destruct dfp; [|discriminate]. reflexivity.
Qed.

Lemma dec_byte_not_p : forall c, dec_byte c = true -> Ascii.eqb "p" c = false.
Proof. by_bytes. Qed.

Lemma mant_dec_byte' : forall c, strconv.is_mant false c = true -> dec_byte c = true.
Proof. by_bytes. Qed.

Lemma e_dec_byte : forall c, mem c "eE" = true -> dec_byte c = true.
Proof. by_bytes. Qed.

Lemma no_p (s : string) :
  forallb_str (fun c => negb (Ascii.eqb "p" c)) s = true ->
  fmt.indexByte "p" s = None.
Proof.
  induction s as [|c s IH]; cbn [forallb_str fmt.indexByte]; [reflexivity|].
  intros H. apply andb_prop in H. destruct H as [Hc Hs].
  destruct (Ascii.eqb "p" c); [discriminate|]. now rewrite IH.
Qed.

Lemma shaped_convert (hex : bool) (num : string) :
  shaped hex num ->
  if hex then fmt.hasX num = true else fmt.indexByte "p" num = None.
Proof.
  intros (sgn & pre & ip & dfp & ex & -> & Hsgn & Hpre & Hip & Hdfp & Hex & Hne).
  destruct hex.
  - destruct Hpre as (x & Hx & ->). unfold fmt.hasX.
    rewrite !existsb_str_append. cbn [existsb_str]. rewrite Hx.
    now rewrite !orb_true_r.
  - cbn in Hpre. subst pre. apply no_p.
    assert (Hd : forall s, forallb_str dec_byte s = true ->
              forallb_str (fun c => negb (Ascii.eqb "p" c)) s = true).
    { intros s. apply forallb_str_impl. intros c Hc.
      now rewrite (dec_byte_not_p c Hc). }
    assert (Hm : forall s, forallb_str (strconv.is_mant false) s = true ->
              forallb_str dec_byte s = true).
    { intros s. apply forallb_str_impl, mant_dec_byte'. }
    apply Hd. rewrite !forallb_str_append.
    assert (Hs : forallb_str dec_byte sgn = true)
      by (destruct Hsgn as [->|[->| ->]]; reflexivity).
    rewrite Hs, (Hm ip Hip). cbn [String.append forallb_str andb].
    assert (Hf : forallb_str dec_byte dfp = true).
    { destruct Hdfp as [->|(fp & -> & Hfp)]; [reflexivity|].
      cbn [forallb_str]. now rewrite (Hm fp Hfp). }
    assert (He : forallb_str dec_byte ex = true).
    { destruct Hex as [[-> _]|(e & es & d & ed & -> & He & Hes & Hdd & Hed)];
        [reflexivity|].
      cbn [forallb_str]. rewrite forallb_str_append. cbn [forallb_str].
      rewrite (e_dec_byte e He).
      assert (Hes' : forallb_str dec_byte es = true)
        by (destruct Hes as [->|[->| ->]]; reflexivity).
      rewrite Hes'.
      rewrite (forallb_str_ext _ _ _ is_expd_mant) in Hed.
      rewrite (Hm ed Hed).
      assert (Hd' : strconv.is_mant false d = true).
      { unfold strconv.is_mant, strconv.is_digit. now rewrite Hdd. }
      now rewrite (mant_dec_byte' d Hd'). }
    now rewrite Hf, He.
Qed.

(** *** The words inf, infinity and nan *)

Lemma cpl_le_length (s p : string) :
  (strconv.commonPrefixLenIgnoreCase s p <= String.length s)%nat.
Proof.
  revert p. induction s as [|c s IH]; intros [|d p]; simpl; try lia.
  destruct (Ascii.eqb _ d); [specialize (IH p)|]; lia.
Qed.

Lemma drop_nil_length (n : nat) (s : string) :
  drop n s = "" -> (String.length s <= n)%nat.
Proof.
  revert s. induction n as [|n IH]; intros [|c s]; simpl; intros H;
    try lia; try discriminate.
  specialize (IH s H). lia.
Qed.

Lemma three_letters (body : string) (l1 l2 l3 : ascii) (more : string) :
  strconv.commonPrefixLenIgnoreCase body
    (String l1 (String l2 (String l3 more))) = 3%nat ->
  drop 3 body = "" ->
  exists c1 c2 c3,
    body = String c1 (String c2 (String c3 ""))
    /\ Ascii.eqb (strconv.to_lower c1) l1 = true
    /\ Ascii.eqb (strconv.to_lower c2) l2 = true
    /\ Ascii.eqb (strconv.to_lower c3) l3 = true.
Proof.
  intros Hn Hd.
  destruct body as [|c1 [|c2 [|c3 [|c4 r]]]]; cbn in Hn, Hd;
    try discriminate.
  - destruct (Ascii.eqb (strconv.to_lower c1) l1); discriminate.
  - destruct (Ascii.eqb (strconv.to_lower c1) l1); [|discriminate].
    destruct (Ascii.eqb (strconv.to_lower c2) l2); discriminate.
  - destruct (Ascii.eqb (strconv.to_lower c1) l1) eqn:H1; [|discriminate].
    destruct (Ascii.eqb (strconv.to_lower c2) l2) eqn:H2; [|discriminate].
    destruct (Ascii.eqb (strconv.to_lower c3) l3) eqn:H3; [|discriminate].
    exists c1, c2, c3. auto.
Qed.

Lemma mem_sign_cases (c : ascii) :
  mem c "+-" = true -> c = "+"%char \/ c = "-"%char.
Proof.
  cbn [mem]. destruct (Ascii.eqb_spec c "+"); [auto|].
  destruct (Ascii.eqb_spec c "-"); [auto|discriminate].
Qed.

Lemma i_not_sign : forall c, mem c "iI" = true -> mem c "+-" = false.
Proof. by_bytes. Qed.

Lemma opt_sign_plain (c : ascii) (r : string) :
  mem c "+-" = false -> opt_sign (String c r) = (false, String c r).
Proof.
  cbn [mem opt_sign]. destruct (Ascii.eqb c "+"); [discriminate|].
  destruct (Ascii.eqb c "-"); [discriminate|]. reflexivity.
Qed.

(** What [special] accepts to the end of its input. *)
Lemma special_words (num : string) (v : float64) :
  strconv.special num = Some (v, "") ->
  nan_word num \/ inf_word num \/ spelled_infinity num = true.
Proof.
  unfold strconv.special. destruct num as [|c r]; [discriminate|].
  destruct (mem c "+-" || mem c "iI") eqn:Hc.
  - set (body := if mem c "+-" then r else String c r).
    assert (Hbody : snd (opt_sign (String c r)) = body).
    { subst body. destruct (mem c "+-") eqn:Hs.
      - destruct (mem_sign_cases c Hs) as [-> | ->]; reflexivity.
      - now rewrite opt_sign_plain. }
    set (n0 := strconv.commonPrefixLenIgnoreCase body "infinity").
    destruct (Nat.ltb 3 n0 && Nat.ltb n0 8) eqn:Hadj.
    + cbn [Nat.eqb orb]. intros H. injection H as Hv Hd.
      change (drop 3 body = "") in Hd. apply drop_nil_length in Hd.
      apply andb_prop in Hadj. destruct Hadj as [H3 _].
      apply Nat.ltb_lt in H3.
      pose proof (cpl_le_length body "infinity") as Hle. fold n0 in Hle. lia.
    + destruct (Nat.eqb n0 3) eqn:E3.
      * cbn [orb]. intros H. injection H as Hv Hd.
        apply Nat.eqb_eq in E3. rewrite E3 in Hd.
        destruct (three_letters body _ _ _ _ E3 Hd)
          as (c1 & c2 & c3 & Hb & H1 & H2 & H3).
        rewrite lower_i in H1. rewrite lower_n in H2. rewrite lower_f in H3.
        right. left. subst body.
        destruct (mem c "+-") eqn:Hs.
        -- exists (String c ""), c1, c2, c3. rewrite Hb. repeat split; auto.
           destruct (mem_sign_cases c Hs) as [-> | ->];
             unfold sign_piece; auto.
        -- exists "", c1, c2, c3. rewrite Hb. repeat split; auto.
           unfold sign_piece; auto.
      * destruct (Nat.eqb n0 8) eqn:E8; [|discriminate].
        intros _. right. right. unfold spelled_infinity.
        rewrite Hbody. exact E8.
  - destruct (mem c "nN") eqn:Hn; [|discriminate].
    destruct (Nat.eqb _ 3) eqn:E3; [|discriminate].
    intros H. injection H as Hv Hd. apply Nat.eqb_eq in E3.
    destruct (three_letters _ _ _ _ _ E3 Hd)
      as (c1 & c2 & c3 & Hb & H1 & H2 & H3).
    rewrite lower_n in H1. rewrite lower_a in H2. rewrite lower_n in H3.
    left. exists c1, c2, c3. auto.
Qed.

Lemma word_bytes :
  forall c,
    (mem c "nN" = true ->
       mem c "+-" = false /\ mem c "iI" = false /\ scan_byte c = true
       /\ Ascii.eqb "p" c = false /\ mem c "xX" = false)
    /\ (mem c "iI" = true ->
       mem c "+-" = false /\ mem c "nN" = false /\ scan_byte c = true
       /\ Ascii.eqb "p" c = false)
    /\ (mem c "aA" = true -> Ascii.eqb "p" c = false /\ scan_byte c = true)
    /\ (mem c "fF" = true -> Ascii.eqb "p" c = false /\ scan_byte c = true)
    /\ (mem c "+-" = true ->
       Ascii.eqb "p" c = false /\ mem c "nN" = false /\ scan_byte c = true).
Proof. by_bytes. Qed.

Lemma floatToken_nan (num tail b : string) :
  nan_word num ->
  fmt.floatToken (fmt.SS b (num ++ tail)) = (tt, fmt.SS num tail).
Proof.
  intros (c1 & c2 & c3 & -> & H1 & H2 & H3).
  unfold fmt.floatToken. cbn [fmt.rd String.append]. tok.
  rewrite (accept_yes _ _ _ _ H1), (accept_yes _ _ _ _ H2),
          (accept_yes _ _ _ _ H3).
  reflexivity.
Qed.

Lemma floatToken_inf (num tail b : string) :
  inf_word num ->
  fmt.floatToken (fmt.SS b (num ++ tail)) = (tt, fmt.SS num tail).
Proof.
  intros (sgn & c1 & c2 & c3 & -> & Hsgn & H1 & H2 & H3).
  destruct (proj1 (proj2 (word_bytes c1)) H1) as (Hs & Hn & _).
  unfold fmt.floatToken. cbn [fmt.rd]. tok.
  destruct Hsgn as [->|[->| ->]]; cbn [String.append].
  - rewrite accept_no by (cbn [stops]; now rewrite Hn).
    rewrite accept_no by (cbn [stops]; unfold fmt.sign; now rewrite Hs).
    cbn [fmt.buf fmt.rd].
    rewrite (accept_yes _ _ _ _ H1), (accept_yes _ _ _ _ H2),
            (accept_yes _ _ _ _ H3).
    reflexivity.
  - rewrite accept_no by reflexivity.
    rewrite accept_yes by reflexivity. cbn [fmt.buf fmt.rd].
    rewrite (accept_yes _ _ _ _ H1), (accept_yes _ _ _ _ H2),
            (accept_yes _ _ _ _ H3).
    reflexivity.
  - rewrite accept_no by reflexivity.
    rewrite accept_yes by reflexivity. cbn [fmt.buf fmt.rd].
    rewrite (accept_yes _ _ _ _ H1), (accept_yes _ _ _ _ H2),
            (accept_yes _ _ _ _ H3).
    reflexivity.
Qed.

(** *** [ParseFloat] on a number followed by a stopper *)

Lemma unread_is_error (s : string) (f : float64) (c : ascii) (r : string)
  (err : option strconv.NumError) :
  strconv.atof64 s = (f, String c r, err) ->
  snd (strconv.ParseFloat s) = Some strconv.ErrSyntax.
Proof.
  intros H. unfold strconv.ParseFloat. rewrite H.
  destruct err as [[|]|]; reflexivity.
Qed.

Lemma ParseFloat_ok_cases (num : string) (v : float64) :
  strconv.ParseFloat num = (v, None) ->
  strconv.special num = Some (v, "")
  \/ (strconv.special num = None
      /\ exists x, strconv.readFloat num = Some (x, "")).
Proof.
  unfold strconv.ParseFloat, strconv.atof64.
  destruct (strconv.special num) as [[f rest]|].
  - destruct rest; intros H; inversion H; subst; auto.
  - destruct (strconv.readFloat num) as [[x rest]|].
    + destruct rest.
      * intros _. right. split; [reflexivity|]. now exists x.
      * destruct (Float64.is_inf _); discriminate.
    + destruct num; discriminate.
Qed.

Lemma stopper_head (tail : string) :
  stopper tail -> exists c r, tail = String c r /\ scan_byte c = false.
Proof. destruct tail as [|c r]; [contradiction|]. intros H. now exists c, r. Qed.

Lemma ParseFloat_nan_stopper (num tail : string) :
  nan_word num -> stopper tail ->
  snd (strconv.ParseFloat (num ++ tail)) = Some strconv.ErrSyntax.
Proof.
  intros (c1 & c2 & c3 & -> & H1 & H2 & H3) Ht.
  destruct (stopper_head tail Ht) as (c & r & -> & Hc).
  apply (unread_is_error _ Float64.NaN c r None).
  unfold strconv.atof64, strconv.special. cbn [String.append].
  destruct (proj1 (word_bytes c1) H1) as (-> & -> & _).
  cbn [orb]. rewrite H1.
  cbn [strconv.commonPrefixLenIgnoreCase].
  rewrite lower_n, H1, lower_a, H2, lower_n, H3. reflexivity.
Qed.

Lemma ParseFloat_inf_stopper (num tail : string) :
  inf_word num -> stopper tail ->
  snd (strconv.ParseFloat (num ++ tail)) = Some strconv.ErrSyntax.
Proof.
  intros (sgn & c1 & c2 & c3 & -> & Hsgn & H1 & H2 & H3) Ht.
  destruct (stopper_head tail Ht) as (c & r & -> & Hc).
  destruct (stopper_byte c Hc) as (_ & _ & _ & _ & _ & _ & _ & Hi & _).
  assert (Hcpl : strconv.commonPrefixLenIgnoreCase
                   (String c1 (String c2 (String c3 (String c r)))) "infinity"
                 = 3%nat).
  { cbn [strconv.commonPrefixLenIgnoreCase].
    now rewrite lower_i, H1, lower_n, H2, lower_f, H3, lower_i, Hi. }
  destruct (proj1 (proj2 (word_bytes c1)) H1) as (Hs & _).
  destruct Hsgn as [->|[->| ->]]; cbn [String.append].
  - apply (unread_is_error _ (S754_infinity false) c r None).
    unfold strconv.atof64, strconv.special. rewrite Hs, H1. cbn [orb].
    rewrite Hcpl. cbn -[Ascii.eqb].
    assert (E : Ascii.eqb c1 "-" = false).
    { cbn [mem] in Hs. apply orb_false_elim in Hs. destruct Hs as [_ Hs].
      now apply orb_false_elim in Hs. }
    now rewrite E.
  - apply (unread_is_error _ (S754_infinity false) c r None).
    unfold strconv.atof64, strconv.special.
    change (mem "+" "+-") with true. cbn [orb]. rewrite Hcpl. reflexivity.
  - apply (unread_is_error _ (S754_infinity true) c r None).
    unfold strconv.atof64, strconv.special.
    change (mem "-" "+-") with true. cbn [orb]. rewrite Hcpl. reflexivity.
Qed.

Lemma led_append (s t : string) : led s -> led (s ++ t).
Proof. destruct s; [contradiction | exact (fun H => H)]. Qed.

Lemma shaped_led (hex : bool) (num : string) :
  shaped hex num ->
  exists sgn body, num = sgn ++ body /\ sign_piece sgn /\ led body.
Proof.
  intros (sgn & pre & ip & dfp & ex & -> & Hsgn & Hpre & Hip & Hdfp & Hex & Hne).
  exists sgn, (pre ++ ip ++ dfp ++ ex). repeat split; auto.
  apply (body_led hex); auto.
  destruct hex; [now right | now left].
Qed.

Lemma special_led (sgn body : string) :
  sign_piece sgn -> led body -> strconv.special (sgn ++ body) = None.
Proof.
  intros Hsgn Hled. destruct body as [|c r]; [contradiction|].
  cbn [led] in Hled.
  destruct (lead_byte_facts c Hled) as (Hs & Hn & Hi & _).
  unfold fmt.sign in Hs.
  assert (Hcpl : strconv.commonPrefixLenIgnoreCase (String c r) "infinity" = O).
  { cbn [strconv.commonPrefixLenIgnoreCase]. now rewrite lower_i, Hi. }
  unfold strconv.special.
  destruct Hsgn as [->|[->| ->]]; cbn [String.append].
  - now rewrite Hs, Hi, Hn.
  - change (mem "+" "+-") with true. cbn [orb]. now rewrite Hcpl.
  - change (mem "-" "+-") with true. cbn [orb]. now rewrite Hcpl.
Qed.

Lemma ParseFloat_shaped_stopper (hex : bool) (num tail : string) :
  shaped hex num -> stopper tail ->
  snd (strconv.ParseFloat (num ++ tail)) = Some strconv.ErrSyntax.
Proof.
  intros Hsh Ht.
  destruct (shaped_led hex num Hsh) as (sgn & body & -> & Hsgn & Hled).
  destruct (stopper_head tail Ht) as (c & r & -> & Hc).
  assert (Hsp : strconv.special ((sgn ++ body) ++ String c r) = None).
  { rewrite append_assoc. apply special_led; [exact Hsgn|].
    now apply led_append. }
  destruct (strconv.readFloat ((sgn ++ body) ++ String c r))
    as [[x rest]|] eqn:Hrf.
  - destruct rest as [|c' r'].
    + apply readFloat_shaped, shaped_scan_bytes in Hrf.
      destruct Hrf as [Hall _]. rewrite forallb_str_append in Hall.
      cbn [forallb_str] in Hall. rewrite Hc in Hall.
      rewrite andb_false_r in Hall. discriminate.
    + apply (unread_is_error _ (strconv.value x) c' r'
               (if Float64.is_inf (strconv.value x)
                then Some strconv.ErrRange else None)).
      unfold strconv.atof64. now rewrite Hsp, Hrf.
  - unfold strconv.ParseFloat, strconv.atof64. rewrite Hsp, Hrf.
    destruct sgn, body; reflexivity.
Qed.

(** *** [SkipSpace] and [convertFloat] on a number *)

Lemma SkipSpace_scan (c : ascii) (r : string) :
  scan_byte c = true -> fmt.SkipSpace (String c r) = inr (String c r).
Proof.
  intros Hc. destruct (scan_not_space c Hc) as (Hnl & H).
  cbv zeta in H. destruct H as (H1 & H2 & H3 & H4 & H5).
  unfold fmt.SkipSpace. cbn [String.length fmt.SkipSpace_loop].
  rewrite Hnl.
  assert (E : fmt.spaceLen (String c r) = O).
  { unfold fmt.spaceLen. rewrite H1.
    destruct r as [|c1 [|c2 r]]; [reflexivity| |];
      rewrite H2; cbn [andb]; [reflexivity|].
    now rewrite H3, H4, H5. }
  now rewrite E.
Qed.

Lemma convertFloat_ok (num : string) (v : float64) :
  strconv.ParseFloat num = (v, None) ->
  fmt.indexByte "p" num = None \/ fmt.hasX num = true ->
  fmt.convertFloat num = inr v.
Proof.
  intros Hv H. unfold fmt.convertFloat.
  destruct (fmt.indexByte "p" num) as [p|]; [|now rewrite Hv].
  destruct H as [H|H]; [discriminate|]. rewrite H. cbn [negb].
  now rewrite Hv.
Qed.

(** *** [Sscanf] on a number followed by a stopper *)

Lemma accepted_number (num : string) (v : float64) :
  strconv.ParseFloat num = (v, None) ->
  spelled_infinity num = false ->
  nan_word num \/ inf_word num \/ exists hex, shaped hex num.
Proof.
  intros Hv Hinf.
  destruct (ParseFloat_ok_cases num v Hv) as [Hsp|(_ & x & Hrf)].
  - destruct (special_words num v Hsp) as [H|[H|H]]; auto. congruence.
  - right. right. exists (strconv.hex x). now apply readFloat_shaped.
Qed.

Lemma number_first_byte (num : string) :
  nan_word num \/ inf_word num \/ (exists hex, shaped hex num) ->
  exists c r, num = String c r /\ scan_byte c = true.
Proof.
  intros [(c1 & c2 & c3 & -> & H1 & _)
         |[(sgn & c1 & c2 & c3 & -> & Hsgn & H1 & _)|(hex & Hsh)]].
  - exists c1, (String c2 (String c3 "")). split; [reflexivity|].
    now apply (proj1 (word_bytes c1)).
  - destruct Hsgn as [->|[->| ->]]; cbn [String.append].
    + eexists _, _. split; [reflexivity|].
      now apply (proj1 (proj2 (word_bytes c1))).
    + eexists _, _. split; reflexivity.
    + eexists _, _. split; reflexivity.
  - destruct (shaped_scan_bytes hex num Hsh) as [Hall Hne].
    destruct num as [|c r]; [congruence|]. exists c, r.
    cbn [forallb_str] in Hall. apply andb_prop in Hall. tauto.
Qed.

Lemma number_converts (num : string) :
  nan_word num \/ inf_word num \/ (exists hex, shaped hex num) ->
  fmt.indexByte "p" num = None \/ fmt.hasX num = true.
Proof.
  intros [(c1 & c2 & c3 & -> & H1 & H2 & H3)
         |[(sgn & c1 & c2 & c3 & -> & Hsgn & H1 & H2 & H3)|(hex & Hsh)]].
  - left. cbn [fmt.indexByte].
    destruct (proj1 (word_bytes c1) H1) as (_ & _ & _ & -> & _).
    destruct (proj1 (proj2 (proj2 (word_bytes c2))) H2) as (-> & _).
    destruct (proj1 (word_bytes c3) H3) as (_ & _ & _ & -> & _).
    reflexivity.
  - left. apply no_p. rewrite forallb_str_append. cbn [forallb_str].
    destruct (proj1 (proj2 (word_bytes c1)) H1) as (_ & _ & _ & ->).
    destruct (proj1 (word_bytes c2) H2) as (_ & _ & _ & -> & _).
    destruct (proj1 (proj2 (proj2 (proj2 (word_bytes c3)))) H3) as (-> & _).
    destruct Hsgn as [->|[->| ->]]; reflexivity.
  - pose proof (shaped_convert hex num Hsh) as H. destruct hex; auto.
Qed.

(** After a number that [ParseFloat] accepts, and a byte that belongs
    to no number, [Sscanf] has read the number and goes on with the
    literal part of the format. *)
Lemma Sscanf_number (num after lit : string) (v arg : float64) :
  strconv.ParseFloat num = (v, None) ->
  spelled_infinity num = false ->
  stopper after ->
  fmt.Sscanf (num ++ after) lit arg
  = (v, match fmt.advance lit after with
        | inl e => Some e
        | inr _ => None
        end).
Proof.
  intros Hv Hinf Hst.
  pose proof (accepted_number num v Hv Hinf) as Hnum.
  destruct (number_first_byte num Hnum) as (c & r & Hcr & Hc).
  assert (Htok : fmt.floatToken (fmt.SS "" (num ++ after))
                 = (tt, fmt.SS num after)).
  { destruct Hnum as [H|[H|(hex & H)]].
    - now apply floatToken_nan.
    - now apply floatToken_inf.
    - now apply (floatToken_shaped hex). }
  unfold fmt.Sscanf.
  assert (Hsk : fmt.SkipSpace (num ++ after) = inr (num ++ after)).
  { rewrite Hcr. cbn [String.append]. now apply SkipSpace_scan. }
  rewrite Hsk.
  assert (Hne : exists c' r', num ++ after = String c' r').
  { rewrite Hcr. cbn [String.append]. eauto. }
  destruct Hne as (c' & r' & Hne). rewrite Hne at 1. rewrite Htok.
  cbn [fmt.buf fmt.rd].
  rewrite (convertFloat_ok num v Hv (number_converts num Hnum)).
  destruct (fmt.advance lit after); reflexivity.
Qed.

Lemma ParseFloat_number_stopper (num after : string) (v : float64) :
  strconv.ParseFloat num = (v, None) ->
  spelled_infinity num = false ->
  stopper after ->
  snd (strconv.ParseFloat (num ++ after)) = Some strconv.ErrSyntax.
Proof.
  intros Hv Hinf Hst.
  destruct (accepted_number num v Hv Hinf) as [H|[H|(hex & H)]].
  - now apply ParseFloat_nan_stopper.
  - now apply ParseFloat_inf_stopper.
  - now apply (ParseFloat_shaped_stopper hex).
Qed.

(** ** The download limit: numbers and suffixes *)

(** Go folds [1.25*1e3] and the like exactly; the products are
    float64 numbers, so folding first or multiplying in float64 gives
    the same constant. *)
Lemma folded_constant (s : suffix) :
  f64 (cmul (Const 125 (-2)) (power s))
  = (f64 (Const 125 (-2)) * multiplier s)%f64.
Proof. destruct s; vm_compute; reflexivity. Qed.

(** What [Sscanf] returns does not depend on the old value of the
    variable it fills, except that a failed scan leaves it there. *)
Lemma Sscanf_arg (l lit : string) (a a' : float64) :
  snd (fmt.Sscanf l lit a) = snd (fmt.Sscanf l lit a')
  /\ (snd (fmt.Sscanf l lit a) = None ->
      fst (fmt.Sscanf l lit a) = fst (fmt.Sscanf l lit a')).
Proof.
  unfold fmt.Sscanf.
  destruct (fmt.SkipSpace l) as [e|inp]; [split; [reflexivity|discriminate]|].
  destruct inp as [|c r]; [split; [reflexivity|discriminate]|].
  destruct (fmt.floatToken _) as [u s].
  destruct (fmt.convertFloat (fmt.buf s)) as [e|v];
    [split; [reflexivity|discriminate]|].
  destruct (fmt.advance lit (fmt.rd s)); split; reflexivity.
Qed.

Lemma suffixed_form_spec (s : suffix) (l : string) (a : float64) :
  suffixed_form s l
  = match fmt.Sscanf l (letter s) a with
    | (v, None) => Some (spec_rate (Some s) v)
    | _ => None
    end.
Proof.
  unfold suffixed_form.
  destruct (Sscanf_arg l (letter s) (Float64.zero false) a) as [H1 H2].
  destruct (fmt.Sscanf l (letter s) (Float64.zero false)) as [v e].
  destruct (fmt.Sscanf l (letter s) a) as [v' e'].
  cbn [fst snd] in *. subst e'. destruct e; [reflexivity|].
  now rewrite (H2 eq_refl).
Qed.

(** [limiterFromString] tries the plain form and then the suffixes K,
    M, G, T, and returns the limiter of the first form that
    matches. *)
Lemma limiterFromString_first_success (l : string) :
  Limit.limiterFromString l = spec_parse l.
Proof.
  unfold Limit.limiterFromString, spec_parse.
  destruct (String.eqb l ""); [reflexivity|].
  unfold forms. cbn [first_success]. unfold plain_form.
  destruct (strconv.ParseFloat l) as [v0 [e0|]]; [|reflexivity].
  rewrite (suffixed_form_spec K l v0). cbn [letter].
  destruct (fmt.Sscanf l "K" v0) as [v1 [e1|]];
    [|unfold spec_rate; now rewrite <- (folded_constant K)].
  rewrite (suffixed_form_spec M l v1). cbn [letter].
  destruct (fmt.Sscanf l "M" v1) as [v2 [e2|]];
    [|unfold spec_rate; now rewrite <- (folded_constant M)].
  rewrite (suffixed_form_spec G l v2). cbn [letter].
  destruct (fmt.Sscanf l "G" v2) as [v3 [e3|]];
    [|unfold spec_rate; now rewrite <- (folded_constant G)].
  rewrite (suffixed_form_spec T l v3). cbn [letter].
  destruct (fmt.Sscanf l "T" v3) as [v4 [e4|]];
    [|unfold spec_rate; now rewrite <- (folded_constant T)].
  reflexivity.
Qed.

Lemma letter_stopper (s : suffix) (t : string) : stopper (letter s ++ t).
Proof. destruct s; reflexivity. Qed.

Lemma plain_form_after_letter (num t : string) (v : float64) (s : suffix) :
  strconv.ParseFloat num = (v, None) ->
  spelled_infinity num = false ->
  plain_form (num ++ letter s ++ t) = None.
Proof.
  intros Hv Hinf. unfold plain_form.
  pose proof (ParseFloat_number_stopper num (letter s ++ t) v Hv Hinf
                (letter_stopper s t)) as H.
  destruct (strconv.ParseFloat (num ++ letter s ++ t)) as [f e].
  cbn [snd] in H. now subst e.
Qed.

Lemma suffixed_form_after_letter (num t : string) (v : float64) (s s' : suffix) :
  strconv.ParseFloat num = (v, None) ->
  spelled_infinity num = false ->
  suffixed_form s' (num ++ letter s ++ t)
  = if String.eqb (letter s') (letter s) then Some (spec_rate (Some s) v)
    else None.
Proof.
  intros Hv Hinf. unfold suffixed_form.
  rewrite (Sscanf_number num (letter s ++ t) (letter s') v _ Hv Hinf
             (letter_stopper s t)).
  destruct s, s'; reflexivity.
Qed.

Lemma number_not_empty (num : string) (v : float64) :
  strconv.ParseFloat num = (v, None) -> String.eqb num "" = false.
Proof. destruct num; [discriminate | reflexivity]. Qed.

(** A number and a suffix letter, whatever follows the letter: the
    rate is that of the number times the multiplier of the letter. *)
Lemma limiterFromString_suffixed (num t : string) (v : float64) (s : suffix) :
  strconv.ParseFloat num = (v, None) ->
  spelled_infinity num = false ->
  Limit.limiterFromString (num ++ letter s ++ t)
  = (Some (rate.NewLimiter (spec_rate (Some s) v) readChunkSize), None).
Proof.
  intros Hv Hinf. rewrite limiterFromString_first_success. unfold spec_parse.
  assert (Hne : String.eqb (num ++ letter s ++ t) "" = false).
  { destruct num; [discriminate | reflexivity]. }
  rewrite Hne. unfold forms. cbn [first_success].
  rewrite (plain_form_after_letter num t v s Hv Hinf).
  rewrite !(suffixed_form_after_letter num t v s _ Hv Hinf).
  destruct s; reflexivity.
Qed.

(** C1: a string that [ParseFloat] reads as the number [v] gives the
    rate 1.25 x v / 8; followed by one of the letters K, M, G, T it
    gives 1.25 x multiplier x v / 8 with the multipliers 1e3, 1e6,
    1e9, 1e12; the burst is the read chunk of 8192 bytes; and
    [limiterFromString] is the first match among the plain form and
    the suffixed forms in the order K, M, G, T.  (The word infinity
    spelled in full is a number for [ParseFloat] only: the scanner of
    the suffixed forms reads its first three letters.) *)
Theorem rate_of_number (num : string) (v : float64) :
  strconv.ParseFloat num = (v, None) ->
  Limit.limiterFromString num
  = (Some (rate.NewLimiter (spec_rate None v) readChunkSize), None)
  /\ (spelled_infinity num = false ->
      forall s : suffix,
        Limit.limiterFromString (num ++ letter s)
        = (Some (rate.NewLimiter (spec_rate (Some s) v) readChunkSize), None))
  /\ readChunkSize = 8192
  /\ (forall l, Limit.limiterFromString l = spec_parse l).
Proof.
  intros Hv. split; [|split; [|split]].
  - rewrite limiterFromString_first_success. unfold spec_parse.
    rewrite (number_not_empty num v Hv). unfold forms. cbn [first_success].
    unfold plain_form. rewrite Hv. reflexivity.
  - intros Hinf s.
    pose proof (limiterFromString_suffixed num "" v s Hv Hinf) as H.
    now rewrite append_nil_r in H.
  - reflexivity.
  - apply limiterFromString_first_success.
Qed.

Lemma rate_of_number_witness :
  strconv.ParseFloat "2.5" = (two_and_a_half, None)
  /\ Limit.limiterFromString "2.5M"
     = (Some (rate.NewLimiter (Float64.of_Z 390625) 8192), None).
Proof.
  assert (H : strconv.ParseFloat "2.5" = (two_and_a_half, None))
    by (vm_compute; reflexivity).
  split; [exact H|].
  exact (proj1 (proj2 (rate_of_number "2.5" two_and_a_half H)) eq_refl M).
Defined.

(** C10: what follows the suffix letter is not looked at:
    [limiterFromString] succeeds on a number, a letter K, M, G or T
    and any further bytes, with the rate and burst of the number and
    the letter alone. *)
Theorem trailing_bytes_ignored (num t : string) (v : float64) (s : suffix) :
  strconv.ParseFloat num = (v, None) ->
  spelled_infinity num = false ->
  Limit.limiterFromString (num ++ letter s ++ t)
  = (Some (rate.NewLimiter (spec_rate (Some s) v) readChunkSize), None)
  /\ Limit.limiterFromString (num ++ letter s ++ t)
     = Limit.limiterFromString (num ++ letter s).
Proof.
  intros Hv Hinf.
  pose proof (limiterFromString_suffixed num t v s Hv Hinf) as Ht.
  pose proof (limiterFromString_suffixed num "" v s Hv Hinf) as H0.
  rewrite append_nil_r in H0. split; [exact Ht | now rewrite Ht, H0].
Qed.

Lemma trailing_bytes_ignored_witness :
  strconv.ParseFloat "1" = (one, None)
  /\ Limit.limiterFromString "1Kabc" = Limit.limiterFromString "1K"
  /\ Limit.limiterFromString "1Kabc"
     = (Some (rate.NewLimiter (spec_rate (Some K) one) 8192), None).
Proof.
  assert (H : strconv.ParseFloat "1" = (one, None)) by (vm_compute; reflexivity).
  split; [exact H|].
  destruct (trailing_bytes_ignored "1" "abc" one K H eq_refl) as [H1 H2].
  split; [exact H2 | exact H1].
Defined.

(** The word infinity is read by the plain form and by no suffixed
    form. *)
Example infinity_with_suffix :
  fst (Limit.limiterFromString "infinity")
  = Some (rate.NewLimiter Float64.PInf 8192)
  /\ Limit.limiterFromString "infinityK" = (None, Some Limit.FailedToParse)
  /\ fst (Limit.limiterFromString "infK")
     = Some (rate.NewLimiter Float64.PInf 8192).
Proof. repeat split; vm_compute; reflexivity. Qed.

(* ================================================================= *)
(** * Further properties of the code *)

(* ================================================================= *)
(** * Further properties of the code *)

(** ** The server *)

Section ServerTrace.
Variable write_loop : list io_result -> Z -> Z * list event * ending.

Lemma accept_loop_records (l : list (error + conn_env)) started :
  snd (fst (for_loop (fun _ => true) (accept_body write_loop) l started))
  = map accept_record l.
Proof.
  revert started. induction l as [|a rest IH]; intros started; simpl.
  - reflexivity.
  - destruct a as [e|c]; simpl.
    + specialize (IH started).
      destruct (for_loop _ _ rest started) as [[s2 ev2] e2].
      simpl in *. now rewrite IH.
    + specialize (IH (started ++ [session write_loop c])%list).
      destruct (for_loop _ _ rest _) as [[s2 ev2] e2].
      simpl in *. now rewrite IH.
Qed.

(** X1: once listening, [serverMain] logs one record per answer of
    [Accept], an error record for a failed one, and goes on: every
    accepted connection gets its goroutine, the listener is never
    closed and [serverMain] is still in its loop. *)
Theorem accept_errors_are_survived (env : server_env) :
  setup_ok env ->
  server_events (serverMain write_loop env)
  = Glog INFO Listening :: map accept_record (accepts env)
  /\ ~ In Close (server_events (serverMain write_loop env))
  /\ sessions (serverMain write_loop env)
     = map (session write_loop) (accepted (accepts env))
  /\ server_end (serverMain write_loop env) = Blocked.
Proof.
  intros Hs.
  destruct (serverMain_serves_all write_loop env Hs) as [Hse Hend].
  assert (Hev : server_events (serverMain write_loop env)
                = Glog INFO Listening :: map accept_record (accepts env)).
  { destruct Hs as (H1 & H2 & H3 & H4). unfold serverMain.
    rewrite H1, H2, H3, H4.
    pose proof (accept_loop_blocked write_loop (accepts env) []) as Hb.
    pose proof (accept_loop_records (accepts env) []) as Hr.
    destruct (for_loop _ _ (accepts env) []) as [[st ev] e].
    simpl in *. subst. reflexivity. }
  repeat split; auto.
  rewrite Hev. intros [H|H]; [discriminate|].
  apply in_map_iff in H. destruct H as ([e|c] & H & _); discriminate.
Qed.

(** X2: with [-s], a setup step that fails ends the process: one
    fatal record naming the first step that failed (the steps after
    it are not tried), exit status 1, no connection accepted, and the
    client code is not reached. *)
Theorem server_setup_failure
  (clientMain : context -> flags -> client_env -> client_run)
  (fl : flags) (senv : server_env) (cenv : client_env) :
  serve fl = true ->
  ~ setup_ok senv ->
  exists m,
    failed_step senv m
    /\ main (serverMain write_loop) clientMain fl senv cenv
       = Process (Some (ServerRun [Glog FATAL m] [] (Exited 1))) None.
Proof.
  intros Hserve Hno. unfold main, serverMain, failed_step. rewrite Hserve.
  destruct (random_open senv) as [e1|] eqn:H1.
  { exists (FatalRandomOpen e1). split; [left; eauto | reflexivity]. }
  destruct (random_read senv) as [e2|] eqn:H2.
  { exists (FatalRandomRead e2). split; [right; left; split; eauto | reflexivity]. }
  destruct (key_pair senv) as [e3|] eqn:H3.
  { exists (FatalKeyPair e3).
    split; [right; right; left; repeat split; eauto | reflexivity]. }
  destruct (listen senv) as [e4|] eqn:H4.
  { exists (FatalListen e4).
    split; [right; right; right; repeat split; eauto | reflexivity]. }
  exfalso. apply Hno. repeat split; assumption.
Qed.

End ServerTrace.

Lemma accept_errors_are_survived_witness :
  server_events (Seconds.serverMain flaky_listener)
  = [Glog INFO Listening;
     Glog ERROR (ErrorAccepting (other_error "handshake failed"));
     Glog INFO Accepted;
     Glog ERROR (ErrorAccepting (net_Error true));
     Glog INFO Accepted]
  /\ List.length (sessions (Seconds.serverMain flaky_listener)) = 2%nat.
Proof.
  assert (Hs : setup_ok flaky_listener) by (repeat split).
  destruct (accept_errors_are_survived Seconds.write_loop flaky_listener Hs)
    as (Hev & _ & Hse & _).
  split; [exact Hev|].
  unfold Seconds.serverMain. rewrite Hse. reflexivity.
Defined.

Lemma server_setup_failure_witness :
  Seconds.main (Flags true "" 30 "") no_key one_second_run
  = Process
      (Some (ServerRun
               [Glog FATAL
                  (FatalKeyPair
                     (other_error "open : no such file or directory"))]
               [] (Exited 1)))
      None.
Proof.
  assert (Hno : ~ setup_ok no_key)
    by (intros (_ & _ & H & _); discriminate H).
  destruct (server_setup_failure Seconds.write_loop Seconds.clientMain
              (Flags true "" 30 "") no_key one_second_run eq_refl Hno)
    as (m & Hm & Hrun).
  destruct Hm as [(e & H & _) | [(_ & e & H & _)
                 | [(_ & _ & e & H & Hm) | (_ & _ & H & _)]]];
    try discriminate H.
  inversion H; subst e m. exact Hrun.
Defined.

(** ** The goroutine of a connection *)

Lemma seconds_write_body_sending (nBytes : Z) (r : io_result) :
  Forall sending (snd (fst (Seconds.write_body nBytes r))).
Proof.
  unfold Seconds.write_body.
  destruct (io_err r) as [e|]; [|repeat constructor].
  destruct (as_ApplicationError e) as [c|]; [destruct (c =? 0)|];
    repeat constructor.
Qed.

Lemma limit_write_body_sending (nBytes : Z) (r : io_result) :
  Forall sending (snd (fst (Limit.write_body nBytes r))).
Proof.
  unfold Limit.write_body.
  destruct (io_err r) as [e|]; repeat constructor.
Qed.

Lemma seconds_write_body_stop (nBytes : Z) (r : io_result) (e : ending) :
  snd (Seconds.write_body nBytes r) = Stop e -> e = Returned.
Proof.
  unfold Seconds.write_body.
  destruct (io_err r) as [x|]; [|discriminate].
  destruct (as_ApplicationError x) as [c|]; [destruct (c =? 0)|];
    simpl; congruence.
Qed.

Lemma limit_write_body_stop (nBytes : Z) (r : io_result) (e : ending) :
  snd (Limit.write_body nBytes r) = Stop e -> e = Returned.
Proof.
  unfold Limit.write_body.
  destruct (io_err r) as [x|]; simpl; congruence.
Qed.

Section SessionShape.
Variable write_loop : list io_result -> Z -> Z * list event * ending.
Hypothesis loop_sends :
  forall ws n, Forall sending (snd (fst (write_loop ws n))).
Hypothesis loop_ends :
  forall ws n, snd (write_loop ws n) = Fell
               \/ snd (write_loop ws n) = Returned
               \/ snd (write_loop ws n) = Blocked.

Lemma session_shape (c : conn_env) :
  wound_up c (session write_loop c) \/ still_writing (session write_loop c).
Proof.
  unfold session, wound_up, still_writing.
  destruct (open_stream c) as [e|].
  - left. split; [reflexivity|].
    exists [Glog ERROR (ErrorOpeningStream e)], 0.
    split; [repeat constructor | reflexivity].
  - pose proof (loop_sends (writes c) 0) as Hs.
    pose proof (loop_ends (writes c) 0) as He.
    destruct (write_loop (writes c) 0) as [[nBytes ev] e].
    simpl in Hs, He.
    destruct He as [->|[->| ->]].
    + left. split; [reflexivity|]. exists ev, nBytes. split; [exact Hs|].
      simpl. reflexivity.
    + left. split; [reflexivity|]. exists ev, nBytes. split; [exact Hs|].
      simpl. reflexivity.
    + right. split; [reflexivity|]. exists ev. split; [exact Hs|reflexivity].
Qed.

End SessionShape.

(** X3: the goroutine of a connection either is still in its write
    loop, having logged neither a byte count nor closed the stream,
    or it has returned: then the stream was closed if and only if it
    had been opened, and the record of the byte count is the last
    event.  It never ends the process.  This holds for the sender
    without and with the byte cap. *)
Theorem session_winds_up (c : conn_env) :
  (wound_up c (Seconds.session c) \/ still_writing (Seconds.session c))
  /\ (wound_up c (Limit.session c) \/ still_writing (Limit.session c)).
Proof.
  split; apply session_shape.
  - intros ws n. apply for_loop_events. intros s i.
    apply seconds_write_body_sending.
  - intros ws n.
    apply (for_loop_ending _ _
             (fun e => e = Fell \/ e = Returned \/ e = Blocked)); auto.
    intros s i e H. right. left. exact (seconds_write_body_stop s i e H).
  - intros ws n. apply for_loop_events. intros s i.
    apply limit_write_body_sending.
  - intros ws n.
    apply (for_loop_ending _ _
             (fun e => e = Fell \/ e = Returned \/ e = Blocked)); auto.
    intros s i e H. right. left. exact (limit_write_body_stop s i e H).
Qed.

(** X4: the sender of the revision with [-seconds] has no byte cap:
    as long as no write fails it stays in its loop, whatever the
    number of bytes written; it is the receiver that ends the
    transfer. *)
Theorem seconds_sender_has_no_cap (ws : list io_result) :
  Forall no_error ws ->
  Seconds.session (Conn None ws)
  = (Glog INFO OpeningStream :: map Write ws, Blocked).
Proof.
  intros Hws. unfold Seconds.session, session. simpl.
  pose proof (seconds_write_loop_prefix ws [] 0 Hws) as H.
  rewrite app_nil_r in H. rewrite H.
  unfold Seconds.write_loop. simpl. rewrite app_nil_r. reflexivity.
Qed.

Lemma seconds_sender_has_no_cap_witness :
  Seconds.session (Conn None full_writes)
  = (Glog INFO OpeningStream :: map Write full_writes, Blocked)
  /\ totalData < sum_n full_writes.
Proof.
  split.
  - apply (seconds_sender_has_no_cap full_writes).
    apply Forall_forall. intros w Hw. apply repeat_spec in Hw. now subst w.
  - unfold full_writes. rewrite sum_n_repeat, totalData_value.
    rewrite Z2Nat.id by lia. simpl. lia.
Defined.

(** X5: [main] of the revision with [-b] and of the revision with
    [io.Copy] and statistics: with [-s] the process is a server and
    never a client, without [-s] it is a client only. *)
Theorem one_role_in_the_other_revisions
  (fl : flags) (senv : server_env) (cenv : client_env) :
  Limit.main fl senv cenv
  = (if serve fl
     then Process (Some (Limit.serverMain senv)) None
     else Process None (Some (Limit.clientMain Background fl cenv)))
  /\ Copy.main fl senv cenv
     = (if serve fl
        then Process (Some (Copy.serverMain senv)) None
        else Process None (Some (Copy.clientMain Background fl cenv))).
Proof.
  split; apply main_one_role.
Qed.

(** ** The receivers: what is printed, and when *)

Lemma stdout_lines_app (a b : list event) :
  stdout_lines (a ++ b) = (stdout_lines a ++ stdout_lines b)%list.
Proof. apply flat_map_app. Qed.

Lemma stdout_lines_none (ev : list event) :
  Forall not_stdout ev -> stdout_lines ev = [].
Proof.
  induction 1 as [|e ev He _ IH]; [reflexivity|].
  simpl. rewrite IH. destruct e; simpl in *; tauto.
Qed.

Lemma limit_read_loop_not_stdout lim s_nil its n :
  Forall not_stdout
    (snd (fst (for_loop (fun _ => true) (Limit.read_body lim s_nil) its n))).
Proof.
  apply for_loop_events. intros s it. unfold Limit.read_body.
  destruct (wait it); [repeat constructor|].
  destruct s_nil; [repeat constructor|].
  destruct (io_err (read it)) as [e|]; [destruct (is_EOF e)|];
    repeat constructor.
Qed.

Lemma copy_loop_not_stdout its :
  Forall not_stdout (snd (fst (Copy.io_Copy its))).
Proof.
  apply for_loop_events. intros s it. unfold Copy.copy_body.
  destruct (io_err (read it)) as [e|]; [destruct (is_EOF e)|];
    repeat constructor.
Qed.

Lemma initial_loop_not_stdout its :
  Forall not_stdout (snd (fst (Initial.io_Copy its))).
Proof.
  apply for_loop_events. intros s it. unfold Initial.copy_body.
  destruct (io_err (read it)) as [e|]; [destruct (is_EOF e)|];
    repeat constructor.
Qed.

Lemma qlog_events_not_stdout (fl : flags) :
  Forall not_stdout
    (if String.eqb (qlogDir fl) "" then [] else [Glog INFO QlogEnabled]).
Proof. destruct (String.eqb _ _); repeat constructor. Qed.

(** The lines of a list of events built with [++] from parts known to
    print nothing and from single events. *)
Ltac lines :=
  unfold reports_once; cbn [fst snd];
  rewrite ?stdout_lines_app;
  repeat match goal with
         | H : Forall not_stdout ?ev |- _ => rewrite (stdout_lines_none ev H)
         end;
  cbn [stdout_lines flat_map app List.length report];
  try (split; [lia | congruence]); try reflexivity.

Lemma seconds_reports_once ctx fl env :
  reports_once (Seconds.clientMain ctx fl env).
Proof.
  pose proof (qlog_events_not_stdout fl) as Hq.
  unfold Seconds.clientMain.
  destruct (split_host_port env); [lines|].
  destruct (dial env); [lines|].
  destruct (accept_uni_stream env); [lines|].
  destruct (set_read_deadline env); [lines|].
  pose proof (seconds_read_loop_not_stdout ctx (iterations env) 0) as Hl.
  destruct (Seconds.read_loop ctx (iterations env) 0) as [[n ev] e].
  simpl in Hl. destruct e; lines.
Qed.

Lemma limit_reports_once ctx fl env :
  reports_once (Limit.clientMain ctx fl env).
Proof.
  pose proof (qlog_events_not_stdout fl) as Hq.
  unfold Limit.clientMain.
  destruct (split_host_port env); [lines|].
  destruct (dial env); [lines|].
  assert (Ha : Forall not_stdout
                 (snd (match accept_uni_stream env with
                       | Some e => (true, [Glog ERROR (FatalAcceptStream e)])
                       | None => (false, [])
                       end))).
  { destruct (accept_uni_stream env); repeat constructor. }
  destruct (match accept_uni_stream env with
            | Some e => (true, [Glog ERROR (FatalAcceptStream e)])
            | None => (false, [])
            end) as [s_nil ev1].
  simpl in Ha.
  destruct (Limit.limiterFromString (dLimit fl)) as [u [err|]]; [lines|].
  assert (Hu : Forall not_stdout
                 (snd (match u with
                       | Some u =>
                           (u, [Glog INFO (LimiterIs (rate.limit u) (rate.burst u))])
                       | None => (rate.NewLimiter rate.Inf 0, [])
                       end))).
  { destruct u; repeat constructor. }
  destruct (match u with
            | Some u =>
                (u, [Glog INFO (LimiterIs (rate.limit u) (rate.burst u))])
            | None => (rate.NewLimiter rate.Inf 0, [])
            end) as [lim ev2].
  simpl in Hu.
  pose proof (limit_read_loop_not_stdout lim s_nil (iterations env) 0) as Hl.
  destruct (for_loop _ _ (iterations env) 0) as [[n ev] e].
  simpl in Hl. destruct e; lines.
Qed.

Lemma copy_reports_once ctx fl env :
  reports_once (Copy.clientMain ctx fl env).
Proof.
  pose proof (qlog_events_not_stdout fl) as Hq.
  unfold Copy.clientMain.
  destruct (split_host_port env); [lines|].
  destruct (dial env); [lines|].
  destruct (accept_uni_stream env); [lines|].
  pose proof (copy_loop_not_stdout (iterations env)) as Hl.
  destruct (Copy.io_Copy (iterations env)) as [[st ev] e].
  simpl in Hl. destruct e; try lines.
  destruct (snd st); lines.
Qed.

Lemma initial_prints_nothing ctx fl env :
  stdout_lines (fst (Initial.clientMain ctx fl env)) = [].
Proof.
  unfold Initial.clientMain.
  destruct (split_host_port env); [reflexivity|].
  destruct (dial env); [reflexivity|].
  destruct (accept_uni_stream env); [reflexivity|].
  pose proof (initial_loop_not_stdout (iterations env)) as Hl.
  destruct (Initial.io_Copy (iterations env)) as [[st ev] e].
  simpl in Hl. destruct e; try lines.
  destruct st; lines.
Qed.

(** X6: whatever the environment answers, a receiver prints at most
    one line of statistics, and only in a run in which [clientMain]
    returns: never before a fatal exit or a panic.  The first
    revision prints nothing at all. *)
Theorem statistics_once (ctx : context) (fl : flags) (env : client_env) :
  reports_once (Seconds.clientMain ctx fl env)
  /\ reports_once (Limit.clientMain ctx fl env)
  /\ reports_once (Copy.clientMain ctx fl env)
  /\ stdout_lines (fst (Initial.clientMain ctx fl env)) = [].
Proof.
  split; [apply seconds_reports_once|].
  split; [apply limit_reports_once|].
  split; [apply copy_reports_once | apply initial_prints_nothing].
Qed.

(** ** The deferred calls of the receiver with [-seconds] *)





(** ** A context that is cancelled *)




(** ** A stream that was not accepted *)



(** ** The limiter of the receiver with [-b] *)



Lemma chosen_within_burst (l : string) (u : option rate.Limiter)
  (err : option Limit.parse_error) :
  Limit.limiterFromString l = (u, err) ->
  match u with
  | Some lim => rate.burst lim = readChunkSize
  | None => True
  end.
Proof.
  rewrite limiterFromString_first_success. unfold spec_parse.
  destruct (String.eqb l ""); [intros [= <- <-]; exact I|].
  destruct (first_success forms l); intros [= <- <-]; [reflexivity | exact I].
Qed.

Lemma limit_read_loop_within_burst lim s_nil its n :
  exceeds_burst lim readChunkSize = false ->
  Forall within_burst
    (snd (fst (for_loop (fun _ => true) (Limit.read_body lim s_nil) its n))).
Proof.
  intros Hb. apply for_loop_events. intros s it. unfold Limit.read_body.
  destruct (wait it); [repeat constructor; exact Hb|].
  destruct s_nil; [repeat constructor; exact Hb|].
  destruct (io_err (read it)) as [e|]; [destruct (is_EOF e)|];
    repeat constructor; exact Hb.
Qed.

(** X11: the receiver reads in chunks of [readChunkSize] bytes and
    every limiter it can end up with admits that many tokens at once:
    the limiter made from [-b] has a burst of exactly
    [readChunkSize], and the default one has the rate [rate.Inf],
    for which the burst is not looked at.  So no [WaitN] of the
    receiver asks for more than the burst: the test
    [n > burst && limit != Inf] of [WaitN] is false in every call. *)
Theorem waits_within_burst (ctx : context) (fl : flags) (env : client_env) :
  Forall within_burst (fst (Limit.clientMain ctx fl env)).
Proof.
  assert (Hq : Forall within_burst
                 (if String.eqb (qlogDir fl) "" then []
                  else [Glog INFO QlogEnabled])).
  { destruct (String.eqb _ _); repeat constructor. }
  unfold Limit.clientMain.
  destruct (split_host_port env); [repeat constructor|].
  destruct (dial env);
    [cbn [fst]; apply Forall_app; split; [exact Hq | repeat constructor]|].
  assert (Ha : Forall within_burst
                 (snd (match accept_uni_stream env with
                       | Some e => (true, [Glog ERROR (FatalAcceptStream e)])
                       | None => (false, [])
                       end))).
  { destruct (accept_uni_stream env); repeat constructor. }
  destruct (match accept_uni_stream env with
            | Some e => (true, [Glog ERROR (FatalAcceptStream e)])
            | None => (false, [])
            end) as [s_nil ev1].
  simpl in Ha.
  pose proof (chosen_within_burst (dLimit fl)) as Hu.
  destruct (Limit.limiterFromString (dLimit fl)) as [u [err|]].
  { cbn [fst]. repeat (apply Forall_app; split); auto. repeat constructor. }
  specialize (Hu u None eq_refl).
  assert (Hlim : exceeds_burst
                   (fst (match u with
                         | Some u =>
                             (u, [Glog INFO (LimiterIs (rate.limit u) (rate.burst u))])
                         | None => (rate.NewLimiter rate.Inf 0, [])
                         end)) readChunkSize = false
                 /\ Forall within_burst
                      (snd (match u with
                            | Some u =>
                                (u, [Glog INFO (LimiterIs (rate.limit u) (rate.burst u))])
                            | None => (rate.NewLimiter rate.Inf 0, [])
                            end))).
  { destruct u as [u|]; cbn [fst snd].
    - split; [|repeat constructor]. unfold exceeds_burst. rewrite Hu.
      now rewrite Z.ltb_irrefl.
    - split; [reflexivity | constructor]. }
  destruct (match u with
            | Some u =>
                (u, [Glog INFO (LimiterIs (rate.limit u) (rate.burst u))])
            | None => (rate.NewLimiter rate.Inf 0, [])
            end) as [lim ev2].
  cbn [fst snd] in Hlim. destruct Hlim as [Hlim Hev2].
  pose proof (limit_read_loop_within_burst lim s_nil (iterations env) 0 Hlim)
    as Hl.
  destruct (for_loop _ _ (iterations env) 0) as [[n ev] e].
  simpl in Hl.
  destruct e; cbn [fst];
    repeat (apply Forall_app; split); auto; repeat constructor.
Qed.

(** X12: [limiterFromString] returns a limiter or an error and never
    both; it returns neither exactly for the empty string, and the
    burst of every limiter it returns is [readChunkSize]. *)
Theorem limiter_or_error (l : string) :
  match Limit.limiterFromString l with
  | (None, None) => l = ""
  | (Some u, None) => l <> "" /\ rate.burst u = readChunkSize
  | (None, Some _) => l <> ""
  | (Some _, Some _) => False
  end.
Proof.
  rewrite limiterFromString_first_success. unfold spec_parse.
  destruct (String.eqb_spec l "") as [->|Hne]; [reflexivity|].
  destruct (first_success forms l); [split; [exact Hne | reflexivity] | exact Hne].
Qed.

(** ** The receiver with [io.Copy] and statistics *)







(** ** The read deadline *)

(** X14: the duration handed to [SetReadDeadline] is the value of
    [-seconds] in nanoseconds exactly when that value lies between
    -9223372036 and 9223372036; the int64 product wraps around
    outside, and up to 18446744073 seconds it comes out negative,
    a deadline in the past. *)
Theorem read_timeout_range (s : Z) :
  - 2 ^ 63 <= s < 2 ^ 63 ->
  (read_timeout s = s * 1000000000 <-> -9223372036 <= s <= 9223372036)
  /\ (9223372036 < s <= 18446744073 -> read_timeout s < 0).
Proof.
  intros Hs. unfold read_timeout, time_Second, int64.
  assert (P63 : 2 ^ 63 = 9223372036854775808) by reflexivity.
  assert (P64 : 2 ^ 64 = 18446744073709551616) by reflexivity.
  rewrite P63, P64 in *. split; [split|].
  - intros H.
    pose proof (Z.mod_pos_bound (s * 1000000000 + 9223372036854775808)
                  18446744073709551616 ltac:(lia)) as Hb.
    lia.
  - intros H. rewrite Z.mod_small; lia.
  - intros H.
    replace (s * 1000000000 + 9223372036854775808)
      with ((s * 1000000000 - 9223372036854775808)
            + 1 * 18446744073709551616) by lia.
    rewrite Z.mod_add by lia. rewrite Z.mod_small; lia.
Qed.

Lemma read_timeout_range_witness :
  read_timeout 30 = 30 * 1000000000
  /\ read_timeout 9223372037 < 0.
Proof.
  assert (H30 : - 2 ^ 63 <= 30 < 2 ^ 63) by (simpl; lia).
  assert (Hbig : - 2 ^ 63 <= 9223372037 < 2 ^ 63) by (simpl; lia).
  split.
  - apply (proj1 (read_timeout_range 30 H30)). lia.
  - apply (proj2 (read_timeout_range 9223372037 Hbig)). lia.
Defined.

(** ** The statistics are not negative *)

Section ForLoopState.
Context {St I : Type}.
Variable cond : St -> bool.
Variable body : St -> I -> St * list event * control.
Variable P : St -> Prop.

(** What every pass through the body keeps holds when the loop
    stops. *)
Lemma for_loop_state (inputs : list I) (st : St) :
  P st ->
  (forall s i, P s -> P (fst (fst (body s i)))) ->
  P (fst (fst (for_loop cond body inputs st))).
Proof.
  intros H0 Hb. revert st H0.
  induction inputs as [|i rest IH]; intros st H0; simpl;
    destruct (cond st); simpl; auto.
  specialize (Hb st i H0). destruct (body st i) as [[st1 ev] c].
  simpl in Hb. destruct c; simpl; auto.
  specialize (IH st1 Hb). destruct (for_loop cond body rest st1) as [[st2 ev2] e].
  exact IH.
Qed.

End ForLoopState.

Lemma seconds_counter_range ctx its :
  0 <= fst (fst (Seconds.read_loop ctx its 0)) < 2 ^ 64.
Proof.
  apply (for_loop_state _ _ (fun n => 0 <= n < 2 ^ 64)).
  - assert (P : 2 ^ 64 = 18446744073709551616) by reflexivity. lia.
  - intros n it Hn. unfold Seconds.read_body.
    destruct (Done_not_nil ctx && done_closed it); [exact Hn|].
    pose proof (uint64_range (n + uint64 (io_n (read it)))) as Hr.
    destruct (io_err (read it)) as [e|]; [|exact Hr].
    destruct (is_EOF e); [exact Hr|].
    destruct (as_net_Error e) as [[|]|]; exact Hr.
Qed.

Lemma seconds_line ctx fl env line :
  In (Stdout line) (fst (Seconds.clientMain ctx fl env)) ->
  line = received_line (fst (fst (Seconds.read_loop ctx (iterations env) 0)))
           (durS (since_start env))
           (kbits_per_sec (fst (fst (Seconds.read_loop ctx (iterations env) 0)))
              (since_start env)).
Proof.
  intros Hin.
  pose proof (seconds_read_loop_not_stdout ctx (iterations env) 0) as Hns.
  unfold Seconds.clientMain in Hin.
  destruct (split_host_port env) as [e0|]; [split_in Hin|].
  destruct (String.eqb (qlogDir fl) "");
    (destruct (dial env) as [e1|]; [split_in Hin|]);
    (destruct (accept_uni_stream env) as [e2|]; [split_in Hin|]);
    (destruct (set_read_deadline env) as [e3|]; [split_in Hin|]);
    destruct (Seconds.read_loop ctx (iterations env) 0) as [[n ev] e];
    simpl in Hns; simpl fst;
    pose proof (Forall_not_stdout ev line Hns) as Hev;
    destruct e; split_in Hin;
    unfold report in Hin; injection Hin as <-; reflexivity.
Qed.

(** X15: the byte counter of the receiver stays a uint64, and with
    an elapsed time that is not negative neither the seconds nor the
    throughput it prints carry a minus sign: each is a float64 with
    a clear sign bit, or NaN. *)
Theorem statistics_are_not_negative ctx fl env line :
  0 <= since_start env ->
  In (Stdout line) (fst (Seconds.clientMain ctx fl env)) ->
  exists n,
    0 <= n < 2 ^ 64
    /\ line = received_line n (durS (since_start env))
                (kbits_per_sec n (since_start env))
    /\ Float64.sign_clear (durS (since_start env))
    /\ Float64.sign_clear (kbits_per_sec n (since_start env)).
Proof.
  intros Hd Hin.
  exists (fst (fst (Seconds.read_loop ctx (iterations env) 0))).
  pose proof (seconds_counter_range ctx (iterations env)) as Hn.
  assert (Hs : Float64.sign_clear (durS (since_start env))).
  { unfold durS. apply div_sign_clear;
      [now apply of_Z_sign_clear | vm_compute; reflexivity]. }
  repeat split; try lia; auto.
  - now apply (seconds_line ctx fl env line).
  - unfold kbits_per_sec. apply div_sign_clear; [|exact Hs].
    apply numerator_sign_clear. lia.
Qed.

Lemma statistics_are_not_negative_witness :
  exists n,
    0 <= n < 2 ^ 64
    /\ "Received: 125000 bytes in 1.000 seconds (1000.000 Kbits/s)"
         ++ String (ascii_of_nat 10) EmptyString
       = received_line n (durS 1000000000) (kbits_per_sec n 1000000000)
    /\ Float64.sign_clear (durS 1000000000)
    /\ Float64.sign_clear (kbits_per_sec n 1000000000).
Proof.
  apply (statistics_are_not_negative Background (Flags false "" 30 "")
           one_second_run).
  - simpl. lia.
  - vm_compute. do 17 right. left. reflexivity.
Defined.

(** ** The download limit: what else is accepted and rejected *)

Lemma foreign_stopper (t : string) : foreign t -> stopper t.
Proof. destruct t as [|c r]; [exact (fun H => H) | intros [H _]; exact H]. Qed.

Lemma foreign_no_letter (t : string) (s : suffix) :
  foreign t -> fmt.advance (letter s) t = inl fmt.ErrNoMatch.
Proof.
  destruct t as [|c r]; [contradiction|]. intros [_ H].
  cbn [mem] in H.
  apply orb_false_elim in H. destruct H as [HK H].
  apply orb_false_elim in H. destruct H as [HM H].
  apply orb_false_elim in H. destruct H as [HG H].
  apply orb_false_elim in H. destruct H as [HT _].
  rewrite Ascii.eqb_sym in HK, HM, HG, HT.
  destruct s; cbn [letter fmt.advance];
    [rewrite HK | rewrite HM | rewrite HG | rewrite HT]; reflexivity.
Qed.

(** X16: a number, the word infinity in full apart, followed by a
    byte that occurs in no such number (a byte other than a digit, a
    sign, the point, the underscore and the letters a to f, i, n, p
    and x in either case) and that is none of the letters K, M, G, T
    is rejected, whatever comes after that byte: a lower-case k, m,
    g or t, or a blank between the number and the letter. *)
Theorem unknown_suffix_is_rejected (num after : string) (v : float64) :
  strconv.ParseFloat num = (v, None) ->
  spelled_infinity num = false ->
  foreign after ->
  Limit.limiterFromString (num ++ after) = (None, Some Limit.FailedToParse).
Proof.
  intros Hv Hinf Hf.
  pose proof (foreign_stopper after Hf) as Hst.
  rewrite limiterFromString_first_success. unfold spec_parse.
  assert (Hne : String.eqb (num ++ after) "" = false).
  { destruct num; [discriminate | reflexivity]. }
  rewrite Hne. unfold forms. cbn [first_success].
  assert (Hp : plain_form (num ++ after) = None).
  { unfold plain_form.
    pose proof (ParseFloat_number_stopper num after v Hv Hinf Hst) as H.
    destruct (strconv.ParseFloat (num ++ after)) as [f e].
    cbn [snd] in H. now subst e. }
  assert (Hs : forall s, suffixed_form s (num ++ after) = None).
  { intros s. unfold suffixed_form.
    rewrite (Sscanf_number num after (letter s) v _ Hv Hinf Hst).
    now rewrite (foreign_no_letter after s Hf). }
  now rewrite Hp, !Hs.
Qed.

Lemma unknown_suffix_is_rejected_witness :
  strconv.ParseFloat "2.5" = (two_and_a_half, None)
  /\ Limit.limiterFromString "2.5m" = (None, Some Limit.FailedToParse)
  /\ Limit.limiterFromString "2.5 M" = (None, Some Limit.FailedToParse).
Proof.
  assert (H : strconv.ParseFloat "2.5" = (two_and_a_half, None))
    by (vm_compute; reflexivity).
  split; [exact H|]. split.
  - apply (unknown_suffix_is_rejected "2.5" "m" two_and_a_half H eq_refl).
    split; reflexivity.
  - apply (unknown_suffix_is_rejected "2.5" " M" two_and_a_half H eq_refl).
    split; reflexivity.
Defined.

(** *** The scanner at the end of the input

    A scanner that only asks for bytes of numbers reads the same
    token whether its input ends or goes on with a stopper. *)

Section Stable.
Variable tail : string.
Hypothesis tail_stops : stopper tail.

Lemma stable_ret {A} (a : A) : stable tail (fmt.ret a).
Proof. intros b x. reflexivity. Qed.

Lemma stable_bind {A B} (m : fmt.tok A) (k : A -> fmt.tok B) :
  stable tail m -> (forall a, stable tail (k a)) -> stable tail (fmt.bind m k).
Proof.
  intros Hm Hk b x. unfold fmt.bind. rewrite Hm.
  destruct (m (fmt.SS b x)) as [a [b' x']]. cbn [fmt.buf fmt.rd].
  apply Hk.
Qed.

Lemma stable_accept (ok : string) :
  forallb_str scan_byte ok = true -> stable tail (fmt.accept ok).
Proof.
  intros Hok b x. unfold fmt.accept. cbn [fmt.rd fmt.buf].
  destruct x as [|c r]; cbn [String.append].
  - pose proof (stopper_stops ok tail tail_stops Hok) as Hs.
    destruct tail as [|c r]; [reflexivity|]. cbn [stops] in Hs.
    destruct (mem c ok); [discriminate | reflexivity].
  - destruct (mem c ok); reflexivity.
Qed.

Lemma stable_acceptMany (ok : string) :
  forallb_str scan_byte ok = true -> stable tail (fmt.acceptMany ok).
Proof.
  intros Hok b x. unfold fmt.acceptMany. cbn [fmt.rd fmt.buf].
  revert b. induction x as [|c r IH]; intros b; cbn [String.append].
  - pose proof (stopper_stops ok tail tail_stops Hok) as Hs.
    destruct tail as [|c r]; [reflexivity|]. cbn [stops] in Hs.
    cbn [fmt.accept_loop]. destruct (mem c ok); [discriminate | reflexivity].
  - cbn [fmt.accept_loop]. destruct (mem c ok); [|reflexivity].
    specialize (IH (b ++ String c "")). inversion IH as [E].
    rewrite E. reflexivity.
Qed.

Lemma stable_andthen (a b : fmt.tok bool) :
  stable tail a -> stable tail b -> stable tail (fmt.andthen a b).
Proof.
  intros Ha Hb. unfold fmt.andthen. apply stable_bind; [exact Ha|].
  intros [|]; [exact Hb | apply stable_ret].
Qed.

Lemma stable_numToken : stable tail fmt.numToken.
Proof.
  unfold fmt.numToken, fmt.fracToken, fmt.expToken.
  apply stable_bind;
    [apply stable_andthen; apply stable_accept; reflexivity|].
  intros hx.
  repeat first
    [ apply stable_ret
    | apply stable_accept; destruct hx; reflexivity
    | apply stable_acceptMany; destruct hx; reflexivity
    | apply stable_bind; [|intros [|]]
    | apply stable_bind; [|intros []] ].
Qed.

Lemma floatToken_stable (b x : string) :
  fmt.floatToken (fmt.SS b (x ++ tail))
  = let (a, s) := fmt.floatToken (fmt.SS b x) in
    (a, fmt.SS (fmt.buf s) (fmt.rd s ++ tail)).
Proof.
  unfold fmt.floatToken. cbn [fmt.rd].
  assert (H : stable tail
    (fmt.bind (fmt.andthen (fmt.accept "nN")
                 (fmt.andthen (fmt.accept "aA") (fmt.accept "nN")))
       (fun nan =>
          if nan then fmt.ret tt
          else fmt.bind (fmt.accept fmt.sign)
                 (fun _ =>
                    fmt.bind (fmt.andthen (fmt.accept "iI")
                                (fmt.andthen (fmt.accept "nN") (fmt.accept "fF")))
                      (fun inf => if inf then fmt.ret tt else fmt.numToken))))).
  { apply stable_bind.
    - repeat apply stable_andthen; apply stable_accept; reflexivity.
    - intros [|]; [apply stable_ret|].
      apply stable_bind; [apply stable_accept; reflexivity|]. intros _.
      apply stable_bind.
      + repeat apply stable_andthen; apply stable_accept; reflexivity.
      + intros [|]; [apply stable_ret | apply stable_numToken]. }
  exact (H "" x).
Qed.

End Stable.

Lemma append_same_tail (r tail : string) : r ++ tail = tail -> r = "".
Proof.
  intros H. apply (f_equal String.length) in H.
  rewrite length_append in H. destruct r; [reflexivity | simpl in H; lia].
Qed.

(** At the end of the input [floatToken] has read the whole number. *)
Lemma floatToken_at_end (num b : string) (v : float64) :
  strconv.ParseFloat num = (v, None) ->
  spelled_infinity num = false ->
  fmt.floatToken (fmt.SS b num) = (tt, fmt.SS num "").
Proof.
  intros Hv Hinf.
  assert (Hk : stopper "K") by reflexivity.
  assert (Htok : fmt.floatToken (fmt.SS b (num ++ "K")) = (tt, fmt.SS num "K")).
  { destruct (accepted_number num v Hv Hinf) as [H|[H|(hex & H)]].
    - now apply floatToken_nan.
    - now apply floatToken_inf.
    - now apply (floatToken_shaped hex). }
  rewrite (floatToken_stable "K" Hk b num) in Htok.
  destruct (fmt.floatToken (fmt.SS b num)) as [[] [b' r']].
  cbn [fmt.buf fmt.rd] in Htok. inversion Htok as [[Hb Hr]].
  now rewrite (append_same_tail r' "K" Hr).
Qed.

(** A number alone does not match a format with a suffix. *)
Lemma Sscanf_number_alone (num : string) (v arg : float64) (s : suffix) :
  strconv.ParseFloat num = (v, None) ->
  spelled_infinity num = false ->
  fmt.Sscanf num (letter s) arg = (v, Some fmt.ErrUnexpectedEOF).
Proof.
  intros Hv Hinf.
  pose proof (accepted_number num v Hv Hinf) as Hnum.
  destruct (number_first_byte num Hnum) as (c & r & Hcr & Hc).
  pose proof (floatToken_at_end num "" v Hv Hinf) as Htok.
  pose proof (convertFloat_ok num v Hv (number_converts num Hnum)) as Hconv.
  subst num. unfold fmt.Sscanf.
  rewrite (SkipSpace_scan c r Hc). cbv iota.
  rewrite Htok. cbn [fmt.buf fmt.rd]. rewrite Hconv.
  destruct s; reflexivity.
Qed.

(** *** Blanks before the number *)

Lemma blank_byte :
  forall c, blank c = true ->
    Ascii.eqb c (ascii_of_nat 10) = false
    /\ (let b := Z.of_N (N_of_ascii c) in
        ((9 <=? b) && (b <=? 13) || (b =? 32)) = true)
    /\ mem c "+-" = false /\ mem c "iI" = false /\ mem c "nN" = false
    /\ Ascii.eqb c "+" = false /\ Ascii.eqb c "-" = false
    /\ Ascii.eqb c "0" = false /\ Ascii.eqb c "." = false
    /\ strconv.is_mant false c = false.
Proof. by_bytes. Qed.

Lemma SkipSpace_blanks (ws x : string) :
  forallb_str blank ws = true ->
  fmt.SkipSpace (ws ++ x) = fmt.SkipSpace x.
Proof.
  induction ws as [|c ws IH]; [reflexivity|].
  cbn [forallb_str]. intros H. apply andb_prop in H. destruct H as [Hc Hws].
  destruct (blank_byte c Hc) as (Hnl & Hsp & _). cbv zeta in Hsp.
  unfold fmt.SkipSpace in *. cbn [String.append String.length fmt.SkipSpace_loop].
  rewrite Hnl. unfold fmt.spaceLen. rewrite Hsp. cbn [drop].
  now apply IH.
Qed.

Lemma ParseFloat_blank (c : ascii) (r : string) :
  blank c = true ->
  snd (strconv.ParseFloat (String c r)) = Some strconv.ErrSyntax.
Proof.
  intros Hc.
  destruct (blank_byte c Hc) as (_ & _ & Hs & Hi & Hn & Hp & Hm & H0 & Hd & Hmant).
  assert (Hsp : strconv.special (String c r) = None).
  { unfold strconv.special. now rewrite Hs, Hi, Hn. }
  assert (Hrf : strconv.readFloat (String c r) = None).
  { unfold strconv.readFloat, opt_sign. rewrite Hp, Hm.
    assert (Hh : strconv.hex_prefix (String c r) = (false, String c r)).
    { unfold strconv.hex_prefix. destruct r as [|x [|y r]]; try reflexivity.
      now rewrite H0. }
    rewrite Hh. cbn [span]. rewrite Hmant, Hd. reflexivity. }
  unfold strconv.ParseFloat, strconv.atof64. now rewrite Hsp, Hrf.
Qed.

Lemma Sscanf_blanks (ws x lit : string) (arg : float64) :
  forallb_str blank ws = true ->
  fmt.Sscanf (ws ++ x) lit arg = fmt.Sscanf x lit arg.
Proof.
  intros Hws. unfold fmt.Sscanf. now rewrite (SkipSpace_blanks ws x Hws).
Qed.

(** X17: blanks before the number are skipped by the suffixed forms
    and by them only: a number with a suffix is accepted after
    blanks, with the rate it has without them, and the same number
    without a suffix is rejected after a blank. *)
Theorem blanks_before_the_number
  (ws num t : string) (v : float64) (s : suffix) :
  forallb_str blank ws = true ->
  ws <> "" ->
  strconv.ParseFloat num = (v, None) ->
  spelled_infinity num = false ->
  Limit.limiterFromString (ws ++ num ++ letter s ++ t)
  = (Some (rate.NewLimiter (spec_rate (Some s) v) readChunkSize), None)
  /\ Limit.limiterFromString (ws ++ num)
     = (None, Some Limit.FailedToParse).
Proof.
  intros Hws Hne Hv Hinf.
  destruct ws as [|c ws]; [congruence|].
  assert (Hc : blank c = true).
  { cbn [forallb_str] in Hws. now apply andb_prop in Hws. }
  assert (Hplain : forall y, plain_form (String c ws ++ y) = None).
  { intros y. unfold plain_form. cbn [String.append].
    pose proof (ParseFloat_blank c (ws ++ y) Hc) as H.
    destruct (strconv.ParseFloat (String c (ws ++ y))) as [f e].
    cbn [snd] in H. now subst e. }
  assert (Hsuf : forall s' y, suffixed_form s' (String c ws ++ y)
                              = suffixed_form s' y).
  { intros s' y. unfold suffixed_form. now rewrite Sscanf_blanks. }
  split.
  - rewrite limiterFromString_first_success. unfold spec_parse.
    change (String.eqb (String c ws ++ num ++ letter s ++ t) "") with false.
    unfold forms. cbn [first_success].
    rewrite Hplain, !Hsuf.
    rewrite !(suffixed_form_after_letter num t v s _ Hv Hinf).
    destruct s; reflexivity.
  - rewrite limiterFromString_first_success. unfold spec_parse.
    change (String.eqb (String c ws ++ num) "") with false.
    unfold forms. cbn [first_success].
    rewrite Hplain, !Hsuf. unfold suffixed_form.
    now rewrite !(Sscanf_number_alone num v _ _ Hv Hinf).
Qed.

Lemma blanks_before_the_number_witness :
  strconv.ParseFloat "2.5" = (two_and_a_half, None)
  /\ Limit.limiterFromString "  2.5M"
     = (Some (rate.NewLimiter (Float64.of_Z 390625) 8192), None)
  /\ Limit.limiterFromString "  2.5" = (None, Some Limit.FailedToParse).
Proof.
  assert (H : strconv.ParseFloat "2.5" = (two_and_a_half, None))
    by (vm_compute; reflexivity).
  assert (Hne : "  " <> "") by discriminate.
  split; [exact H|].
  destruct (blanks_before_the_number "  " "2.5" "" two_and_a_half M
              eq_refl Hne H eq_refl) as [H1 H2].
  split; [exact H1 | exact H2].
Defined.

(* ================================================================= *)
(** ** The address of the server: [net.SplitHostPort] *)

Lemma take_drop (n : nat) (s : string) : take n s ++ drop n s = s.
Proof.
  revert s. induction n as [|n IH]; intros s; [reflexivity|].
  destruct s as [|c s]; [reflexivity|]. simpl. now rewrite IH.
Qed.

Lemma drop_drop (a b : nat) (s : string) : drop a (drop b s) = drop (b + a) s.
Proof.
  revert s. induction b as [|b IH]; intros s; [reflexivity|].
  destruct s as [|c s]; [now destruct a | simpl; apply IH].
Qed.

Lemma lacks_nil (c : ascii) : lacks c "".
Proof. reflexivity. Qed.

Lemma lacks_cons (c d : ascii) (s : string) :
  lacks c (String d s) <-> Ascii.eqb c d = false /\ lacks c s.
Proof.
  unfold lacks. cbn [fmt.indexByte].
  destruct (Ascii.eqb c d); [split; [discriminate | intros [H _]; discriminate]|].
  destruct (fmt.indexByte c s); cbn [option_map];
    split; try discriminate; auto; intros [_ H]; discriminate.
Qed.

Lemma lacks_append (c : ascii) (a b : string) :
  lacks c (a ++ b) <-> lacks c a /\ lacks c b.
Proof.
  induction a as [|d a IH]; cbn [String.append].
  - split; [intros H; split; [apply lacks_nil | exact H] | intros [_ H]; exact H].
  - rewrite !lacks_cons, IH. tauto.
Qed.

Lemma indexByte_found (c : ascii) (a r : string) :
  lacks c a -> fmt.indexByte c (a ++ String c r) = Some (String.length a).
Proof.
  induction a as [|d a IH]; cbn [String.append fmt.indexByte String.length].
  - now rewrite Ascii.eqb_refl.
  - intros H. apply lacks_cons in H. destruct H as [Hd Ha].
    now rewrite Hd, (IH Ha).
Qed.

Lemma indexByte_split (c : ascii) (s : string) (k : nat) :
  fmt.indexByte c s = Some k ->
  s = take k s ++ String c (drop (S k) s) /\ lacks c (take k s).
Proof.
  revert k. induction s as [|d s IH]; intros k; [discriminate|].
  cbn [fmt.indexByte]. destruct (Ascii.eqb_spec c d) as [->|Hne].
  - intros [= <-]. split; [reflexivity | apply lacks_nil].
  - destruct (fmt.indexByte c s) as [j|]; [|discriminate].
    cbn [option_map]. intros [= <-]. destruct (IH j eq_refl) as [Hs Hl].
    cbn [take drop String.append]. split; [f_equal; exact Hs|].
    apply lacks_cons. split; [now apply Ascii.eqb_neq | exact Hl].
Qed.

Lemma LastIndex_none (c : ascii) (s : string) :
  net.LastIndexByteString s c = None <-> lacks c s.
Proof.
  induction s as [|d s IH]; [split; reflexivity|].
  cbn [net.LastIndexByteString]. rewrite lacks_cons.
  destruct (net.LastIndexByteString s c) as [i|].
  - split; [discriminate|]. intros [_ H]. apply IH in H. discriminate.
  - destruct (Ascii.eqb c d); [split; [discriminate | intros [H _]; discriminate]|].
    split; [|reflexivity]. intros _. split; [reflexivity | now apply IH].
Qed.

Lemma LastIndex_found (c : ascii) (a r : string) :
  lacks c r ->
  net.LastIndexByteString (a ++ String c r) c = Some (String.length a).
Proof.
  intros Hr. induction a as [|d a IH];
    cbn [String.append net.LastIndexByteString String.length].
  - rewrite (proj2 (LastIndex_none c r) Hr). now rewrite Ascii.eqb_refl.
  - now rewrite IH.
Qed.

Lemma LastIndex_split (c : ascii) (s : string) (i : nat) :
  net.LastIndexByteString s c = Some i ->
  s = take i s ++ String c (drop (S i) s) /\ lacks c (drop (S i) s).
Proof.
  revert i. induction s as [|d s IH]; intros i; [discriminate|].
  cbn [net.LastIndexByteString].
  destruct (net.LastIndexByteString s c) as [j|] eqn:Hj.
  - intros [= <-]. destruct (IH j eq_refl) as [Hs Hl].
    cbn [take drop String.append]. split; [f_equal; exact Hs | exact Hl].
  - destruct (Ascii.eqb_spec c d) as [->|Hne]; [|discriminate].
    intros [= <-]. cbn [take drop String.append].
    split; [now destruct s | destruct s; now apply LastIndex_none].
Qed.

Lemma byte_is_head (s : string) (c : ascii) :
  net.byte_is s 0 c = true -> s = String c (drop 1 s).
Proof.
  unfold net.byte_is. destruct s as [|d s]; [discriminate|].
  cbn [String.get drop]. intros H. apply Ascii.eqb_eq in H. now subst.
Qed.

Lemma append_inv_length (a b a' b' : string) :
  a ++ b = a' ++ b' -> String.length a = String.length a' ->
  a = a' /\ b = b'.
Proof.
  revert a'. induction a as [|c a IH]; intros [|c' a'] H Hl;
    simpl in *; try discriminate; [auto|].
  injection H as -> H. destruct (IH a' H) as [-> ->]; [lia | auto].
Qed.

Lemma drop_at (c : ascii) (n : nat) (s : string) :
  s = take n s ++ String c (drop (S n) s) -> drop n s = String c (drop (S n) s).
Proof.
  revert s. induction n as [|n IH]; intros s H.
  - destruct s as [|d s]; [discriminate|]. exact H.
  - destruct s as [|d s]; [discriminate|].
    cbn [take drop String.append] in *. injection H as H. now apply IH.
Qed.

(** X18: when [SplitHostPort] succeeds, the address is the host, a
    colon and the port, or the host in brackets, a colon and the
    port; the port holds no colon, neither part holds a bracket, and
    a host that is not in brackets holds no colon. *)
Theorem SplitHostPort_parts (hostport host port : string) :
  net.SplitHostPort hostport = (host, port, None) ->
  ((hostport = host ++ ":" ++ port /\ lacks ":" host)
   \/ hostport = "[" ++ host ++ "]:" ++ port)
  /\ lacks ":" port
  /\ lacks "[" host /\ lacks "]" host
  /\ lacks "[" port /\ lacks "]" port.
Proof.
  unfold net.SplitHostPort.
  destruct (net.LastIndexByteString hostport ":") as [i|] eqn:Hi;
    [|discriminate].
  destruct (net.byte_is hostport 0 "[") eqn:Hb.
  - pose proof (byte_is_head hostport "[" Hb) as Hhead.
    destruct hostport as [|h rest]; [discriminate|].
    cbn [drop] in Hhead. injection Hhead as ->. clear Hb.
    unfold net.IndexByteString. cbn [fmt.indexByte].
    change (Ascii.eqb "]" "[") with false. cbv iota.
    destruct (fmt.indexByte "]" rest) as [k|] eqn:Hk; [|discriminate].
    cbn [option_map].
    destruct (Nat.eqb (S (S k)) (String.length (String "[" rest)));
      [discriminate|].
    destruct (Nat.eqb_spec (S (S k)) i) as [Hki|Hki];
      [|destruct (net.byte_is _ _ _); intros H; discriminate H].
    subst i.
    change (drop 1 (String "[" rest)) with rest.
    change (drop (S (S k)) (String "[" rest)) with (drop (S k) rest).
    change (drop (S (S (S k))) (String "[" rest)) with (drop (S (S k)) rest).
    replace (S k - 1)%nat with k by lia.
    destruct (fmt.indexByte "[" rest) eqn:Hj; [discriminate|].
    destruct (fmt.indexByte "]" (drop (S k) rest)) eqn:Hk2; [discriminate|].
    intros [= <- <-].
    cbn [net.LastIndexByteString] in Hi.
    destruct (net.LastIndexByteString rest ":") as [j|] eqn:Hl;
      [|discriminate].
    injection Hi as ->.
    destruct (indexByte_split "]" rest k Hk) as [Hks Hkl].
    destruct (LastIndex_split ":" rest (S k) Hl) as [Hls Hll].
    pose proof (drop_at ":" (S k) rest Hls) as Hd.
    assert (Hrest : rest = take k rest ++ "]:" ++ drop (S (S k)) rest).
    { rewrite Hks at 1. cbn [String.append]. now rewrite Hd. }
    assert (Hj' : lacks "[" rest) by exact Hj.
    rewrite Hrest in Hj'. apply lacks_append in Hj'. destruct Hj' as [Hj1 Hj2].
    apply lacks_append in Hj2. destruct Hj2 as [_ Hj2].
    assert (Hk2' : lacks "]" (drop (S k) rest)) by exact Hk2.
    rewrite Hd in Hk2'. apply lacks_cons in Hk2'. destruct Hk2' as [_ Hk2'].
    repeat split; auto.
    right. cbn [String.append]. f_equal. exact Hrest.
  - destruct (LastIndex_split ":" hostport i Hi) as [Hsplit Hport].
    unfold net.IndexByteString.
    destruct (fmt.indexByte ":" (take i hostport)) eqn:Hc; [discriminate|].
    cbn [drop].
    destruct (fmt.indexByte "[" hostport) eqn:Hj; [discriminate|].
    destruct (fmt.indexByte "]" hostport) eqn:Hk; [discriminate|].
    intros [= <- <-].
    assert (Hj' : lacks "[" hostport) by exact Hj.
    assert (Hk' : lacks "]" hostport) by exact Hk.
    rewrite Hsplit in Hj', Hk'.
    apply lacks_append in Hj', Hk'.
    destruct Hj' as [Hj1 Hj2]. destruct Hk' as [Hk1 Hk2].
    apply lacks_cons in Hj2, Hk2.
    split; [left; split; [exact Hsplit | exact Hc]|].
    repeat split; tauto.
Qed.

Lemma SplitHostPort_parts_witness :
  ("[::1]:32850" = "::1" ++ ":" ++ "32850" /\ lacks ":" "::1"
   \/ "[::1]:32850" = "[" ++ "::1" ++ "]:" ++ "32850")
  /\ lacks ":" "32850"
  /\ lacks "[" "::1" /\ lacks "]" "::1"
  /\ lacks "[" "32850" /\ lacks "]" "32850".
Proof.
  apply (SplitHostPort_parts "[::1]:32850" "::1" "32850"). reflexivity.
Defined.

Lemma SplitHostPort_joined (host port : string) :
  lacks "[" host -> lacks "]" host ->
  lacks ":" port -> lacks "[" port -> lacks "]" port ->
  net.SplitHostPort (net.JoinHostPort host port) = (host, port, None).
Proof.
  intros Hob Hcb Hpc Hpo Hpb.
  assert (Hdrop : forall (a b : string) (n : nat),
            drop (String.length a + n) (a ++ b) = drop n b).
  { intros a b n. induction a as [|x a IH]; [reflexivity | exact IH]. }
  unfold net.JoinHostPort, net.IndexByteString.
  destruct (fmt.indexByte ":" host) as [c|] eqn:Hcolon.
  - set (j := "[" ++ host ++ "]:" ++ port).
    set (n := String.length host).
    assert (Ej : j = String "[" (host ++ String "]" (String ":" port)))
      by reflexivity.
    assert (Hi : net.LastIndexByteString j ":" = Some (S (S n))).
    { replace j with ((String "[" (host ++ "]")) ++ String ":" port).
      - rewrite LastIndex_found by exact Hpc.
        cbn [String.length]. rewrite length_append. cbn [String.length].
        f_equal. unfold n. lia.
      - cbn [String.append]. rewrite append_assoc. reflexivity. }
    assert (Hk : fmt.indexByte "]" j = Some (S n)).
    { rewrite Ej. cbn [fmt.indexByte].
      change (Ascii.eqb "]" "[") with false. cbv iota.
      now rewrite (indexByte_found "]" host (String ":" port) Hcb). }
    assert (Hlen : Nat.eqb (S (S n)) (String.length j) = false).
    { apply Nat.eqb_neq. rewrite Ej. cbn [String.length].
      rewrite length_append. cbn [String.length]. unfold n. lia. }
    assert (Hd1 : drop 1 j = host ++ String "]" (String ":" port))
      by reflexivity.
    assert (Hd2 : drop (S (S n)) j = String ":" port).
    { rewrite Ej. change (drop (S (S n)) (String "[" ?x)) with (drop (S n) x).
      replace (S n) with (String.length host + 1)%nat by (unfold n; lia).
      now rewrite Hdrop. }
    assert (Hd3 : drop (S (S (S n))) j = port).
    { rewrite Ej.
      change (drop (S (S (S n))) (String "[" ?x)) with (drop (S (S n)) x).
      replace (S (S n)) with (String.length host + 2)%nat by (unfold n; lia).
      now rewrite Hdrop. }
    unfold net.SplitHostPort. rewrite Hi.
    assert (Hb : net.byte_is j 0 "[" = true) by reflexivity.
    rewrite Hb. unfold net.IndexByteString. rewrite Hk, Hlen.
    rewrite Nat.eqb_refl.
    replace (S n - 1)%nat with n by lia.
    rewrite Hd1, Hd2, Hd3. unfold n. rewrite take_append.
    assert (H1 : fmt.indexByte "[" (host ++ String "]" (String ":" port)) = None).
    { apply lacks_append. split; [exact Hob|].
      apply lacks_cons. split; [reflexivity|].
      apply lacks_cons. split; [reflexivity | exact Hpo]. }
    assert (H2 : fmt.indexByte "]" (String ":" port) = None).
    { apply lacks_cons. split; [reflexivity | exact Hpb]. }
    now rewrite H1, H2.
  - set (j := host ++ ":" ++ port).
    set (n := String.length host).
    assert (Ej : j = host ++ String ":" port) by reflexivity.
    assert (Hi : net.LastIndexByteString j ":" = Some n).
    { rewrite Ej. now apply LastIndex_found. }
    assert (Hb : net.byte_is j 0 "[" = false).
    { rewrite Ej. unfold net.byte_is. destruct host as [|x a]; [reflexivity|].
      cbn [String.append String.get]. apply lacks_cons in Hob.
      destruct Hob as [Hx _]. now rewrite Ascii.eqb_sym. }
    assert (Ht : take n j = host) by (rewrite Ej; apply take_append).
    assert (Hd : drop (S n) j = port).
    { rewrite Ej. replace (S n) with (String.length host + 1)%nat
        by (unfold n; lia).
      now rewrite Hdrop. }
    assert (H1 : fmt.indexByte "[" j = None).
    { rewrite Ej. apply lacks_append. split; [exact Hob|].
      apply lacks_cons. split; [reflexivity | exact Hpo]. }
    assert (H2 : fmt.indexByte "]" j = None).
    { rewrite Ej. apply lacks_append. split; [exact Hcb|].
      apply lacks_cons. split; [reflexivity | exact Hpb]. }
    unfold net.SplitHostPort. rewrite Hi, Hb. unfold net.IndexByteString.
    rewrite Ht, Hcolon. change (drop 0 j) with j.
    now rewrite H1, H2, Hd.
Qed.

(** X19: [SplitHostPort] takes apart what [JoinHostPort] put
    together: for a host without brackets and a port without a colon
    or a bracket, splitting the joined address gives the host and the
    port back, whether the host holds a colon (an IPv6 address, put
    in brackets) or not. *)
Theorem SplitHostPort_JoinHostPort (host port : string) :
  lacks "[" host -> lacks "]" host ->
  lacks ":" port -> lacks "[" port -> lacks "]" port ->
  net.SplitHostPort (net.JoinHostPort host port) = (host, port, None).
Proof. apply SplitHostPort_joined. Qed.

Lemma SplitHostPort_JoinHostPort_witness :
  net.SplitHostPort "localhost:32850" = ("localhost", "32850", None)
  /\ net.SplitHostPort "[fe80::1]:32850" = ("fe80::1", "32850", None).
Proof.
  split.
  - apply (SplitHostPort_JoinHostPort "localhost" "32850"); reflexivity.
  - apply (SplitHostPort_JoinHostPort "fe80::1" "32850"); reflexivity.
Defined.

(** X20: an address without a colon has no port: [SplitHostPort]
    returns the error "missing port in address", and every revision
    of [clientMain] stops there, with one fatal record and exit
    status 1, before it dials. *)
Theorem address_without_port_is_fatal
  (client : string) (ctx : context) (fl : flags) (env : client_env) :
  lacks ":" client ->
  split_host_port env = address_error client ->
  net.SplitHostPort client
  = ("", "", Some (net.mkAddrError net.missingPort client))
  /\ Seconds.clientMain ctx fl env
     = ([Glog FATAL (FatalServerAddress (net_Error false))], Exited 1)
  /\ Limit.clientMain ctx fl env
     = ([Glog FATAL (FatalServerAddress (net_Error false))], Exited 1)
  /\ Copy.clientMain ctx fl env
     = ([Glog FATAL (FatalServerAddress (net_Error false))], Exited 1)
  /\ Initial.clientMain ctx fl env
     = ([Glog FATAL (FatalServerAddress (net_Error false))], Exited 1).
Proof.
  intros Hno Henv.
  assert (Hs : net.SplitHostPort client
               = ("", "", Some (net.mkAddrError net.missingPort client))).
  { unfold net.SplitHostPort.
    now rewrite (proj2 (LastIndex_none ":" client) Hno). }
  unfold address_error in Henv. rewrite Hs in Henv. cbn [snd] in Henv.
  split; [exact Hs|].
  unfold Seconds.clientMain, Limit.clientMain, Copy.clientMain,
    Initial.clientMain.
  rewrite Henv. repeat split.
Qed.

Lemma address_without_port_is_fatal_witness :
  Seconds.clientMain Background (Flags false "" 30 "") no_port
  = ([Glog FATAL (FatalServerAddress (net_Error false))], Exited 1).
Proof.
  exact (proj1 (proj2 (address_without_port_is_fatal "example.com" Background
                         (Flags false "" 30 "") no_port eq_refl eq_refl))).
Defined.

(* ================================================================= *)
(** ** The names of the qlog files *)

(** *** [%x] can be read back *)

Lemma hex_byte (c : byte) :
  let hi := ldigit (N.shiftr (Byte.to_N c) 4) in
  let lo := ldigit (N.land (Byte.to_N c) 15) in
  (hex_val hi <? 16)%N = true /\ (hex_val lo <? 16)%N = true
  /\ Byte.of_N (16 * hex_val hi + hex_val lo) = Some c
  /\ filepath.isSep hi = false /\ filepath.isSep lo = false.
Proof. destruct c; repeat split; reflexivity. Qed.

Lemma unhex_fmt_x (b : list byte) : unhex (fmt_x b) = Some b.
Proof.
  induction b as [|c b IH]; [reflexivity|].
  cbn [fmt_x unhex].
  destruct (hex_byte c) as (H1 & H2 & H3 & _). cbv zeta in H1, H2, H3.
  now rewrite H1, H2, H3, IH.
Qed.

Lemma fmt_x_no_sep (b : list byte) :
  forallb_str (fun c => negb (filepath.isSep c)) (fmt_x b) = true.
Proof.
  induction b as [|c b IH]; [reflexivity|].
  cbn [fmt_x forallb_str].
  destruct (hex_byte c) as (_ & _ & _ & H4 & H5). cbv zeta in H4, H5.
  now rewrite H4, H5, IH.
Qed.

Lemma qlog_baseName_plain (connID : list byte) :
  plain_name (qlog_baseName connID).
Proof.
  unfold plain_name, qlog_baseName. repeat split; try discriminate.
  rewrite !forallb_str_append, fmt_x_no_sep. reflexivity.
Qed.

(** *** [Clean] on a directory and a file name *)

Lemma span_length (p : ascii -> bool) (s a b : string) :
  span p s = (a, b) -> (String.length b <= String.length s)%nat.
Proof.
  intros H. destruct (span_spec p s a b H) as (-> & _ & _).
  rewrite length_append. lia.
Qed.

Lemma span_before_sep (x y : string) :
  span (fun c => negb (filepath.isSep c)) (x ++ String "/" y)
  = let (el, r) := span (fun c => negb (filepath.isSep c)) x in
    (el, r ++ String "/" y).
Proof.
  induction x as [|c x IH]; [reflexivity|].
  cbn [String.append span]. destruct (negb (filepath.isSep c)); [|reflexivity].
  rewrite IH. destruct (span _ x). reflexivity.
Qed.

Lemma length_drop_le (n : nat) (s : string) :
  (String.length (drop n s) <= String.length s)%nat.
Proof.
  revert s. induction n as [|n IH]; intros s; [simpl; lia|].
  destruct s as [|c s]; [simpl; lia|]. simpl. specialize (IH s). lia.
Qed.

(** Enough fuel is as good as more. *)
Lemma clean_loop_fuel (f f' : nat) (rooted : bool) (rest out : string)
  (dotdot : nat) :
  (String.length rest <= f)%nat -> (String.length rest <= f')%nat ->
  filepath.clean_loop f rooted rest out dotdot
  = filepath.clean_loop f' rooted rest out dotdot.
Proof.
  revert f' rest out dotdot.
  induction f as [|f IH]; intros f' rest out dotdot Hf Hf'.
  - destruct rest; [|simpl in Hf; lia]. destruct f'; reflexivity.
  - destruct f' as [|f'].
    + destruct rest; [reflexivity | simpl in Hf'; lia].
    + destruct rest as [|c r]; [reflexivity|].
      cbn [String.length] in Hf, Hf'.
      cbn [filepath.clean_loop].
      destruct (filepath.isSep c) eqn:Hc; [apply IH; lia|].
      destruct (filepath.at_dot (String c r)); [apply IH; lia|].
      pose proof (length_drop_le 2 (String c r)) as Hd.
      assert (Hd' : (String.length (drop 2 (String c r)) <= String.length r)%nat).
      { destruct r as [|d r]; simpl; lia. }
      destruct (filepath.at_dotdot (String c r)).
      * destruct (Nat.ltb dotdot (String.length out)); [apply IH; lia|].
        destruct (negb rooted); apply IH; lia.
      * destruct (span (fun c0 => negb (filepath.isSep c0)) (String c r))
          as [el r'] eqn:Hs.
        cbn [span] in Hs. rewrite Hc in Hs. cbn [negb] in Hs.
        destruct (span (fun c0 => negb (filepath.isSep c0)) r) as [a b] eqn:Hs'.
        injection Hs as <- <-.
        pose proof (span_length _ r a b Hs') as Hl.
        apply IH; lia.
Qed.

Lemma plain_name_head (base : string) :
  plain_name base ->
  exists c r, base = String c r /\ filepath.isSep c = false
              /\ filepath.at_dot base = false
              /\ filepath.at_dotdot base = false
              /\ span (fun c => negb (filepath.isSep c)) base = (base, "").
Proof.
  intros (Hne & Hsep & Hd & Hdd).
  destruct base as [|c r]; [congruence|]. exists c, r.
  assert (Hspan : span (fun c => negb (filepath.isSep c)) (String c r)
                  = (String c r, "")).
  { pose proof (span_append (fun c => negb (filepath.isSep c)) (String c r) ""
                  Hsep eq_refl) as H.
    now rewrite append_nil_r in H. }
  cbn [forallb_str] in Hsep. apply andb_prop in Hsep. destruct Hsep as [Hc Hr].
  apply negb_true_iff in Hc.
  repeat split; auto.
  - unfold filepath.at_dot. destruct (Ascii.eqb_spec c "."); [subst|reflexivity].
    destruct r as [|d r]; [congruence|].
    cbn [forallb_str] in Hr. apply andb_prop in Hr. destruct Hr as [Hd' _].
    apply negb_true_iff in Hd'. now rewrite Hd'.
  - unfold filepath.at_dotdot. destruct r as [|d r]; [reflexivity|].
    destruct (Ascii.eqb_spec c "."); [subst|reflexivity].
    destruct (Ascii.eqb_spec d "."); [subst|reflexivity].
    destruct r as [|e r]; [congruence|].
    cbn [forallb_str] in Hr. apply andb_prop in Hr. destruct Hr as [_ Hr].
    apply andb_prop in Hr. destruct Hr as [He _].
    apply negb_true_iff in He. now rewrite He.
Qed.

Lemma at_dot_before_sep (c : ascii) (r y : string) :
  filepath.at_dot (String c r ++ String "/" y) = filepath.at_dot (String c r).
Proof. destruct r; reflexivity. Qed.

Lemma at_dotdot_before_sep (c : ascii) (r y : string) :
  filepath.at_dot (String c r) = false ->
  filepath.at_dotdot (String c r ++ String "/" y)
  = filepath.at_dotdot (String c r).
Proof.
  destruct r as [|d [|e r]]; cbn; try reflexivity.
  destruct (Ascii.eqb c "."); [discriminate | reflexivity].
Qed.

(** The loop on a directory, a separator and a file name: the state
    it reaches on the directory alone, then the name as one more
    element. *)
Lemma clean_loop_base (n : nat) (rooted : bool) (base : string) :
  plain_name base ->
  forall (d out : string) (dotdot : nat),
    (String.length d <= n)%nat ->
    filepath.clean_loop (String.length (d ++ String "/" base)) rooted
      (d ++ String "/" base) out dotdot
    = with_sep rooted
        (filepath.clean_loop (String.length d) rooted d out dotdot)
      ++ base.
Proof.
  intros Hbase.
  destruct (plain_name_head base Hbase) as (b0 & br & Eb & Hb0 & Hbd & Hbdd & Hbs).
  induction n as [|n IH]; intros d out dotdot Hn.
  - destruct d; [|simpl in Hn; lia].
    cbn [String.append String.length filepath.clean_loop filepath.isSep].
    change (Ascii.eqb "/" "/") with true. cbv iota.
    rewrite Eb at 1 2. cbn [String.length filepath.clean_loop].
    rewrite Hb0. rewrite <- Eb. rewrite Hbd, Hbdd, Hbs.
    unfold with_sep. destruct br; reflexivity.
  - destruct d as [|c r].
    + apply IH. simpl. lia.
    + cbn [String.length] in Hn.
      change (String.length (String c r ++ String "/" base))
        with (S (String.length (r ++ String "/" base))).
      change (String.length (String c r)) with (S (String.length r)).
      cbn [filepath.clean_loop].
      change (String c r ++ String "/" base)
        with (String c (r ++ String "/" base)).
      cbn [filepath.clean_loop].
      destruct (filepath.isSep c) eqn:Hc; [apply IH; lia|].
      change (String c (r ++ String "/" base))
        with (String c r ++ String "/" base).
      rewrite at_dot_before_sep.
      destruct (filepath.at_dot (String c r)) eqn:Hdot;
        [change (String c r ++ String "/" base)
           with (String c (r ++ String "/" base)); apply IH; lia|].
      rewrite (at_dotdot_before_sep c r base Hdot).
      destruct (filepath.at_dotdot (String c r)) eqn:Hdd.
      * (* the element [..] *)
        assert (Hr : exists r2, r = String "." r2
                                /\ drop 2 (String c r ++ String "/" base)
                                   = r2 ++ String "/" base
                                /\ drop 2 (String c r) = r2).
        { unfold filepath.at_dotdot in Hdd. destruct r as [|d r2]; [discriminate|].
          apply andb_prop in Hdd. destruct Hdd as [Hdd _].
          apply andb_prop in Hdd. destruct Hdd as [_ Hd].
          apply Ascii.eqb_eq in Hd. subst d. exists r2. repeat split. }
        destruct Hr as (r2 & -> & Hd1 & Hd2). rewrite Hd1, Hd2.
        cbn [String.length] in Hn.
        assert (Hf : forall o dd,
                  filepath.clean_loop
                    (String.length (String "." r2 ++ String "/" base)) rooted
                    (r2 ++ String "/" base) o dd
                  = with_sep rooted
                      (filepath.clean_loop (String.length (String "." r2))
                         rooted r2 o dd) ++ base).
        { intros o dd.
          rewrite (clean_loop_fuel _ (String.length (r2 ++ String "/" base)))
            by (cbn [String.append String.length]; lia).
          rewrite (clean_loop_fuel (String.length (String "." r2))
                     (String.length r2))
            by (cbn [String.length]; lia).
          apply IH. lia. }
        destruct (Nat.ltb dotdot (String.length out)); [apply Hf|].
        destruct (negb rooted); apply Hf.
      * (* a name *)
        change (String c r ++ String "/" base)
          with (String c r ++ String "/" base).
        rewrite (span_before_sep (String c r) base).
        destruct (span (fun c0 => negb (filepath.isSep c0)) (String c r))
          as [el r'] eqn:Hs.
        assert (Hl : (String.length r' <= String.length r)%nat).
        { cbn [span] in Hs. rewrite Hc in Hs. cbn [negb] in Hs.
          destruct (span (fun c0 => negb (filepath.isSep c0)) r) as [a b] eqn:Hs'.
          injection Hs as <- <-. exact (span_length _ r a b Hs'). }
        rewrite (clean_loop_fuel _ (String.length (r' ++ String "/" base)))
          by (rewrite !length_append; cbn [String.length]; lia).
        rewrite (clean_loop_fuel (String.length r) (String.length r'))
          by lia.
        apply IH. lia.
Qed.

(** While the path is rooted, the output starts with the separator
    and [..] stops behind it. *)
Lemma backtrack_bounds (fuel : nat) (out : string) (w dotdot : nat) :
  (dotdot <= w)%nat ->
  (dotdot <= filepath.backtrack fuel out w dotdot <= w)%nat.
Proof.
  revert w. induction fuel as [|fuel IH]; intros w Hw; cbn [filepath.backtrack];
    [lia|].
  destruct (Nat.ltb_spec dotdot w) as [Hlt|Hge]; cbn [andb]; [|lia].
  destruct (negb (filepath.isSep (filepath.index out w))); [|lia].
  specialize (IH (w - 1)%nat). lia.
Qed.

Lemma take_rooted (n : nat) (o : string) :
  (1 <= n)%nat -> exists o', take n (String "/" o) = String "/" o'.
Proof. destruct n as [|n]; [lia|]. intros _. now exists (take n o). Qed.

Lemma clean_loop_rooted (f : nat) (rest o : string) :
  exists o', filepath.clean_loop f true rest (String "/" o) 1 = String "/" o'.
Proof.
  revert rest o. induction f as [|f IH]; intros rest o; [now exists o|].
  destruct rest as [|c r]; [now exists o|].
  cbn [filepath.clean_loop].
  destruct (filepath.isSep c); [apply IH|].
  destruct (filepath.at_dot (String c r)); [apply IH|].
  destruct (filepath.at_dotdot (String c r)).
  - destruct (Nat.ltb_spec 1 (String.length (String "/" o))) as [Hlt|Hge].
    + pose proof (backtrack_bounds (String.length (String "/" o))
                    (String "/" o) (String.length (String "/" o) - 1) 1
                    ltac:(lia)) as [Hb _].
      destruct (take_rooted _ o Hb) as (o' & ->). apply IH.
    + cbn [negb]. apply IH.
  - destruct (span _ (String c r)) as [el r'].
    destruct (true && negb (Nat.eqb (String.length (String "/" o)) 1)
              || negb true && negb (Nat.eqb (String.length (String "/" o)) 0));
      cbn [String.append]; apply IH.
Qed.

Lemma with_sep_prefix (rooted : bool) (out : string) :
  (rooted = true -> exists o, out = String "/" o) ->
  dir_prefix (with_sep rooted out).
Proof.
  intros Hr. unfold with_sep, dir_prefix.
  destruct rooted; cbn [andb orb negb].
  - destruct (Hr eq_refl) as (o & ->).
    destruct o as [|x o]; cbn [String.length Nat.eqb negb].
    + right. now exists "".
    + right. now exists (String "/" (String x o)).
  - destruct out as [|x out]; cbn [String.length Nat.eqb negb].
    + now left.
    + right. now exists (String x out).
Qed.

(** [Join] of a directory and a file name: a prefix that depends on
    the directory alone, then the name. *)
Lemma Join_dir_base (dir : string) :
  dir <> "" ->
  exists prefix,
    dir_prefix prefix
    /\ forall base, plain_name base ->
         filepath.Join [dir; base] = prefix ++ base.
Proof.
  intros Hne. destruct dir as [|c r]; [congruence|].
  set (rooted := filepath.isSep c).
  set (st := if rooted
             then filepath.clean_loop (String.length r) true r "/" 1
             else filepath.clean_loop (String.length (String c r)) false
                    (String c r) "" 0).
  exists (with_sep rooted st). split.
  - apply with_sep_prefix. intros Hr. unfold st. rewrite Hr.
    apply clean_loop_rooted.
  - intros base Hbase.
    cbn [filepath.Join filepath.strings_Join]. cbn [String.eqb].
    change ((String c r ++ "/" ++ base))
      with (String c (r ++ String "/" base)).
    unfold filepath.Clean. fold rooted.
    assert (Hout : (if rooted
                    then filepath.clean_loop
                           (String.length (String c (r ++ String "/" base)))
                           true (r ++ String "/" base) "/" 1
                    else filepath.clean_loop
                           (String.length (String c (r ++ String "/" base)))
                           false (String c (r ++ String "/" base)) "" 0)
                   = with_sep rooted st ++ base).
    { unfold st. destruct rooted.
      - rewrite (clean_loop_fuel _ (String.length (r ++ String "/" base)))
          by (cbn [String.length]; lia).
        apply (clean_loop_base (String.length r) true base Hbase). lia.
      - apply (clean_loop_base (String.length (String c r)) false base Hbase
                 (String c r)). lia. }
    rewrite Hout.
    assert (Hlen : Nat.eqb (String.length (with_sep rooted st ++ base)) 0 = false).
    { apply Nat.eqb_neq. rewrite length_append.
      destruct Hbase as (Hb & _). destruct base; [congruence|].
      cbn [String.length]. lia. }
    now rewrite Hlen.
Qed.

Lemma append_cancel (p a b : string) : p ++ a = p ++ b -> a = b.
Proof.
  induction p as [|c p IH]; [exact (fun H => H)|].
  cbn [String.append]. intros [= H]. now apply IH.
Qed.

(** X21: with [-qlog-dest-dir] set, the qlog file of a connection is
    created under a directory prefix that depends on the flag alone,
    with the name [client_<ID in hexadecimal>.qlog]: the connection
    ID can be read back from the name, and two connection IDs never
    share a file. *)
Theorem qlog_files (qlogDir : string) :
  qlogDir <> "" ->
  exists prefix,
    dir_prefix prefix
    /\ (forall connID,
          qlog_fname qlogDir connID
          = prefix ++ "client_" ++ fmt_x connID ++ ".qlog"
          /\ unhex (fmt_x connID) = Some connID)
    /\ (forall id1 id2,
          qlog_fname qlogDir id1 = qlog_fname qlogDir id2 -> id1 = id2).
Proof.
  intros Hne. destruct (Join_dir_base qlogDir Hne) as (prefix & Hp & Hj).
  assert (Hname : forall connID,
            qlog_fname qlogDir connID
            = prefix ++ "client_" ++ fmt_x connID ++ ".qlog").
  { intros connID. unfold qlog_fname.
    now rewrite (Hj _ (qlog_baseName_plain connID)). }
  exists prefix. split; [exact Hp|]. split.
  - intros connID. split; [apply Hname | apply unhex_fmt_x].
  - intros id1 id2 H. rewrite !Hname in H.
    apply append_cancel in H. apply (append_cancel "client_") in H.
    assert (Hl : String.length (fmt_x id1) = String.length (fmt_x id2)).
    { apply (f_equal String.length) in H. rewrite !length_append in H.
      cbn [String.length] in H. lia. }
    destruct (append_inv_length _ _ _ _ H Hl) as [Hx _].
    pose proof (unhex_fmt_x id1) as H1. rewrite Hx, unhex_fmt_x in H1.
    now injection H1.
Qed.

Lemma qlog_files_witness :
  exists prefix,
    dir_prefix prefix
    /\ (forall connID,
          qlog_fname "/var/log/qperf/" connID
          = prefix ++ "client_" ++ fmt_x connID ++ ".qlog"
          /\ unhex (fmt_x connID) = Some connID)
    /\ (forall id1 id2,
          qlog_fname "/var/log/qperf/" id1 = qlog_fname "/var/log/qperf/" id2 ->
          id1 = id2).
Proof.
  apply (qlog_files "/var/log/qperf/"). discriminate.
Defined.

(* ================================================================= *)
(** ** The buffered writer of the qlog files *)

Lemma copy_at_length (dst : list byte) (off : nat) (p : list byte) :
  (off <= List.length dst)%nat ->
  List.length (fst (bufio.copy_at dst off p)) = List.length dst.
Proof.
  intros H. unfold bufio.copy_at. cbn [fst].
  rewrite !length_app, !length_firstn, length_skipn. lia.
Qed.

Lemma copy_at_held (dst : list byte) (off : nat) (p : list byte) :
  (off <= List.length dst)%nat ->
  firstn (off + snd (bufio.copy_at dst off p)) (fst (bufio.copy_at dst off p))
  = (firstn off dst ++ firstn (snd (bufio.copy_at dst off p)) p)%list.
Proof.
  intros H. unfold bufio.copy_at. cbn [fst snd].
  set (k := Nat.min (List.length dst - off) (List.length p)).
  rewrite app_assoc. rewrite firstn_app.
  rewrite length_app, !length_firstn.
  replace (off + k - (Nat.min off (List.length dst)
                      + Nat.min k (List.length p)))%nat with O by lia.
  cbn [firstn]. rewrite app_nil_r.
  apply firstn_all2. rewrite length_app, !length_firstn. lia.
Qed.

Section WriterFacts.
Context {H : Type}.
Variable wr_Write : H -> list byte -> H * io_result.

Lemma Flush_keeps (b : bufio.Writer) (h : H) :
  in_bounds b ->
  let b' := fst (fst (bufio.Flush wr_Write b h)) in
  in_bounds b'
  /\ List.length (bufio.buf b') = List.length (bufio.buf b).
Proof.
  intros Hb. unfold bufio.Flush.
  destruct (bufio.err b) as [e|] eqn:He; [cbn; auto|].
  specialize (Hb He).
  destruct (bufio.n b =? 0); [cbn; split; [intros _; exact Hb | reflexivity]|].
  destruct (wr_Write h _) as [h1 r].
  destruct (match io_err r with
            | Some e => Some e
            | None => if io_n r <? bufio.n b then Some io_ErrShortWrite else None
            end) as [e|]; cbn [fst bufio.buf bufio.err bufio.n].
  - split; [intros X; discriminate X|].
    destruct ((0 <? io_n r) && (io_n r <? bufio.n b)) eqn:Hm; [|reflexivity].
    apply andb_prop in Hm. destruct Hm as [H0 H1].
    apply Z.ltb_lt in H0, H1.
    rewrite length_app, length_skipn, copy_at_length
      by (rewrite length_firstn; lia).
    rewrite length_firstn, Nat.min_l by lia. lia.
  - split; [intros _; cbn; lia | reflexivity].
Qed.

Lemma Write_loop_keeps (fuel : nat) (b : bufio.Writer) (h : H)
  (p : list byte) (nn : Z) :
  in_bounds b ->
  let b' := fst (fst (bufio.Write_loop wr_Write fuel b h p nn)) in
  in_bounds b'
  /\ List.length (bufio.buf b') = List.length (bufio.buf b).
Proof.
  revert b h p nn. induction fuel as [|fuel IH]; intros b h p nn Hb;
    cbn [bufio.Write_loop].
  - destruct ((bufio.Available b <? _) && _) eqn:Hc; [cbn; auto|].
    destruct (bufio.err b) as [e|] eqn:He; [cbn; auto|].
    specialize (Hb He).
    destruct (bufio.copy_at _ _ p) as [buf1 c] eqn:Hcp.
    cbn [fst bufio.buf bufio.n bufio.err].
    pose proof (copy_at_length (bufio.buf b) (Z.to_nat (bufio.n b)) p
                  ltac:(lia)) as Hl.
    rewrite Hcp in Hl. cbn [fst] in Hl.
    split; [|exact Hl]. intros _. cbn [bufio.buf bufio.n]. rewrite Hl.
    assert (Hk : (c <= List.length (bufio.buf b) - Z.to_nat (bufio.n b))%nat).
    { unfold bufio.copy_at in Hcp. injection Hcp as _ <-. lia. }
    lia.
  - destruct ((bufio.Available b <? _) && _) eqn:Hc.
    + apply andb_prop in Hc. destruct Hc as [_ He].
      destruct (bufio.err b) as [e|] eqn:He'; [discriminate|].
      specialize (Hb He').
      destruct (bufio.Buffered b =? 0) eqn:Hz.
      * destruct (wr_Write h p) as [h1 r].
        destruct ((io_n r <? 0) || _).
        -- cbn [fst bufio.buf]. split; [|reflexivity].
           intros X. cbn in X. cbn. lia.
        -- set (b1 := bufio.mkWriter (io_err r) (bufio.buf b) (bufio.n b)).
           assert (Hb1 : in_bounds b1) by (intros _; cbn; lia).
           destruct (IH b1 h1 (skipn (Z.to_nat (io_n r)) p) (nn + io_n r) Hb1)
             as [I1 I2].
           split; [exact I1 | exact I2].
      * destruct (bufio.copy_at _ _ p) as [buf1 c] eqn:Hcp.
        pose proof (copy_at_length (bufio.buf b) (Z.to_nat (bufio.n b)) p
                      ltac:(lia)) as Hl.
        rewrite Hcp in Hl. cbn [fst] in Hl.
        assert (Hk : (c <= List.length (bufio.buf b) - Z.to_nat (bufio.n b))%nat).
        { unfold bufio.copy_at in Hcp. injection Hcp as _ <-. lia. }
        set (b1 := bufio.mkWriter None buf1 (bufio.n b + Z.of_nat c)).
        assert (Hb1 : in_bounds b1).
        { intros _. cbn. rewrite Hl. lia. }
        pose proof (Flush_keeps b1 h Hb1) as Hf. cbv zeta in Hf.
        destruct (bufio.Flush wr_Write b1 h) as [[b2 h2] e2].
        cbn [fst] in Hf. destruct Hf as [Hb2 Hl2].
        specialize (IH b2 h2 (skipn c p) (nn + Z.of_nat c) Hb2).
        cbv zeta in IH. destruct IH as [IH1 IH2].
        split; [exact IH1|]. rewrite IH2, Hl2. exact Hl.
    + destruct (bufio.err b) as [e|] eqn:He; [cbn; auto|].
      specialize (Hb He).
      destruct (bufio.copy_at _ _ p) as [buf1 c] eqn:Hcp.
      cbn [fst bufio.buf bufio.n bufio.err].
      pose proof (copy_at_length (bufio.buf b) (Z.to_nat (bufio.n b)) p
                    ltac:(lia)) as Hl.
      rewrite Hcp in Hl. cbn [fst] in Hl.
      split; [|exact Hl]. intros _. cbn [bufio.buf bufio.n]. rewrite Hl.
      assert (Hk : (c <= List.length (bufio.buf b) - Z.to_nat (bufio.n b))%nat).
      { unfold bufio.copy_at in Hcp. injection Hcp as _ <-. lia. }
      lia.
Qed.

(** X22: whatever the [io.Writer] under it does, a [bufio.Writer]
    keeps the size of its buffer, and while it has recorded no error
    the count of buffered bytes stays between zero and that size:
    [Write] and [Flush] never index outside the buffer. *)
Theorem buffer_is_never_overrun (b : bufio.Writer) (h : H) (p : list byte) :
  in_bounds b ->
  (in_bounds (fst (fst (bufio.Write wr_Write b h p)))
   /\ List.length (bufio.buf (fst (fst (bufio.Write wr_Write b h p))))
      = List.length (bufio.buf b))
  /\ (in_bounds (fst (fst (bufio.Flush wr_Write b h)))
      /\ List.length (bufio.buf (fst (fst (bufio.Flush wr_Write b h))))
         = List.length (bufio.buf b))
  /\ in_bounds bufio.NewWriter
  /\ List.length (bufio.buf bufio.NewWriter) = 4096%nat.
Proof.
  intros Hb. split; [apply Write_loop_keeps; exact Hb|].
  split; [apply Flush_keeps; exact Hb|].
  split; [intros _; cbn; lia | apply repeat_length].
Qed.

End WriterFacts.

Lemma buffer_is_never_overrun_witness :
  in_bounds (fst (fst (bufio.Write full_Write a_writer [] hello)))
  /\ List.length (bufio.buf (fst (fst (bufio.Write full_Write a_writer [] hello))))
     = 8%nat.
Proof.
  assert (Hb : in_bounds a_writer) by (intros _; cbn; lia).
  exact (proj1 (buffer_is_never_overrun full_Write a_writer [] hello Hb)).
Defined.

Section Integrity.
Context {H : Type}.
Variable wr_Write : H -> list byte -> H * io_result.
Variable cl_Close : H -> H * option error.

(** What the file holds. *)
Variable contents : H -> list byte.

(** The file takes every write whole, and closing it does not change
    what it holds. *)
Hypothesis takes_all :
  forall h p,
    snd (wr_Write h p) = IO (Z.of_nat (List.length p)) None
    /\ contents (fst (wr_Write h p)) = (contents h ++ p)%list.
Hypothesis close_keeps :
  forall h, contents (fst (cl_Close h)) = contents h.

Lemma Write_loop_S (k : nat) (b : bufio.Writer) (h : H) (p : list byte)
  (nn : Z) :
  bufio.Write_loop wr_Write (S k) b h p nn
  = if (bufio.Available b <? Z.of_nat (List.length p))
       && match bufio.err b with None => true | Some _ => false end
    then
      if bufio.Buffered b =? 0 then
        let '(h1, r) := wr_Write h p in
        let b1 := bufio.mkWriter (io_err r) (bufio.buf b) (bufio.n b) in
        if (io_n r <? 0) || (Z.of_nat (List.length p) <? io_n r)
        then (b1, h1, bufio.Panics)
        else bufio.Write_loop wr_Write k b1 h1
               (skipn (Z.to_nat (io_n r)) p) (nn + io_n r)
      else
        let '(buf1, c) :=
          bufio.copy_at (bufio.buf b) (Z.to_nat (bufio.n b)) p in
        let b1 := bufio.mkWriter (bufio.err b) buf1 (bufio.n b + Z.of_nat c) in
        let '(b2, h2, _) := bufio.Flush wr_Write b1 h in
        bufio.Write_loop wr_Write k b2 h2 (skipn c p) (nn + Z.of_nat c)
    else
      match bufio.err b with
      | Some e => (b, h, bufio.Returns (IO nn (Some e)))
      | None =>
          let '(buf1, c) :=
            bufio.copy_at (bufio.buf b) (Z.to_nat (bufio.n b)) p in
          (bufio.mkWriter None buf1 (bufio.n b + Z.of_nat c), h,
           bufio.Returns (IO (nn + Z.of_nat c) None))
      end.
Proof. reflexivity. Qed.

Lemma Flush_ready (b : bufio.Writer) (h : H) :
  ready b ->
  exists b' h',
    bufio.Flush wr_Write b h = (b', h', None)
    /\ ready b' /\ bufio.n b' = 0
    /\ contents h' = (contents h ++ held b)%list.
Proof.
  intros [He Hn]. unfold bufio.Flush. rewrite He.
  destruct (Z.eqb_spec (bufio.n b) 0) as [H0|H0].
  - exists b, h. split; [reflexivity|]. split; [split; assumption|].
    split; [exact H0|]. unfold held. rewrite H0. cbn [Z.to_nat firstn].
    now rewrite app_nil_r.
  - destruct (takes_all h (firstn (Z.to_nat (bufio.n b)) (bufio.buf b)))
      as [Hr Hc].
    destruct (wr_Write h _) as [h1 r]. cbn [fst snd] in Hr, Hc. subst r.
    cbn [io_n io_err]. rewrite length_firstn.
    rewrite Nat.min_l by lia. rewrite Z2Nat.id by lia.
    rewrite Z.ltb_irrefl.
    exists (bufio.mkWriter None (bufio.buf b) 0), h1.
    repeat split; cbn; auto; lia.
Qed.

Lemma final_copy (fuel : nat) (b : bufio.Writer) (h : H) (p : list byte)
  (nn : Z) :
  ready b ->
  Z.of_nat (List.length p) <= bufio.Available b ->
  exists b',
    bufio.Write_loop wr_Write fuel b h p nn
    = (b', h, bufio.Returns (IO (nn + Z.of_nat (List.length p)) None))
    /\ ready b' /\ held b' = (held b ++ p)%list.
Proof.
  intros [He Hn] Hav.
  assert (Hc : (bufio.Available b <? Z.of_nat (List.length p)) = false)
    by (apply Z.ltb_ge; exact Hav).
  unfold bufio.Available in Hav.
  pose proof (copy_at_length (bufio.buf b) (Z.to_nat (bufio.n b)) p
                ltac:(lia)) as Hl.
  pose proof (copy_at_held (bufio.buf b) (Z.to_nat (bufio.n b)) p
                ltac:(lia)) as Hh.
  destruct (bufio.copy_at (bufio.buf b) (Z.to_nat (bufio.n b)) p)
    as [buf1 c] eqn:Hcp.
  cbn [fst snd] in Hl, Hh.
  assert (Hk : c = List.length p).
  { unfold bufio.copy_at in Hcp. injection Hcp as _ <-. lia. }
  subst c.
  exists (bufio.mkWriter None buf1 (bufio.n b + Z.of_nat (List.length p))).
  split; [|split].
  - destruct fuel; cbn [bufio.Write_loop]; rewrite Hc, He, Hcp; reflexivity.
  - split; [reflexivity|]. cbn. rewrite Hl. lia.
  - unfold held. cbn [bufio.n bufio.buf].
    replace (Z.to_nat (bufio.n b + Z.of_nat (List.length p)))
      with (Z.to_nat (bufio.n b) + List.length p)%nat by lia.
    rewrite Hh. now rewrite firstn_all.
Qed.

Lemma direct_write (fuel : nat) (b : bufio.Writer) (h : H) (p : list byte)
  (nn : Z) :
  ready b ->
  bufio.n b = 0 ->
  bufio.Available b < Z.of_nat (List.length p) ->
  exists b' h',
    bufio.Write_loop wr_Write (S fuel) b h p nn
    = (b', h', bufio.Returns (IO (nn + Z.of_nat (List.length p)) None))
    /\ ready b' /\ held b' = []
    /\ contents h' = (contents h ++ p)%list.
Proof.
  intros [He Hn] H0 Hav.
  assert (Hc : (bufio.Available b <? Z.of_nat (List.length p)) = true)
    by (apply Z.ltb_lt; exact Hav).
  rewrite Write_loop_S. rewrite Hc, He. cbn [andb].
  unfold bufio.Buffered. rewrite H0. cbn [Z.eqb].
  destruct (takes_all h p) as [Hr Hcont].
  destruct (wr_Write h p) as [h1 r]. cbn [fst snd] in Hr, Hcont. subst r.
  cbn [io_n io_err].
  assert (Hchk : ((Z.of_nat (List.length p) <? 0)
                  || (Z.of_nat (List.length p) <? Z.of_nat (List.length p)))
                 = false).
  { rewrite Z.ltb_irrefl, orb_false_r. apply Z.ltb_ge. lia. }
  cbv zeta. rewrite Hchk. rewrite Nat2Z.id, skipn_all.
  set (b1 := bufio.mkWriter None (bufio.buf b) 0).
  assert (Hb1 : ready b1) by (split; [reflexivity | cbn; lia]).
  destruct (final_copy fuel b1 h1 [] (nn + Z.of_nat (List.length p)) Hb1)
    as (b' & Hw & Hb' & Hh).
  { unfold bufio.Available. cbn. lia. }
  exists b', h1. rewrite Hw. cbn [List.length Z.of_nat].
  rewrite Z.add_0_r. split; [reflexivity|]. split; [exact Hb'|].
  split; [|exact Hcont]. rewrite Hh. unfold held, b1. reflexivity.
Qed.

Lemma Write_ready (b : bufio.Writer) (h : H) (p : list byte) :
  ready b ->
  exists b' h',
    bufio.Write wr_Write b h p
    = (b', h', bufio.Returns (IO (Z.of_nat (List.length p)) None))
    /\ ready b'
    /\ (contents h' ++ held b' = contents h ++ held b ++ p)%list.
Proof.
  intros Hb. pose proof Hb as [He Hn]. unfold bufio.Write.
  destruct (Z.le_gt_cases (Z.of_nat (List.length p)) (bufio.Available b))
    as [Hfit|Hbig].
  - destruct (final_copy (S (S (List.length p))) b h p 0 Hb Hfit)
      as (b' & Hw & Hb' & Hh).
    exists b', h. rewrite Hw, Hh.
    split; [reflexivity|]. split; [exact Hb' | reflexivity].
  - destruct (Z.eq_dec (bufio.n b) 0) as [H0|H0].
    + destruct (direct_write (S (List.length p)) b h p 0 Hb H0 ltac:(lia))
        as (b' & h' & Hw & Hb' & Hh & Hc).
      exists b', h'. rewrite Hw, Hh, Hc.
      split; [reflexivity|]. split; [exact Hb'|].
      unfold held. rewrite H0. cbn [Z.to_nat firstn app].
      now rewrite app_nil_r.
    + assert (Hc : (bufio.Available b <? Z.of_nat (List.length p)) = true)
        by (apply Z.ltb_lt; lia).
      rewrite Write_loop_S. rewrite Hc, He. cbn [andb].
      unfold bufio.Buffered.
      destruct (Z.eqb_spec (bufio.n b) 0) as [|_]; [contradiction|].
      unfold bufio.Available in Hbig.
      pose proof (copy_at_length (bufio.buf b) (Z.to_nat (bufio.n b)) p
                    ltac:(lia)) as Hl.
      pose proof (copy_at_held (bufio.buf b) (Z.to_nat (bufio.n b)) p
                    ltac:(lia)) as Hh.
      destruct (bufio.copy_at (bufio.buf b) (Z.to_nat (bufio.n b)) p)
        as [buf1 c] eqn:Hcp.
      cbn [fst snd] in Hl, Hh.
      assert (Hk : c = (List.length (bufio.buf b) - Z.to_nat (bufio.n b))%nat).
      { unfold bufio.copy_at in Hcp. injection Hcp as _ <-. lia. }
      set (b1 := bufio.mkWriter None buf1 (bufio.n b + Z.of_nat c)).
      assert (Hb1 : ready b1).
      { split; [reflexivity|]. cbn. rewrite Hl. lia. }
      destruct (Flush_ready b1 h Hb1) as (b2 & h2 & Hf & Hb2 & Hn2 & Hc2).
      cbv zeta. fold b1. rewrite Hf.
      assert (Hheld1 : held b1 = (held b ++ firstn c p)%list).
      { unfold held, b1. cbn [bufio.n bufio.buf].
        replace (Z.to_nat (bufio.n b + Z.of_nat c))
          with (Z.to_nat (bufio.n b) + c)%nat by lia.
        exact Hh. }
      assert (Hlen2 : List.length (bufio.buf b2) = List.length (bufio.buf b)).
      { pose proof (Flush_keeps wr_Write b1 h) as Hk2. cbv zeta in Hk2.
        rewrite Hf in Hk2. cbn [fst] in Hk2.
        destruct Hk2 as [_ Hk2]; [intros _; apply Hb1|].
        rewrite Hk2. exact Hl. }
      assert (Hheld2 : held b2 = []).
      { unfold held. rewrite Hn2. reflexivity. }
      assert (Hsplit : (firstn c p ++ skipn c p)%list = p)
        by apply firstn_skipn.
      destruct (Z.le_gt_cases (Z.of_nat (List.length (skipn c p)))
                  (bufio.Available b2)) as [Hfit2|Hbig2].
      * destruct (final_copy (S (List.length p)) b2 h2 (skipn c p)
                    (0 + Z.of_nat c) Hb2 Hfit2) as (b' & Hw & Hb' & Hh').
        exists b', h2. rewrite Hw. split; [|split; [exact Hb'|]].
        -- f_equal. f_equal. f_equal. rewrite length_skipn. lia.
        -- rewrite Hh', Hheld2, Hc2, Hheld1. cbn [app].
           rewrite <- !app_assoc. now rewrite Hsplit.
      * destruct (direct_write (List.length p) b2 h2 (skipn c p)
                    (0 + Z.of_nat c) Hb2 Hn2 ltac:(lia))
          as (b' & h' & Hw & Hb' & Hh' & Hc').
        exists b', h'. rewrite Hw. split; [|split; [exact Hb'|]].
        -- f_equal. f_equal. f_equal. rewrite length_skipn. lia.
        -- rewrite Hh', Hc', Hc2, Hheld1, app_nil_r.
           rewrite <- !app_assoc. now rewrite Hsplit.
Qed.

Lemma write_all_ready (ps : list (list byte)) (b : bufio.Writer) (h : H) :
  ready b ->
  exists b' h',
    write_all wr_Write b h ps
    = (b', h',
       map (fun p => bufio.Returns (IO (Z.of_nat (List.length p)) None)) ps)
    /\ ready b'
    /\ (contents h' ++ held b' = contents h ++ held b ++ List.concat ps)%list.
Proof.
  revert b h. induction ps as [|p ps IH]; intros b h Hb.
  - exists b, h. cbn [write_all map List.concat]. rewrite app_nil_r. auto.
  - destruct (Write_ready b h p Hb) as (b1 & h1 & Hw & Hb1 & Hc1).
    destruct (IH b1 h1 Hb1) as (b2 & h2 & Hws & Hb2 & Hc2).
    exists b2, h2. cbn [write_all map List.concat]. rewrite Hw, Hws.
    split; [reflexivity|]. split; [exact Hb2|].
    rewrite Hc2, app_assoc, Hc1, <- !app_assoc. reflexivity.
Qed.

(** X23: nothing is lost between the program and the file.  Over a
    file that takes every write whole, each [Write] on a new
    [bufferedWriteCloser] reports all its bytes written and no
    error, and after [Close] the file holds what it held before
    followed by the bytes of all the writes, in order and once;
    [Close] has flushed the buffer, called [Close] of the file and
    returns what that returned. *)
Theorem nothing_is_lost (ps : list (list byte)) (h0 : H) :
  exists b h b' h',
    write_all wr_Write bufio.NewWriter h0 ps
    = (b, h,
       map (fun p => bufio.Returns (IO (Z.of_nat (List.length p)) None)) ps)
    /\ bufferedWriteCloser_Close wr_Write cl_Close b h
       = (b', fst (cl_Close h'), snd (cl_Close h'))
    /\ contents h' = (contents h0 ++ List.concat ps)%list
    /\ contents (fst (cl_Close h')) = (contents h0 ++ List.concat ps)%list
    /\ held b' = [].
Proof.
  assert (H0 : ready bufio.NewWriter).
  { split; [reflexivity | cbn; lia]. }
  destruct (write_all_ready ps bufio.NewWriter h0 H0)
    as (b & h & Hw & Hb & Hc).
  destruct (Flush_ready b h Hb) as (b' & h' & Hf & Hb' & Hn' & Hc').
  exists b, h, b', h'. split; [exact Hw|].
  assert (Hcont : contents h' = (contents h0 ++ List.concat ps)%list).
  { rewrite Hc', Hc. reflexivity. }
  repeat split.
  - unfold bufferedWriteCloser_Close. rewrite Hf.
    destruct (cl_Close h'). reflexivity.
  - exact Hcont.
  - now rewrite close_keeps.
  - unfold held. now rewrite Hn'.
Qed.

End Integrity.

Lemma nothing_is_lost_witness :
  exists b h b' h',
    write_all mem_Write bufio.NewWriter [] [hello; hello]
    = (b, h,
       map (fun p => bufio.Returns (IO (Z.of_nat (List.length p)) None))
         [hello; hello])
    /\ bufferedWriteCloser_Close mem_Write mem_Close b h
       = (b', fst (mem_Close h'), snd (mem_Close h'))
    /\ (fun f : list byte => f) h' = ([] ++ List.concat [hello; hello])%list
    /\ (fun f : list byte => f) (fst (mem_Close h'))
       = ([] ++ List.concat [hello; hello])%list
    /\ held b' = [].
Proof.
  apply (nothing_is_lost mem_Write mem_Close (fun f => f)).
  - intros h p. split; reflexivity.
  - intros h. reflexivity.
Defined.

Section Sticky.
Context {H : Type}.
Variable wr_Write : H -> list byte -> H * io_result.
Variable cl_Close : H -> H * option error.

Lemma Flush_error (b b' : bufio.Writer) (h h' : H) (e : error) :
  bufio.Flush wr_Write b h = (b', h', Some e) -> bufio.err b' = Some e.
Proof.
  unfold bufio.Flush.
  destruct (bufio.err b) as [e0|] eqn:He; [intros [= <- <- <-]; exact He|].
  destruct (bufio.n b =? 0); [discriminate|].
  destruct (wr_Write h _) as [h1 r].
  destruct (match io_err r with
            | Some e0 => Some e0
            | None => if io_n r <? bufio.n b then Some io_ErrShortWrite else None
            end) as [e1|]; [|discriminate].
  intros [= <- <- <-]. reflexivity.
Qed.

Lemma Write_loop_error (fuel : nat) (b b' : bufio.Writer) (h h' : H)
  (p : list byte) (nn k : Z) (e : error) :
  bufio.Write_loop wr_Write fuel b h p nn
  = (b', h', bufio.Returns (IO k (Some e))) ->
  bufio.err b' = Some e.
Proof.
  revert b h p nn. induction fuel as [|fuel IH]; intros b h p nn;
    cbn [bufio.Write_loop].
  - destruct ((bufio.Available b <? _) && _); [discriminate|].
    destruct (bufio.err b) as [e0|] eqn:He.
    + intros [= <- <- _ <-]. exact He.
    + destruct (bufio.copy_at _ _ p). discriminate.
  - destruct ((bufio.Available b <? _) && _).
    + destruct (bufio.Buffered b =? 0).
      * destruct (wr_Write h p) as [h1 r].
        destruct ((io_n r <? 0) || _); [discriminate | apply IH].
      * destruct (bufio.copy_at _ _ p) as [buf1 c].
        destruct (bufio.Flush wr_Write _ h) as [[b2 h2] e2]. apply IH.
    + destruct (bufio.err b) as [e0|] eqn:He.
      * intros [= <- <- _ <-]. exact He.
      * destruct (bufio.copy_at _ _ p). discriminate.
Qed.

Lemma stuck (b : bufio.Writer) (h : H) (e : error) :
  bufio.err b = Some e ->
  bufio.Flush wr_Write b h = (b, h, Some e)
  /\ (forall p,
        bufio.Write wr_Write b h p = (b, h, bufio.Returns (IO 0 (Some e))))
  /\ bufferedWriteCloser_Close wr_Write cl_Close b h = (b, h, Some e).
Proof.
  intros He.
  assert (Hf : bufio.Flush wr_Write b h = (b, h, Some e)).
  { unfold bufio.Flush. now rewrite He. }
  split; [exact Hf|]. split.
  - intros p. unfold bufio.Write. cbn [bufio.Write_loop].
    rewrite He, andb_false_r. reflexivity.
  - unfold bufferedWriteCloser_Close. now rewrite Hf.
Qed.

(** X24: the first error of a [bufio.Writer] is its last word.  Once
    a [Write] or a [Flush] has returned an error, every later
    [Write] and [Flush] returns that error and hands nothing to the
    file, and [Close] of the [bufferedWriteCloser] returns it
    without closing the file; a [Close] whose own flush fails does
    not close the file either. *)
Theorem first_error_sticks
  (b b' : bufio.Writer) (h h' : H) (e : error) :
  (exists p k,
     bufio.Write wr_Write b h p = (b', h', bufio.Returns (IO k (Some e))))
  \/ bufio.Flush wr_Write b h = (b', h', Some e) ->
  (bufio.Flush wr_Write b h = (b', h', Some e) ->
   bufferedWriteCloser_Close wr_Write cl_Close b h = (b', h', Some e))
  /\ bufio.Flush wr_Write b' h' = (b', h', Some e)
  /\ (forall p,
        bufio.Write wr_Write b' h' p
        = (b', h', bufio.Returns (IO 0 (Some e))))
  /\ bufferedWriteCloser_Close wr_Write cl_Close b' h' = (b', h', Some e).
Proof.
  intros Hfail.
  assert (He : bufio.err b' = Some e).
  { destruct Hfail as [(p & k & Hw)|Hf].
    - exact (Write_loop_error _ b b' h h' p 0 k e Hw).
    - exact (Flush_error b b' h h' e Hf). }
  split.
  - intros Hf. unfold bufferedWriteCloser_Close. now rewrite Hf.
  - apply stuck. exact He.
Qed.

End Sticky.

Lemma first_error_sticks_witness :
  let b := fst (fst (bufio.Write full_Write bufio.NewWriter [] hello)) in
  let b' := fst (fst (bufio.Flush full_Write b [])) in
  bufio.Flush full_Write b [] = (b', [], Some no_space)
  /\ bufferedWriteCloser_Close full_Write mem_Close b [] = (b', [], Some no_space)
  /\ bufferedWriteCloser_Close full_Write mem_Close b' [] = (b', [], Some no_space).
Proof.
  intros b b'.
  assert (Hf : bufio.Flush full_Write b [] = (b', [], Some no_space))
    by reflexivity.
  destruct (first_error_sticks full_Write mem_Close b b' [] [] no_space
              (or_intror Hf)) as (H1 & _ & _ & H4).
  split; [exact Hf|]. split; [exact (H1 Hf) | exact H4].
Defined.

(** ** The sender with the byte cap: write errors *)

Lemma limit_write_loop_prefix (oks tail : list io_result) (nBytes : Z) :
  Forall full_or_short oks ->
  0 <= nBytes ->
  nBytes + sum_n oks <= totalData + data_len ->
  (forall k, (k < List.length oks)%nat ->
             nBytes + sum_n (firstn k oks) <= totalData) ->
  Limit.write_loop (oks ++ tail) nBytes
  = let '(n, ev, e) := Limit.write_loop tail (nBytes + sum_n oks) in
    (n, (map Write oks ++ ev)%list, e).
Proof.
  intros Hall. revert nBytes.
  induction Hall as [|w oks [Herr Hn] Hws IH]; intros nBytes H0 Hsum Hcap.
  - cbn [sum_n fold_right app map]. rewrite Z.add_0_r.
    destruct (Limit.write_loop tail nBytes) as [[n ev] e]. reflexivity.
  - unfold Limit.write_loop in *. cbn [app for_loop].
    unfold Limit.write_cond at 1.
    pose proof (Hcap O ltac:(simpl; lia)) as Hc0.
    cbn [firstn sum_n fold_right] in Hc0. rewrite Z.add_0_r in Hc0.
    apply Z.leb_le in Hc0. rewrite Hc0.
    unfold Limit.write_body at 1. rewrite Herr.
    apply Z.leb_le in Hc0.
    assert (E : uint64 (nBytes + uint64 (io_n w)) = nBytes + io_n w).
    { rewrite data_len_value in Hn. rewrite totalData_value in Hc0.
      assert (2 ^ 64 = 18446744073709551616) as P by reflexivity.
      rewrite (uint64_small (io_n w)) by lia.
      apply uint64_small. lia. }
    rewrite E.
    cbn [sum_n fold_right] in Hsum. fold (sum_n oks) in Hsum.
    rewrite (IH (nBytes + io_n w)).
    + cbn [sum_n fold_right]. fold (sum_n oks). rewrite Z.add_assoc.
      destruct (for_loop _ _ tail _) as [[n ev] e]. reflexivity.
    + lia.
    + lia.
    + intros k Hk. specialize (Hcap (S k) ltac:(simpl; lia)).
      cbn [firstn sum_n fold_right] in Hcap. fold (sum_n (firstn k oks)) in Hcap.
      lia.
Qed.

(** X25: in the revisions with the byte cap the sender does not tell
    a graceful stop from a failure: a write that fails below the cap
    ends the goroutine with an error record whatever the error is,
    application error code 0 included; the stream is closed and the
    bytes of the writes before it are logged. *)
Theorem capped_sender_logs_every_error
  (oks rest : list io_result) (r : io_result) (e : error) :
  Forall full_or_short oks ->
  sum_n oks <= totalData ->
  io_err r = Some e ->
  Limit.session (Conn None (oks ++ r :: rest))
  = ((Glog INFO OpeningStream :: map Write oks)
       ++ [Write r; Glog ERROR (ErrorWriting e); Close;
           Glog INFO (Wrote (sum_n oks))], Returned)%list.
Proof.
  intros Hall Hsum Hr.
  assert (Hpos : forall l, Forall full_or_short l -> 0 <= sum_n l).
  { intros l Hl. now apply sum_n_nonneg. }
  assert (Hpre : forall k, sum_n (firstn k oks) <= sum_n oks).
  { intros k. rewrite <- (firstn_skipn k oks) at 2.
    assert (Hs : forall a b, sum_n (a ++ b) = sum_n a + sum_n b).
    { intros a b. induction a as [|x a IHa]; [reflexivity|].
      cbn [app sum_n fold_right]. fold (sum_n (a ++ b)) (sum_n a). lia. }
    rewrite Hs.
    assert (0 <= sum_n (skipn k oks)).
    { apply Hpos. apply Forall_forall. intros x Hx.
      rewrite Forall_forall in Hall. apply Hall.
      rewrite <- (firstn_skipn k oks). apply in_or_app. now right. }
    lia. }
  unfold Limit.session, session. cbn [open_stream writes].
  rewrite (limit_write_loop_prefix oks (r :: rest) 0 Hall).
  - cbn [Z.add]. unfold Limit.write_loop. cbn [for_loop].
    unfold Limit.write_cond.
    apply Z.leb_le in Hsum. rewrite Hsum.
    unfold Limit.write_body. rewrite Hr.
    cbn [app]. rewrite <- app_assoc. reflexivity.
  - lia.
  - rewrite data_len_value. cbn [Z.add]. lia.
  - intros k _. cbn [Z.add]. specialize (Hpre k). lia.
Qed.

Lemma capped_sender_logs_every_error_witness :
  Limit.session
    (Conn None ([IO 65536 None] ++ [IO 0 (Some (ApplicationError 0))]))
  = ((Glog INFO OpeningStream :: map Write [IO 65536 None])
       ++ [Write (IO 0 (Some (ApplicationError 0)));
           Glog ERROR (ErrorWriting (ApplicationError 0)); Close;
           Glog INFO (Wrote (sum_n [IO 65536 None]))], Returned)%list.
Proof.
  apply (capped_sender_logs_every_error [IO 65536 None] []
           (IO 0 (Some (ApplicationError 0))) (ApplicationError 0)).
  - repeat constructor; simpl; rewrite ?data_len_value; lia.
  - rewrite totalData_value. simpl. lia.
  - reflexivity.
Defined.

(** ** The word infinity *)

Lemma two_cases (c : ascii) (lo up : ascii) :
  mem c (String lo (String up "")) = true -> c = lo \/ c = up.
Proof.
  cbn [mem]. rewrite orb_false_r. intros H. apply orb_prop in H.
  destruct H as [H|H]; apply Ascii.eqb_eq in H; auto.
Qed.

(** X26: the word infinity spelled in full is a number only without
    a suffix.  With or without a sign and in any mix of cases it
    gives a limiter of infinite rate; followed by one of the letters
    K, M, G, T it is rejected, because the scanner of the suffixed
    forms takes the three letters inf and then finds the rest of
    the word where the suffix should be. *)
Theorem infinity_takes_no_suffix (sgn w t : string) (s : suffix) :
  sign_piece sgn ->
  infinity_word w ->
  Limit.limiterFromString (sgn ++ w)
  = (Some (rate.NewLimiter
             (if String.eqb sgn "-" then Float64.NInf else Float64.PInf)
             readChunkSize), None)
  /\ Limit.limiterFromString (sgn ++ w ++ letter s ++ t)
     = (None, Some Limit.FailedToParse).
Proof.
  intros Hsgn (c1 & c2 & c3 & c4 & c5 & c6 & c7 & c8 & -> &
               H1 & H2 & H3 & H4 & H5 & H6 & H7 & H8).
  apply two_cases in H1, H2, H3, H4, H5, H6, H7, H8.
  destruct Hsgn as [->|[->| ->]];
    destruct H1 as [->| ->]; destruct H2 as [->| ->];
    destruct H3 as [->| ->]; destruct H4 as [->| ->];
    destruct H5 as [->| ->]; destruct H6 as [->| ->];
    destruct H7 as [->| ->]; destruct H8 as [->| ->];
    (split; [vm_compute; reflexivity|]);
    destruct s; reflexivity.
Qed.

Lemma infinity_takes_no_suffix_witness :
  Limit.limiterFromString ("-" ++ "Infinity")
  = (Some (rate.NewLimiter Float64.NInf readChunkSize), None)
  /\ Limit.limiterFromString ("-" ++ "Infinity" ++ letter G ++ "bit")
     = (None, Some Limit.FailedToParse).
Proof.
  apply (infinity_takes_no_suffix "-" "Infinity" "bit" G).
  - right. right. reflexivity.
  - exists "I"%char, "n"%char, "f"%char, "i"%char, "n"%char, "i"%char,
      "t"%char, "y"%char.
    repeat split.
Defined.

(* ================================================================= *)
(** ** The TLS settings of the two sides *)

(** X27: the client checks the certificate of the server against
    the host of [-c], the name without the port and without the
    brackets of an IPv6 address, and offers the protocol
    [quic-perf-test], which is the one the server offers.  The flag
    [-insecure] reaches the configuration of the server only: the
    client never skips the verification of the certificate. *)
Theorem tls_settings (Certificate : Type) (host port : string)
  (cert : Certificate) (insecure : bool) :
  lacks "[" host -> lacks "]" host ->
  lacks ":" port -> lacks "[" port -> lacks "]" port ->
  exists cfg,
    client_tls_config Certificate (net.JoinHostPort host port) = Some cfg
    /\ ServerName Certificate cfg = host
    /\ InsecureSkipVerify Certificate cfg = false
    /\ NextProtos Certificate cfg = ["quic-perf-test"]
    /\ NextProtos Certificate cfg
       = NextProtos Certificate (server_tls_config Certificate cert insecure)
    /\ InsecureSkipVerify Certificate
         (server_tls_config Certificate cert insecure) = insecure.
Proof.
  intros H1 H2 H3 H4 H5. unfold client_tls_config.
  rewrite (SplitHostPort_joined host port H1 H2 H3 H4 H5).
  eexists. split; [reflexivity|]. repeat split.
Qed.

Lemma tls_settings_witness :
  exists cfg,
    client_tls_config unit "[fe80::1]:32850" = Some cfg
    /\ ServerName unit cfg = "fe80::1"
    /\ InsecureSkipVerify unit cfg = false
    /\ NextProtos unit cfg = ["quic-perf-test"]
    /\ NextProtos unit cfg = NextProtos unit (server_tls_config unit tt true)
    /\ InsecureSkipVerify unit (server_tls_config unit tt true) = true.
Proof.
  apply (tls_settings unit "fe80::1" "32850" tt true); reflexivity.
Defined.
